(** * The forwarding proxy of spaced (proxy/proxy.ts) over a model of its platform

    The class of [proxy.ts] has two route predicates ([route], [routeWs]) and
    two handlers: [handle] forwards one HTTP request to a caller-supplied
    target, [handleWs] upgrades the inbound connection and relays WebSocket
    frames to a caller-supplied target.

    The handlers run on the Deno runtime.  What the runtime decides
    ([JSON.parse], [fetch], [Deno.upgradeWebSocket], the [WebSocket]
    constructor, the [URL] parser) is a [Platform] record of oracles; what
    the handlers do with the answers is translated statement by statement.
    Effects are threaded through a state-and-exception monad over a [World]
    holding the heap of WebSocket objects and the trace of outward calls. *)

From Stdlib Require Import ZArith Ascii String List Bool.
From stdpp Require Import base option list gmap strings fin_maps.
Import ListNotations.

#[local] Set Warnings "-register-all".

Local Open Scope string_scope.
Local Open Scope list_scope.

(** ** Strings as the platform compares them *)

(** Byte-lowercasing of an ASCII letter, as the [Headers] class applies it
    to header names. *)
Definition byteLowerCase_ascii (c : ascii) : ascii :=
  let n := nat_of_ascii c in
  if (65 <=? n)%nat && (n <=? 90)%nat then ascii_of_nat (n + 32) else c.

Fixpoint byteLowerCase (s : string) : string :=
  match s with
  | EmptyString => EmptyString
  | String c s' => String (byteLowerCase_ascii c) (byteLowerCase s')
  end.

(** [String.prototype.startsWith]: [startsWith path p] is
    [path.startsWith(p)]. *)
Definition startsWith (s p : string) : bool := String.prefix p s.

(** [a || ""] on the result of a [get]: [null] and the empty string both
    give [""]. *)
Definition or_empty (o : option string) : string :=
  match o with
  | Some s => s
  | None => ""
  end.

(** ** The proxy object and its route predicates *)

Record Proxy := mkProxy {
  prefix : string;
  wsPrefix : string;
  debug : bool
}.

(** [constructor(prefix, wsPrefix, debug)]: [this.debug = debug ?? false]. *)
Definition new_Proxy (p ws : string) (dbg : option bool) : Proxy :=
  {| prefix := p; wsPrefix := ws; debug := default false dbg |}.

(** [route(path)]: [path === this.prefix]. *)
Definition route (this : Proxy) (path : string) : bool :=
  String.eqb path (prefix this).

(** [routeWs(path)]: [path.startsWith(this.wsPrefix)]. *)
Definition routeWs (this : Proxy) (path : string) : bool :=
  startsWith path (wsPrefix this).

(** The instance the application builds: [new Proxy("/fetch", "/fetchWs")]. *)
Definition proxy : Proxy := new_Proxy "/fetch" "/fetchWs" None.

(** ** Thrown values and parsed JSON *)

(** A thrown [Error]: its class name and its [message]. *)
Record Exn := mkExn {
  exn_name : string;
  message : string
}.

(** What [JSON.parse] returns. *)
Inductive JsValue :=
| JNull
| JBool (b : bool)
| JNumber (n : Z)
| JString (s : string)
| JArray (l : list JsValue)
| JObject (o : list (string * JsValue)).

(** ** The [Headers] class

    A header list keeps the pairs as they were appended.  Names are matched
    case-insensitively; [get] joins the values of a name with [", "], and
    iteration ([entries]) yields lower-cased names, one entry per name
    ([set-cookie] apart), sorted by name. *)

Abbreviation Headers := (list (string * string)).

Definition name_matches (name : string) (e : string * string) : bool :=
  String.eqb (byteLowerCase (fst e)) (byteLowerCase name).

Definition Headers_values (h : Headers) (name : string) : list string :=
  List.map snd (List.filter (name_matches name) h).

Definition Headers_get (h : Headers) (name : string) : option string :=
  match Headers_values h name with
  | [] => None
  | vs => Some (String.concat ", " vs)
  end.

Definition Headers_has (h : Headers) (name : string) : bool :=
  existsb (name_matches name) h.

Fixpoint combine_entry (n v : string) (es : list (string * string))
  : list (string * string) :=
  match es with
  | [] => [(n, v)]
  | (n', v') :: es' =>
      if String.eqb n n'
      then (n', if String.eqb v' "" then v else v' +:+ ", " +:+ v) :: es'
      else (n', v') :: combine_entry n v es'
  end.

Definition combine_headers (h : Headers) : list (string * string) :=
  fold_left
    (fun es e =>
       let n := byteLowerCase (fst e) in
       if String.eqb n "set-cookie" then es ++ [(n, snd e)]
       else combine_entry n (snd e) es)
    h [].

Fixpoint insert_entry (e : string * string) (es : list (string * string))
  : list (string * string) :=
  match es with
  | [] => [e]
  | e' :: es' =>
      if String.ltb (fst e) (fst e') then e :: es
      else e' :: insert_entry e es'
  end.

Definition sort_entries (es : list (string * string)) : list (string * string) :=
  fold_left (fun acc e => insert_entry e acc) es [].

(** [headers.entries()]. *)
Definition Headers_entries (h : Headers) : list (string * string) :=
  sort_entries (combine_headers h).

(** A property of all the names of an entry list, and the names that
    lower-casing leaves as they are. *)
Definition keys (P : string -> Prop) (es : list (string * string)) : Prop :=
  List.Forall (fun e => P (fst e)) es.

Definition lower (n : string) : Prop := byteLowerCase n = n.

(** ** Plain objects with string values

    Own properties in insertion order; assigning an existing key keeps its
    place and replaces its value. *)

Abbreviation JsObject := (list (string * string)).

Fixpoint obj_set (k v : string) (o : JsObject) : JsObject :=
  match o with
  | [] => [(k, v)]
  | (k', v') :: o' =>
      if String.eqb k k' then (k', v) :: o' else (k', v') :: obj_set k v o'
  end.

(** [delete o[k]]. *)
Definition obj_delete (k : string) (o : JsObject) : JsObject :=
  List.filter (fun p => negb (String.eqb k (fst p))) o.

Definition obj_assign (target src : JsObject) : JsObject :=
  fold_left (fun o p => obj_set (fst p) (snd p) o) src target.

(** [Object.fromEntries(es)]. *)
Definition Object_fromEntries (es : list (string * string)) : JsObject :=
  obj_assign [] es.

(** [new Headers(o)] for a plain object [o]: one [append] per property. *)
Definition Headers_of_object (o : JsObject) : Headers :=
  fold_left (fun h p => h ++ [p]) o [].

(** ** Requests and responses *)

Inductive Body :=
| body_null
| body_text (s : string)
| body_stream (id : nat).

Record Response := mkResponse {
  status : Z;
  headers : Headers;
  body : Body
}.

(** The first argument of the [Response] constructor: a string, or the
    body (stream or null) of another response. *)
Inductive BodyInit :=
| init_string (s : string)
| init_body (b : Body).

(** The statuses the [Response] constructor takes: 200 to 599, and 101. *)
Definition status_in_range (s : Z) : bool :=
  ((200 <=? s) && (s <=? 599) || (s =? 101))%Z.

(** The statuses of responses that have no body. *)
Definition null_body_status (s : Z) : bool :=
  ((s =? 101) || (s =? 204) || (s =? 205) || (s =? 304))%Z.

Definition has_body (bi : BodyInit) : bool :=
  match bi with
  | init_string _ => true
  | init_body body_null => false
  | init_body _ => true
  end.

(** The object [new Response(body, { status, headers })] makes when it
    accepts its arguments: a string body brings its [content-type] unless
    the init names one. *)
Definition Response_of (bi : BodyInit) (s : Z) (hs : JsObject) : Response :=
  let h := Headers_of_object hs in
  match bi with
  | init_string str =>
      {| status := s;
         headers :=
           if Headers_has h "content-type" then h
           else h ++ [("content-type", "text/plain;charset=UTF-8")];
         body := body_text str |}
  | init_body b =>
      {| status := s; headers := h; body := b |}
  end.

(** The inbound request: [req_text] is what [await req.text()] yields. *)
Record Request := mkRequest {
  req_method : string;
  req_url : string;
  req_headers : Headers;
  req_text : Exn + string
}.

Record URL := mkURL {
  pathname : string;
  search : string;
  searchParams : list (string * string)
}.

(** [u.searchParams.get(name)]. *)
Definition searchParams_get (u : URL) (name : string) : option string :=
  snd <$> List.find (fun p => String.eqb (fst p) name) (searchParams u).

(** The second argument of [fetch]: [opts] of [handle]. *)
Record Opts := mkOpts {
  opts_method : string;
  opts_headers : JsValue;
  opts_body : option string
}.

(** ** WebSocket objects *)

Inductive ReadyState := CONNECTING | OPEN | CLOSING | CLOSED.

(** [e.data] of a message event: a string for a text frame, bytes for a
    binary frame. *)
Inductive Data :=
| data_text (s : string)
| data_binary (bs : list Byte.byte).

(** The closures [handleWs] installs, by what they capture:
    [send_to t] is [(e) => t.send(e.data)], [close_of t] is [() => t.close()]. *)
Inductive Callback :=
| send_to (target : nat)
| close_of (target : nat).

Record WebSocket := mkWebSocket {
  readyState : ReadyState;
  ws_url : string;
  ws_protocol : string;
  onmessage : option Callback;
  onclose : option Callback;
  sent : list Data
}.

(** ** The world: heap of sockets and trace of outward calls *)

Inductive Effect :=
| console_log (s : string)
| fetched (url : string) (opts : Opts)
| uncaught (e : Exn).

Record World := mkWorld {
  sockets : gmap nat WebSocket;
  trace : list Effect
}.

Definition empty_world : World := {| sockets := ∅; trace := [] |}.

(** ** The platform *)

Record Platform := mkPlatform {
  (** [JSON.parse(text)] *)
  JSON_parse : string -> Exn + JsValue;
  (** [new URL(href)] *)
  URL_parse : string -> Exn + URL;
  (** [await fetch(url, opts)]: the upstream response, or the rejection *)
  fetch : string -> Opts -> Exn + Response;
  (** [Deno.upgradeWebSocket(req, { protocol })]: the 101 response for a
      valid upgrade request, or the error thrown for any other request *)
  Deno_upgradeWebSocket : Request -> string -> Exn + Response;
  (** the checks of [new WebSocket(url, protocol)]: [Some e] when the
      constructor throws [e] *)
  WebSocket_rejects : string -> string -> option Exn;
  (** the [RangeError] that [new Response] throws for a status it does not
      take, and the [TypeError] it throws for a body given with the status
      of a response that has none *)
  Response_RangeError : Z -> Exn;
  Response_TypeError : Z -> Exn
}.

(** What every ECMAScript and WHATWG conforming platform does on the empty
    string: [JSON.parse("")] throws a [SyntaxError], and
    [new WebSocket("", p)] throws because [""] is not a URL. *)
Record Conforming (pf : Platform) : Prop := {
  JSON_parse_empty : exists e, JSON_parse pf "" = inl e;
  WebSocket_empty_url : forall proto, is_Some (WebSocket_rejects pf "" proto)
}.

(** [new Response(body, { status, headers })]; [status] is 200 when the
    init omits it.  The constructor throws a [RangeError] for a status
    outside 200..599 other than 101, and a [TypeError] for a body given
    with a null body status.  (A status is an unsigned short on every
    response, so the conversion of the init's status changes nothing on a
    status read from a response; the header names and values of this
    program come out of a [Headers] object or are literals the constructor
    takes.) *)
Definition new_Response (pf : Platform) (bi : BodyInit) (st : option Z)
    (hs : JsObject) : Exn + Response :=
  let s := default 200%Z st in
  if negb (status_in_range s) then inl (Response_RangeError pf s)
  else if has_body bi && null_body_status s then inl (Response_TypeError pf s)
  else inr (Response_of bi s hs).

Arguments new_Response : simpl never.

(** ** The monad of handler code

    A computation transforms the world and completes normally or abruptly.
    For the [async] method [handle] the completion is the settlement of the
    promise it returns: [Threw e] is a rejection with [e], which a caller's
    [await] rethrows. *)

Inductive Completion (A : Type) :=
| Returned (a : A)
| Threw (e : Exn).
Arguments Returned {A} a.
Arguments Threw {A} e.

Definition M (A : Type) : Type := World -> World * Completion A.

Definition ret {A} (a : A) : M A := fun w => (w, Returned a).

Definition throw {A} (e : Exn) : M A := fun w => (w, Threw e).

Definition bind {A B} (m : M A) (k : A -> M B) : M B :=
  fun w =>
    match m w with
    | (w', Returned a) => k a w'
    | (w', Threw e) => (w', Threw e)
    end.

(** [try { x = m } catch (e) { return h(e) }  k(x)]: the handler leaves the
    function, the continuation runs outside the [try]. *)
Definition try_else {A B} (m : M A) (h : Exn -> M B) (k : A -> M B) : M B :=
  fun w =>
    match m w with
    | (w', Returned a) => k a w'
    | (w', Threw e) => h e w'
    end.

(** [try { return m } catch (e) { return h(e) }]. *)
Definition try_catch {A} (m : M A) (h : Exn -> M A) : M A := try_else m h ret.

Declare Scope js_scope.
Delimit Scope js_scope with js.
Notation "x <- m ;; k" := (bind m (fun x => k))
  (at level 20, m at level 99, k at level 200, only parsing) : js_scope.
Notation "m ;; k" := (bind m (fun _ => k))
  (at level 100, k at level 200, right associativity, only parsing) : js_scope.
Local Open Scope js_scope.

Definition lift {A} (r : Exn + A) : M A :=
  match r with
  | inl e => throw e
  | inr a => ret a
  end.

Definition emit (ef : Effect) : M unit :=
  fun w => ({| sockets := sockets w; trace := trace w ++ [ef] |}, Returned tt).

Definition when (b : bool) (m : M unit) : M unit := if b then m else ret tt.

(** *** The heap *)

(** A new object on the heap. *)
Definition alloc (ws : WebSocket) : M nat :=
  fun w =>
    let r := fresh (dom (sockets w)) in
    ({| sockets := <[r := ws]> (sockets w); trace := trace w |}, Returned r).

Definition fresh_socket (url proto : string) : WebSocket :=
  {| readyState := CONNECTING; ws_url := url; ws_protocol := proto;
     onmessage := None; onclose := None; sent := [] |}.

Definition update_socket (r : nat) (f : WebSocket -> WebSocket) : M unit :=
  fun w => ({| sockets := alter f r (sockets w); trace := trace w |}, Returned tt).

(** [s.onmessage = cb] *)
Definition set_onmessage (s : nat) (cb : Callback) : M unit :=
  update_socket s (fun ws =>
    {| readyState := readyState ws; ws_url := ws_url ws;
       ws_protocol := ws_protocol ws; onmessage := Some cb;
       onclose := onclose ws; sent := sent ws |}).

(** [s.onclose = cb] *)
Definition set_onclose (s : nat) (cb : Callback) : M unit :=
  update_socket s (fun ws =>
    {| readyState := readyState ws; ws_url := ws_url ws;
       ws_protocol := ws_protocol ws; onmessage := onmessage ws;
       onclose := Some cb; sent := sent ws |}).

(** *** Platform calls *)

Section Handlers.
Variable pf : Platform.

(** [await fetch(url, opts)]: the call leaves a mark in the trace. *)
Definition call_fetch (url : string) (opts : Opts) : M Response :=
  emit (fetched url opts) ;; lift (fetch pf url opts).

(** [Deno.upgradeWebSocket(req, { protocol })]: the response to return and
    the server side socket, still connecting. *)
Definition upgradeWebSocket (req : Request) (proto : string) : M (Response * nat) :=
  resp <- lift (Deno_upgradeWebSocket pf req proto) ;;
  sock <- alloc (fresh_socket (req_url req) proto) ;;
  ret (resp, sock).

(** [new WebSocket(url, protocol)]. *)
Definition new_WebSocket (url proto : string) : M nat :=
  match WebSocket_rejects pf url proto with
  | Some e => throw e
  | None => alloc (fresh_socket url proto)
  end.

(** ** [handle]: forward one HTTP request *)

Definition handle (this : Proxy) (req : Request) : M Response :=
  let url := or_empty (Headers_get (req_headers req) "x-url") in
  hdrs <- lift (JSON_parse pf (or_empty (Headers_get (req_headers req) "x-headers"))) ;;
  when (debug this) (emit (console_log ("Handling " +:+ url))) ;;
  try_catch
    (body_opt <-
       (if String.eqb (req_method req) "POST"
        then
          b <- lift (req_text req) ;;
          emit (console_log (req_method req +:+ " " +:+ url)) ;;
          ret (Some b)
        else ret None) ;;
     let opts := {| opts_method := req_method req; opts_headers := hdrs;
                    opts_body := body_opt |} in
     proxyResp <- call_fetch url opts ;;
     let respHeaders := Object_fromEntries (Headers_entries (headers proxyResp)) in
     let respHeaders := obj_delete "age" respHeaders in
     let respHeaders := obj_delete "cache-control" respHeaders in
     let respHeaders := obj_delete "expires" respHeaders in
     lift (new_Response pf (init_body (body proxyResp)) (Some (status proxyResp))
             (obj_assign [("cache-control", "no-cache")] respHeaders)))
    (fun err => lift (new_Response pf (init_string (message err)) (Some 500%Z) [])).

(** ** [handleWs]: upgrade and relay *)

Definition handleWs (this : Proxy) (req : Request) : M Response :=
  let proto := or_empty (Headers_get (req_headers req) "sec-websocket-protocol") in
  try_else (upgradeWebSocket req proto)
    (fun _ => lift (new_Response pf (init_string "Not a WS connection") None []))
    (fun up =>
       let '(resp, sock) := up in
       u <- lift (URL_parse pf (req_url req)) ;;
       let url := or_empty (searchParams_get u "url") in
       when (debug this) (emit (console_log ("Handling WS " +:+ url))) ;;
       proxySock <- new_WebSocket url proto ;;
       set_onmessage sock (send_to proxySock) ;;
       set_onmessage proxySock (send_to sock) ;;
       set_onclose sock (close_of proxySock) ;;
       set_onclose proxySock (close_of sock) ;;
       ret resp).

(** ** The caller: the routing lines of the [serve] handler

    [if (proxy.route(path)) return await proxy.handle(req);
     else if (proxy.routeWs(path)) return await proxy.handleWs(req);
     else ...]; [None] stands for the static file branch. *)
Definition serve_route (this : Proxy) (req : Request) : M (option Response) :=
  u <- lift (URL_parse pf (req_url req)) ;;
  let path := pathname u in
  if route this path then r <- handle this req ;; ret (Some r)
  else if routeWs this path then r <- handleWs this req ;; ret (Some r)
  else ret None.

End Handlers.

(** ** Socket methods and event delivery

    The runtime delivers [open], [message] and [close] events to a socket
    and calls the handler stored on it. *)

Definition InvalidStateError : Exn :=
  mkExn "InvalidStateError" "readyState not OPEN".

Definition stale_reference : Exn :=
  mkExn "TypeError" "not a WebSocket".

Definition set_readyState (s : nat) (st : ReadyState) : M unit :=
  update_socket s (fun ws =>
    {| readyState := st; ws_url := ws_url ws; ws_protocol := ws_protocol ws;
       onmessage := onmessage ws; onclose := onclose ws; sent := sent ws |}).

Definition push_sent (s : nat) (d : Data) : M unit :=
  update_socket s (fun ws =>
    {| readyState := readyState ws; ws_url := ws_url ws;
       ws_protocol := ws_protocol ws; onmessage := onmessage ws;
       onclose := onclose ws; sent := sent ws ++ [d] |}).

(** [t.send(d)]: the frame goes out on an open socket; on any other the
    runtime throws and nothing is sent. *)
Definition WebSocket_send (t : nat) (d : Data) : M unit :=
  fun w =>
    match sockets w !! t with
    | Some ws =>
        match readyState ws with
        | OPEN => push_sent t d w
        | _ => throw InvalidStateError w
        end
    | None => throw stale_reference w
    end.

(** [t.close()]: starts the closing handshake of a socket that is
    connecting or open, and does nothing on one that is closing or closed. *)
Definition WebSocket_close (t : nat) : M unit :=
  fun w =>
    match sockets w !! t with
    | Some ws =>
        match readyState ws with
        | CONNECTING | OPEN => set_readyState t CLOSING w
        | CLOSING | CLOSED => ret tt w
        end
    | None => throw stale_reference w
    end.

(** The event object passed to a handler. *)
Inductive Event :=
| MessageEvent (data : Data)
| CloseEvent.

(** [e.data]; a close event has none, and [send(undefined)] sends the text
    [undefined]. *)
Definition event_data (e : Event) : Data :=
  match e with
  | MessageEvent d => d
  | CloseEvent => data_text "undefined"
  end.

Definition call (cb : Callback) (e : Event) : M unit :=
  match cb with
  | send_to t => WebSocket_send t (event_data e)
  | close_of t => WebSocket_close t
  end.

(** What an event leaves: the process goes on in a new world, or a handler
    has thrown; nothing catches what a handler throws, so the runtime
    reports it and the process exits. *)
Inductive Outcome :=
| Continues (w : World)
| Exits (w : World) (e : Exn).

(** Calling the handler of an event, if one is set. *)
Definition dispatch (cb : option Callback) (e : Event) (w : World) : Outcome :=
  match cb with
  | None => Continues w
  | Some c =>
      match call c e w with
      | (w', Returned _) => Continues w'
      | (w', Threw x) => Exits (fst (emit (uncaught x) w')) x
      end
  end.

Inductive SockEvent :=
| ev_open (s : nat)
| ev_message (s : nat) (d : Data)
| ev_close (s : nat).

Definition ev_socket (ev : SockEvent) : nat :=
  match ev with
  | ev_open s | ev_message s _ | ev_close s => s
  end.

(** One event: [None] when the event cannot occur in [w] (only a
    connecting socket opens, only an open socket receives, only a socket
    not yet closed closes). *)
Definition deliver_outcome (ev : SockEvent) (w : World) : option Outcome :=
  match sockets w !! ev_socket ev with
  | None => None
  | Some ws =>
      match ev, readyState ws with
      | ev_open s, CONNECTING => Some (Continues (fst (set_readyState s OPEN w)))
      | ev_message s d, OPEN => Some (dispatch (onmessage ws) (MessageEvent d) w)
      | ev_close s, (CONNECTING | OPEN | CLOSING) =>
          Some (dispatch (onclose ws) CloseEvent (fst (set_readyState s CLOSED w)))
      | _, _ => None
      end
  end.

(** One step of a session that goes on: [None] when the event cannot
    occur in [w], and when its handler throws, which ends the process. *)
Definition deliver (ev : SockEvent) (w : World) : option World :=
  match deliver_outcome ev w with
  | Some (Continues w') => Some w'
  | _ => None
  end.

Fixpoint run (evs : list SockEvent) (w : World) : option World :=
  match evs with
  | [] => Some w
  | ev :: evs' =>
      match deliver ev w with
      | Some w' => run evs' w'
      | None => None
      end
  end.

(** *** Sessions *)

Definition state_of (w : World) (s : nat) : option ReadyState :=
  readyState <$> sockets w !! s.

Definition sent_on (w : World) (s : nat) : list Data :=
  match sockets w !! s with
  | Some ws => sent ws
  | None => []
  end.

(** The wiring [handleWs] leaves between the client socket [c] and the
    upstream socket [u]. *)
Definition wired (w : World) (c u : nat) : Prop :=
  c <> u /\
  exists wc wu,
    sockets w !! c = Some wc /\ sockets w !! u = Some wu /\
    onmessage wc = Some (send_to u) /\ onclose wc = Some (close_of u) /\
    onmessage wu = Some (send_to c) /\ onclose wu = Some (close_of c).



Definition on_session (c u : nat) (ev : SockEvent) : bool :=
  Nat.eqb (ev_socket ev) c || Nat.eqb (ev_socket ev) u.



(** The [fetch] calls in a trace. *)
Definition fetch_calls (t : list Effect) : list (string * Opts) :=
  flat_map (fun ef =>
              match ef with
              | fetched url opts => [(url, opts)]
              | _ => []
              end) t.

(** What was emitted between world [w] and a later world [w']. *)
Definition effects_of (w w' : World) : list Effect :=
  drop (length (trace w)) (trace w').

(** ** A scripted platform

    Answers for the calls made by the concrete requests below, as a test
    double of the runtime: one JSON text, two request URLs, two reachable
    upstreams, upgrade accepted on an [upgrade: websocket] header, socket
    URLs accepted on a [ws:] or [wss:] scheme. *)

Definition upstream_response : Response :=
  {| status := 203%Z;
     headers := [("Content-Type", "text/html"); ("Age", "12");
                 ("Cache-Control", "max-age=3600"); ("Expires", "0");
                 ("Vary", "accept"); ("vary", "origin")];
     body := body_stream 7 |}.

(** An upstream that answers with a status above 599. *)
Definition odd_response : Response :=
  {| status := 600%Z; headers := [("Content-Type", "text/html")];
     body := body_stream 8 |}.

Definition switching_protocols : Response :=
  {| status := 101%Z;
     headers := [("upgrade", "websocket"); ("connection", "Upgrade")];
     body := body_null |}.

Definition scripted : Platform :=
  {| JSON_parse s :=
       if String.eqb s "{}" then inr (JObject [])
       else if String.eqb s "" then
         inl (mkExn "SyntaxError" "Unexpected end of JSON input")
       else inl (mkExn "SyntaxError" "Unexpected token");
     URL_parse s :=
       if String.eqb s "http://localhost/fetch" then
         inr {| pathname := "/fetch"; search := ""; searchParams := [] |}
       else if String.eqb s "http://localhost/fetchWs" then
         inr {| pathname := "/fetchWs"; search := ""; searchParams := [] |}
       else if String.eqb s "http://localhost/fetchWs?url=ws://echo.test/" then
         inr {| pathname := "/fetchWs"; search := "?url=ws://echo.test/";
                searchParams := [("url", "ws://echo.test/")] |}
       else inl (mkExn "TypeError" "Invalid URL");
     fetch url _ :=
       if String.eqb url "https://upstream.test/" then inr upstream_response
       else if String.eqb url "https://odd.test/" then inr odd_response
       else inl (mkExn "TypeError" "error sending request");
     Deno_upgradeWebSocket req _ :=
       if String.eqb
            (byteLowerCase (or_empty (Headers_get (req_headers req) "upgrade")))
            "websocket"
       then inr switching_protocols
       else inl (mkExn "TypeError" "Invalid Header: 'upgrade' header must contain 'websocket'");
     WebSocket_rejects url _ :=
       if startsWith url "ws://" || startsWith url "wss://" then None
       else Some (mkExn "SyntaxError" "Invalid URL");
     Response_RangeError _ :=
       mkExn "RangeError" "The status provided is outside the range [200, 599].";
     Response_TypeError _ :=
       mkExn "TypeError" "Response with null body status cannot have body" |}.

(** A GET without forwarding metadata. *)
Definition bare_get : Request :=
  {| req_method := "GET"; req_url := "http://localhost/fetch";
     req_headers := [("accept", "*/*")]; req_text := inr "" |}.

(** A POST to a reachable target. *)
Definition post_ok : Request :=
  {| req_method := "POST"; req_url := "http://localhost/fetch";
     req_headers := [("X-Url", "https://upstream.test/"); ("x-headers", "{}")];
     req_text := inr "a=1" |}.

(** A GET to an unreachable target. *)
Definition get_unreachable : Request :=
  {| req_method := "GET"; req_url := "http://localhost/fetch";
     req_headers := [("x-url", "https://nowhere.test/"); ("x-headers", "{}")];
     req_text := inr "" |}.

(** A GET to the target that answers with status 600. *)
Definition get_odd : Request :=
  {| req_method := "GET"; req_url := "http://localhost/fetch";
     req_headers := [("x-url", "https://odd.test/"); ("x-headers", "{}")];
     req_text := inr "" |}.

(** A plain GET on the relay path. *)
Definition plain_ws_get : Request :=
  {| req_method := "GET"; req_url := "http://localhost/fetchWs";
     req_headers := []; req_text := inr "" |}.

(** An upgrade request naming its target. *)
Definition upgrade_ok : Request :=
  {| req_method := "GET";
     req_url := "http://localhost/fetchWs?url=ws://echo.test/";
     req_headers := [("Upgrade", "websocket"); ("sec-websocket-protocol", "chat")];
     req_text := inr "" |}.

(** An upgrade request without the [url] parameter. *)
Definition upgrade_no_target : Request :=
  {| req_method := "GET"; req_url := "http://localhost/fetchWs";
     req_headers := [("Upgrade", "websocket")]; req_text := inr "" |}.

(** ** More of the platform's strings and containers *)

(** [o[k]] for an own property. *)
Definition obj_lookup (k : string) (o : JsObject) : option string :=
  snd <$> List.find (fun p => String.eqb k (fst p)) o.

(** The value of the last entry named [k] in an entry list. *)
Definition last_value (k : string) (es : list (string * string)) : option string :=
  obj_lookup k (rev es).

(** Objects keep one property per key. *)
Definition unique_keys (o : JsObject) : Prop := List.NoDup (List.map fst o).

(** Whether the character [c] occurs in [s]. *)
Fixpoint occurs (c : ascii) (s : string) : bool :=
  match s with
  | EmptyString => false
  | String c' s' => Ascii.eqb c' c || occurs c s'
  end.

(** [s.split(sep)] for a one-character separator: the pieces between the
    separators, one piece (the whole string, possibly empty) when there is
    none. *)
Fixpoint split_on (sep : ascii) (s : string) : list string :=
  match s with
  | EmptyString => [EmptyString]
  | String c s' =>
      if Ascii.eqb c sep then EmptyString :: split_on sep s'
      else match split_on sep s' with
           | piece :: pieces => String c piece :: pieces
           | [] => [String c EmptyString]
           end
  end.

(** White space as [trim] sees it in a header value, whose characters are
    single bytes: tab, line feed, vertical tab, form feed, carriage return,
    space and no-break space. *)
Definition is_space (c : ascii) : bool :=
  let n := nat_of_ascii c in
  ((9 <=? n)%nat && (n <=? 13)%nat) || Nat.eqb n 32 || Nat.eqb n 160.

Fixpoint trimStart (s : string) : string :=
  match s with
  | String c s' => if is_space c then trimStart s' else s
  | EmptyString => EmptyString
  end.

Fixpoint trimEnd (s : string) : string :=
  match s with
  | String c s' =>
      match trimEnd s' with
      | EmptyString => if is_space c then EmptyString else String c EmptyString
      | r => String c r
      end
  | EmptyString => EmptyString
  end.

(** [s.trim()] *)
Definition trim (s : string) : string := trimEnd (trimStart s).

(** [s.includes(sub)] *)
Fixpoint includes (s sub : string) : bool :=
  String.prefix sub s ||
  match s with
  | String _ s' => includes s' sub
  | EmptyString => false
  end.

(** [headers.set(name, value)]: the first entry of that name takes the
    value and the other entries of that name go; a new name is appended. *)
Fixpoint Headers_set_from (seen : bool) (name value : string) (h : Headers) : Headers :=
  match h with
  | [] => if seen then [] else [(name, value)]
  | e :: h' =>
      if name_matches name e
      then if seen then Headers_set_from true name value h'
           else (fst e, value) :: Headers_set_from true name value h'
      else e :: Headers_set_from seen name value h'
  end.

Definition Headers_set (h : Headers) (name value : string) : Headers :=
  Headers_set_from false name value h.

(** [Boolean(s)] for a string. *)
Definition truthy (s : string) : bool := negb (String.eqb s "").

(** ** [_util/asserts.ts] *)

(** [assert(expr, msg)]: throws a [DenoStdInternalError] carrying [msg]
    when [expr] is falsy. *)
Definition assert (expr : bool) (msg : string) : Exn + unit :=
  if expr then inr tt else inl (mkExn "DenoStdInternalError" msg).

(** ** [http/cookie.ts]: [getCookies] *)

(** The body of the loop over the pieces of the [Cookie] header. *)
Fixpoint getCookies_loop (c : list string) (out : JsObject) : Exn + JsObject :=
  match c with
  | [] => inr out
  | kv :: c' =>
      match split_on "=" kv with
      | cookieKey :: cookieVal =>
          match assert true "" with
          | inl e => inl e
          | inr _ =>
              let key := trim cookieKey in
              getCookies_loop c' (obj_set key (String.concat "=" cookieVal) out)
          end
      | [] =>
          (* [cookieKey] is [undefined] *)
          match assert false "" with
          | inl e => inl e
          | inr _ => getCookies_loop c' out
          end
      end
  end.

Definition getCookies (headers : Headers) : Exn + JsObject :=
  match Headers_get headers "Cookie" with
  | Some cookie => getCookies_loop (split_on ";" cookie) []
  | None => inr []
  end.

(** The [Cookie] header a client sends for a list of cookies: the pairs
    [name=value] joined by a semicolon and a space. *)
Definition cookie_pair (p : string * string) : string :=
  fst p +:+ "=" +:+ snd p.

Definition cookie_header (pairs : list (string * string)) : string :=
  String.concat "; " (List.map cookie_pair pairs).

(** A cookie that such a header carries unharmed: no semicolon in the name
    or the value, no equals sign and no outer white space in the name. *)
Definition cookie_pair_ok (p : string * string) : Prop :=
  occurs ";" (fst p) = false /\ occurs "=" (fst p) = false /\
  trim (fst p) = fst p /\
  occurs ";" (snd p) = false.

(** ** [http/cookie.ts]: the checks of [toString] *)

Fixpoint all_chars (p : ascii -> bool) (s : string) : bool :=
  match s with
  | String c r => p c && all_chars p r
  | EmptyString => true
  end.

(** The separators the class excludes (parentheses, at sign, angle
    brackets, comma, semicolon, colon, backslash, double quote, square
    brackets, question mark, equals sign, braces), by their codes. *)
Definition separators : list nat :=
  [40; 41; 64; 60; 62; 44; 59; 58; 92; 34; 91; 93; 63; 61; 123; 125].

(** [FIELD_CONTENT_REGEXP.test(s)]: the look-ahead wants every character
    printable, the class wants one character or more, none of them a
    separator or white space. *)
Definition FIELD_CONTENT_char (c : ascii) : bool :=
  let n := nat_of_ascii c in
  ((32 <=? n) && (n <=? 126))%nat &&
  negb (existsb (Nat.eqb n) separators) && negb (is_space c).

Definition FIELD_CONTENT_REGEXP_test (s : string) : bool :=
  negb (String.eqb s "") && all_chars FIELD_CONTENT_char s.

Definition quote : string := String (ascii_of_nat 34) EmptyString.

(** Validate Cookie Name. *)
Definition validateName (name : option string) : Exn + unit :=
  match name with
  | Some n =>
      if truthy n && negb (FIELD_CONTENT_REGEXP_test n)
      then inl (mkExn "TypeError" ("Invalid cookie name: " +:+ quote +:+ n +:+ quote +:+ "."))
      else inr tt
  | None => inr tt
  end.

Definition hex_digit (n : nat) : string :=
  String (nth n ["0"; "1"; "2"; "3"; "4"; "5"; "6"; "7"; "8"; "9";
                 "a"; "b"; "c"; "d"; "e"; "f"]%char "0"%char) EmptyString.

(** [n.toString(16)] for the code of a character of a byte string. *)
Definition toString16 (n : nat) : string :=
  if (n <? 16)%nat then hex_digit n else hex_digit (n / 16) +:+ hex_digit (n mod 16).

Fixpoint validateValue_loop (name value : string) : Exn + unit :=
  match value with
  | EmptyString => inr tt
  | String c rest =>
      let n := nat_of_ascii c in
      if ((n <? 33) || (n =? 34) || (n =? 44) || (n =? 59) || (n =? 92) || (n =? 127))%nat
      then inl (mkExn "Error"
                  ("RFC2616 cookie '" +:+ name +:+ "' cannot contain character '"
                     +:+ String c EmptyString +:+ "'"))
      else if (128 <? n)%nat
      then inl (mkExn "Error"
                  ("RFC2616 cookie '" +:+ name
                     +:+ "' can only have US-ASCII chars as value" +:+ toString16 n))
      else validateValue_loop name rest
  end.

(** Validate Cookie Value. *)
Definition validateValue (name value : option string) : Exn + unit :=
  match value, name with
  | Some value, Some name => validateValue_loop name value
  | _, _ => inr tt
  end.

(** ** [app.ts]: the request handler given to [serve] *)

(** [config.json], which the handler reads. *)
Record Config := mkConfig {
  cfg_key : string;
  requireUnlock : bool;
  blockedDir : string;
  dir : string;
  port : Z
}.

(** The options the handler passes to [serveDir]. *)
Record ServeDirOptions := mkServeDirOptions {
  fsRoot : string;
  showDirListing : option bool;
  showIndex : option bool;
  quiet : option bool
}.

(** What the handler is given besides the runtime: its configuration, the
    service worker prefix it imports, and the file server. *)
Record Site := mkSite {
  config : Config;
  aero_prefix : string;
  serveDir : Request -> ServeDirOptions -> Exn + Response
}.

(** [h.get("content-type")?.includes("text/html")], and the like. *)
Definition header_includes (h : Headers) (name sub : string) : bool :=
  match Headers_get h name with
  | Some v => includes v sub
  | None => false
  end.

Definition with_header (r : Response) (name value : string) : Response :=
  {| status := status r; headers := Headers_set (headers r) name value; body := body r |}.

Section App.
Variable site : Site.
Variable pf : Platform.

(** [key === config.key], for the [key] property of the cookies. *)
Definition unlocked (cookies : JsObject) : bool :=
  match obj_lookup "key" cookies with
  | Some key => String.eqb key (cfg_key (config site))
  | None => false
  end.

Definition serve_handler (req : Request) : M Response :=
  cookies <- lift (getCookies (req_headers req)) ;;
  url <- lift (URL_parse pf (req_url req)) ;;
  let code := startsWith (search url) "?unlock" in
  let usingCrOS := header_includes (req_headers req) "user-agent" "CrOS" in
  let allow :=
    negb (requireUnlock (config site)) || unlocked cookies || code || usingCrOS in
  blocked <-
    (if negb allow
     then
       resp <- lift (serveDir site req
                       {| fsRoot := blockedDir (config site); showDirListing := None;
                          showIndex := Some true; quiet := Some true |}) ;;
       (* Only block html files *)
       ret (if header_includes (headers resp) "content-type" "text/html"
            then Some resp else None)
     else ret None) ;;
  match blocked with
  | Some resp => ret resp
  | None =>
      let path := pathname url in
      if route proxy path then handle pf proxy req
      else if routeWs proxy path then handleWs pf proxy req
      else if startsWith path (aero_prefix site)
      then lift (new_Response pf (init_string "Failed to start the service worker")
                   (Some 404%Z) [])
      else
        resp1 <- lift (serveDir site req
                         {| fsRoot := dir (config site); showDirListing := Some true;
                            showIndex := Some true; quiet := Some true |}) ;;
        ret (if code
             then with_header resp1 "set-cookie" "key=unlock; SameSite=None; Secure"
             else resp1)
  end.

End App.

(** A site for running the handler: unlocking required, a blocked
    directory that answers every request with one HTML page except under
    [/assets] and [/fetch], and a public directory with one page. *)
Definition blocked_page : Response :=
  {| status := 200%Z; headers := [("content-type", "text/html; charset=UTF-8")];
     body := body_stream 1 |}.

Definition not_found_page : Response :=
  {| status := 404%Z; headers := [("content-type", "text/plain;charset=UTF-8")];
     body := body_text "Not Found" |}.

Definition public_page : Response :=
  {| status := 200%Z;
     headers := [("content-type", "text/html; charset=UTF-8"); ("Set-Cookie", "old=1")];
     body := body_stream 2 |}.

Definition scripted_site : Site :=
  {| config := {| cfg_key := "unlock"; requireUnlock := true;
                  blockedDir := "./blocked"; dir := "./site"; port := 8000%Z |};
     aero_prefix := "/go/";
     serveDir req opts :=
       if String.eqb (fsRoot opts) "./blocked"
       then if String.eqb (req_url req) "http://localhost/fetch"
            then inr not_found_page else inr blocked_page
       else inr public_page |}.

(** The runtime of [scripted], with the root URL and its [?unlock] form
    known to the URL parser. *)
Definition site_platform : Platform :=
  {| JSON_parse := JSON_parse scripted;
     URL_parse s :=
       if String.eqb s "http://localhost/?unlock" then
         inr {| pathname := "/"; search := "?unlock"; searchParams := [("unlock", "")] |}
       else URL_parse scripted s;
     fetch := fetch scripted;
     Deno_upgradeWebSocket := Deno_upgradeWebSocket scripted;
     WebSocket_rejects := WebSocket_rejects scripted;
     Response_RangeError := Response_RangeError scripted;
     Response_TypeError := Response_TypeError scripted |}.

Definition unlock_request : Request :=
  {| req_method := "GET"; req_url := "http://localhost/?unlock";
     req_headers := [("accept", "text/html")]; req_text := inr "" |}.

(** ** [encoding/hex.ts]

    A [Uint8Array] is a list of integers between 0 and 255.  Reading past
    the end gives [undefined], which the bit operators take as 0; writing
    past the end does nothing; a stored value is reduced modulo 256. *)

Module Hex.

Definition is_bytes (a : list Z) : Prop :=
  List.Forall (fun b => (0 <= b < 256)%Z) a.

(** [new TextEncoder().encode("0123456789abcdef")] *)
Definition hexTable : list Z :=
  [48; 49; 50; 51; 52; 53; 54; 55; 56; 57; 97; 98; 99; 100; 101; 102]%Z.

(** [ToInt32] of an element read: [undefined] is 0. *)
Definition to_int32 (v : option Z) : Z := default 0%Z v.

(** [a[j] = x] on a [Uint8Array]; [x] may be [undefined], stored as 0. *)
Definition store (a : list Z) (j : nat) (x : option Z) : list Z :=
  <[j := (to_int32 x mod 256)%Z]> a.

Definition errInvalidByte (byte : Z) : Exn :=
  mkExn "TypeError"
    ("Invalid byte '" +:+ String (ascii_of_nat (Z.to_nat byte)) "'").

Definition errLength : Exn := mkExn "RangeError" "Odd length hex string".

(** Converts a hex character into its value. *)
Definition fromHexChar (byte : Z) : Exn + Z :=
  if ((48 <=? byte) && (byte <=? 57))%Z then inr (byte - 48)%Z
  else if ((97 <=? byte) && (byte <=? 102))%Z then inr (byte - 97 + 10)%Z
  else if ((65 <=? byte) && (byte <=? 70))%Z then inr (byte - 65 + 10)%Z
  else inl (errInvalidByte byte).

(** One turn of the loop of [encode]. *)
Definition encode_step (src : list Z) (dst : list Z) (i : nat) : list Z :=
  let v := to_int32 (src !! i) in
  let dst := store dst (i * 2) (hexTable !! Z.to_nat (Z.shiftr v 4)) in
  store dst (i * 2 + 1) (hexTable !! Z.to_nat (Z.land v 15)).

(** [encode(src)]: the loop runs over the length of [dst], twice that of
    [src]. *)
Definition encode (src : list Z) : list Z :=
  let dst := replicate (length src * 2) 0%Z in
  fold_left (encode_step src) (seq 0 (length dst)) dst.

(** One turn of the loop of [decode]; an element that is not there is
    [undefined], which is no hex character. *)
Definition decode_step (src : list Z) (acc : Exn + list Z) (i : nat) : Exn + list Z :=
  match acc with
  | inl e => inl e
  | inr dst =>
      match fromHexChar (to_int32 (src !! (i * 2))) with
      | inl e => inl e
      | inr a =>
          match fromHexChar (to_int32 (src !! (i * 2 + 1))) with
          | inl e => inl e
          | inr b => inr (store dst i (Some (Z.lor (Z.shiftl a 4) b)))
          end
      end
  end.

(** [decode(src)]: [dst] has half the length of [src], rounded down; an odd
    length is reported after the characters have been checked. *)
Definition decode (src : list Z) : Exn + list Z :=
  let dst := replicate (length src / 2) 0%Z in
  match fold_left (decode_step src) (seq 0 (length dst)) (inr dst) with
  | inl e => inl e
  | inr dst =>
      if Nat.eqb (length src mod 2) 1
      then
        match fromHexChar (to_int32 (src !! (length dst * 2))) with
        | inl e => inl e
        | inr _ => inl errLength
        end
      else inr dst
  end.

(** The two digits of a byte, and whether a character is a hex digit. *)
Definition digits (b : Z) : list Z :=
  [to_int32 (hexTable !! Z.to_nat (Z.shiftr b 4));
   to_int32 (hexTable !! Z.to_nat (Z.land b 15))].

Definition is_hex (c : Z) : bool :=
  ((48 <=? c) && (c <=? 57) || (97 <=? c) && (c <=? 102) ||
   (65 <=? c) && (c <=? 70))%Z.

(** An upper-case hex letter made lower-case. *)
Definition lower_digit (c : Z) : Z :=
  if ((65 <=? c) && (c <=? 70))%Z then (c + 32)%Z else c.

End Hex.

(** ** [http/util.ts]: [compareEtag] *)

(** [s.slice(n)] for an index [n] that is not negative. *)
Fixpoint slice (n : nat) (s : string) : string :=
  match n, s with
  | S n', String _ r => slice n' r
  | _, _ => s
  end.

(** Returns true if the etags match; weak etag comparisons are handled. *)
Definition compareEtag (a b : string) : bool :=
  if String.eqb a b then true
  else if startsWith a "W/" && negb (startsWith b "W/") then String.eqb (slice 2 a) b
  else if negb (startsWith a "W/") && startsWith b "W/" then String.eqb a (slice 2 b)
  else false.

(** The tag without the mark of a weak validator. *)
Definition opaque_tag (a : string) : string :=
  if startsWith a "W/" then slice 2 a else a.

(** ** [collections/filter_values.ts], [collections/without_all.ts] *)

(** [Object.keys(o)], [Object.entries(o)]: own properties in insertion
    order (for keys that are not array indices). *)
Definition Object_keys (o : JsObject) : list string := List.map fst o.

Definition filterValues (record : JsObject) (predicate : string -> bool) : JsObject :=
  fold_left (fun ret e => if predicate (snd e) then obj_set (fst e) (snd e) ret else ret)
    record [].

(** [new Set(values).has(it)] compares strings by value. *)
Definition withoutAll (array values : list string) : list string :=
  List.filter (fun it => negb (existsb (String.eqb it) values)) array.

(** The property names every object created by [{}] inherits on Deno,
    whose [Object.prototype] has no [__proto__]. *)
Definition Object_prototype_names : list string :=
  ["constructor"; "__defineGetter__"; "__defineSetter__"; "hasOwnProperty";
   "__lookupGetter__"; "__lookupSetter__"; "isPrototypeOf";
   "propertyIsEnumerable"; "toString"; "valueOf"; "toLocaleString"].

(** [k in o]: own or inherited. *)
Definition obj_in (k : string) (o : JsObject) : bool :=
  existsb (String.eqb k) (Object_keys o) ||
  existsb (String.eqb k) Object_prototype_names.

(** ** [dotenv/mod.ts]: loading a configuration

    The platform's part is a record of oracles: what [Deno.env.get] answers
    for a name before the module sets anything (or the error it throws),
    what [Deno.env.toObject] returns, the error [Deno.env.set] throws for a
    pair it refuses, and what [Deno.readTextFileSync] returns or throws.
    Variables the module sets are kept in the order it sets them; a
    variable it has set answers with the value set. *)

Module Dotenv.

Record Deno := mkDeno {
  env_get : string -> Exn + option string;
  env_toObject : Exn + JsObject;
  env_set : string -> string -> option Exn;
  readTextFileSync : string -> Exn + string
}.

(** What [loadSync] throws: a value thrown below it, or its own
    [MissingEnvVarsError] with the field [missing]. *)
Inductive Error :=
  | Thrown (e : Exn)
  | MissingEnvVarsError (msg : string) (missing : list string).

Definition nl : string := String (ascii_of_nat 10) EmptyString.

Record LoadOptions := mkLoadOptions {
  envPath : option string;
  examplePath : option string;
  defaultsPath : option string;
  export : option bool;
  allowEmptyValues : option bool;
  restrictEnvAccessTo : option (list string)
}.

Section Load.

Variable deno : Deno.

(** [parse(rawDotenv, restrictEnvAccessTo)], the reader of the file format:
    two regular expressions run by the platform's engine.  The functions
    below use only the object it returns. *)
Variable parse : string -> list string -> Exn + JsObject.

(** A guarded env access, that reads only a subset from the [Deno.env]
    object, if [restrictEnvAccessTo] is passed. *)
Definition readEnv_step (acc : Exn + JsObject) (envVarName : string) : Exn + JsObject :=
  match acc with
  | inl e => inl e
  | inr accessedEnvVars =>
      match env_get deno envVarName with
      | inl e => inl e
      | inr (Some v) =>
          if truthy v then inr (obj_set envVarName v accessedEnvVars)
          else inr accessedEnvVars
      | inr None => inr accessedEnvVars
      end
  end.

Definition readEnv (restrict : list string) : Exn + JsObject :=
  match restrict with
  | [] => env_toObject deno
  | _ => fold_left readEnv_step restrict (inr [])
  end.

(** What the restricted read keeps of a variable. *)
Definition kept (k v : string) : Prop :=
  env_get deno k = inr (Some v) /\ v <> "".

Definition missing_message (missing : list string) (allowEmpty : bool) : string :=
  String.concat (nl +:+ nl)
    (["The following variables were defined in the example file but are not present in the environment:"
        +:+ nl +:+ "  " +:+ String.concat ", " missing;
      "Make sure to add them to your env file."] ++
     (if allowEmpty then []
      else ["If you expect any of these variables to be empty, you can set the allowEmptyValues option to true."])).

Definition assertSafe (conf confExample : JsObject) (allowEmpty : bool)
    (restrict : list string) : Error + unit :=
  match readEnv restrict with
  | inl e => inl (Thrown e)
  | inr currentEnv =>
      (* Not all the variables have to be defined in .env, they can be
         supplied externally *)
      let confWithEnv := obj_assign (obj_assign [] currentEnv) conf in
      let missing :=
        withoutAll (Object_keys confExample)
          (Object_keys (if allowEmpty then confWithEnv
                        else filterValues confWithEnv truthy)) in
      if (0 <? length missing)%nat
      then inl (MissingEnvVarsError (missing_message missing allowEmpty) missing)
      else inr tt
  end.

(** [e instanceof Deno.errors.NotFound] *)
Definition is_NotFound (e : Exn) : bool := String.eqb (exn_name e) "NotFound".

Definition parseFileSync (filepath : string) (restrict : list string) : Exn + JsObject :=
  match
    match readTextFileSync deno filepath with
    | inl e => inl e
    | inr raw => parse raw restrict
    end
  with
  | inl e => if is_NotFound e then inr [] else inl e
  | inr conf => inr conf
  end.

(** [for (const key in confDefaults) if (!(key in conf)) conf[key] = confDefaults[key]] *)
Definition fill_defaults (conf confDefaults : JsObject) : JsObject :=
  fold_left (fun conf e => if obj_in (fst e) conf then conf
                           else obj_set (fst e) (snd e) conf)
    confDefaults conf.

(** [Deno.env.get(k)] after the pairs [sets] have been set. *)
Definition env_get_after (sets : list (string * string)) (k : string) : Exn + option string :=
  match last_value k sets with
  | Some v => inr (Some v)
  | None => env_get deno k
  end.

(** The loop that exports [conf]; the state is the list of the pairs set. *)
Fixpoint export_loop (entries : list (string * string)) (sets : list (string * string))
    : list (string * string) * option Exn :=
  match entries with
  | [] => (sets, None)
  | (key, value) :: rest =>
      match env_get_after sets key with
      | inl e => (sets, Some e)
      | inr (Some _) => export_loop rest sets
      | inr None =>
          match env_set deno key value with
          | Some e => (sets, Some e)
          | None => export_loop rest (sets ++ [(key, value)])
          end
      end
  end.

(** [loadSync(options)]: the object it returns or the value it throws,
    beside the variables it has set. *)
Definition loadSync (o : LoadOptions) : list (string * string) * (Error + JsObject) :=
  let envPath := default ".env" (envPath o) in
  let examplePath := default ".env.example" (examplePath o) in
  let defaultsPath := default ".env.defaults" (defaultsPath o) in
  let _export := default false (export o) in
  let allowEmptyValues := default false (allowEmptyValues o) in
  let restrictEnvAccessTo := default [] (restrictEnvAccessTo o) in
  match parseFileSync envPath restrictEnvAccessTo with
  | inl e => ([], inl (Thrown e))
  | inr conf =>
      match
        (if truthy defaultsPath
         then match parseFileSync defaultsPath restrictEnvAccessTo with
              | inl e => inl e
              | inr confDefaults => inr (fill_defaults conf confDefaults)
              end
         else inr conf)
      with
      | inl e => ([], inl (Thrown e))
      | inr conf =>
          match
            (if truthy examplePath
             then match parseFileSync examplePath restrictEnvAccessTo with
                  | inl e => inl (Thrown e)
                  | inr confExample =>
                      assertSafe conf confExample allowEmptyValues restrictEnvAccessTo
                  end
             else inr tt)
          with
          | inl e => ([], inl e)
          | inr _ =>
              if _export
              then match export_loop conf [] with
                   | (sets, Some e) => (sets, inl (Thrown e))
                   | (sets, None) => (sets, inr conf)
                   end
              else ([], inr conf)
          end
      end
  end.

Record ConfigOptions := mkConfigOptions {
  cfg_path : option string;
  cfg_export : option bool;
  cfg_safe : option bool;
  cfg_example : option string;
  cfg_allowEmptyValues : option bool;
  cfg_defaults : option string;
  cfg_restrictEnvAccessTo : option (list string)
}.

(** [configSync(options)]: the example file is named only with [safe]. *)
Definition configSync (options : ConfigOptions) : list (string * string) * (Error + JsObject) :=
  loadSync {| restrictEnvAccessTo := cfg_restrictEnvAccessTo options;
              envPath := cfg_path options;
              examplePath := if default false (cfg_safe options)
                             then cfg_example options else None;
              defaultsPath := cfg_defaults options;
              export := cfg_export options;
              allowEmptyValues := cfg_allowEmptyValues options |}.

End Load.

(** A platform with two variables and three files, and a reader that knows
    their contents. *)
Definition scripted_deno : Deno :=
  {| env_get := fun k => inr (obj_lookup k [("HOME", "/root"); ("EMPTY", "")]);
     env_toObject := inr [("HOME", "/root"); ("EMPTY", "")];
     env_set := fun _ _ => None;
     readTextFileSync := fun path =>
       if String.eqb path ".env" then inr "env"
       else if String.eqb path ".env.defaults" then inr "defaults"
       else if String.eqb path ".env.example" then inr "example"
       else inl (mkExn "NotFound" "No such file or directory") |}.

Definition scripted_parse (raw : string) (restrict : list string) : Exn + JsObject :=
  if String.eqb raw "env" then inr [("PORT", "8080"); ("HOME", "/srv")]
  else if String.eqb raw "defaults" then inr [("PORT", "80"); ("HOST", "localhost"); ("toString", "x")]
  else if String.eqb raw "example" then inr [("PORT", ""); ("HOME", ""); ("TOKEN", "")]
  else inr [].

End Dotenv.

(** Whether the variable [k] of the example file counts as supplied: the
    configuration comes before the environment read, also with an empty
    value. *)
Definition supplied (conf currentEnv : JsObject) (allowEmpty : bool) (k : string) : bool :=
  match
    match obj_lookup k conf with
    | Some v => Some v
    | None => obj_lookup k currentEnv
    end
  with
  | Some v => allowEmpty || truthy v
  | None => false
  end.

(** ** [encoding/base64url.ts]: the conversions between the alphabets

    Strings are lists of characters here; [s.replace(/c/g, d)] maps over
    them. *)

Module Base64url.

Definition replace_all (a b : ascii) (s : list ascii) : list ascii :=
  List.map (fun c => if Ascii.eqb c a then b else c) s.

Definition remove_all (a : ascii) (s : list ascii) : list ascii :=
  List.filter (fun c => negb (Ascii.eqb c a)) s.

Definition alnum (c : ascii) : bool :=
  let n := nat_of_ascii c in
  ((48 <=? n) && (n <=? 57) || (65 <=? n) && (n <=? 90) ||
   (97 <=? n) && (n <=? 122))%nat.

(** The class [[-_A-Z0-9]] under the flag [i]. *)
Definition url_class (c : ascii) : bool :=
  alnum c || Ascii.eqb c "-" || Ascii.eqb c "_".

Fixpoint skip (p : ascii -> bool) (s : list ascii) : list ascii :=
  match s with
  | c :: r => if p c then skip p r else s
  | [] => []
  end.

Definition padding (s : list ascii) : bool :=
  match s with
  | [] => true
  | [c] => Ascii.eqb c "="
  | [c; d] => Ascii.eqb c "=" && Ascii.eqb d "="
  | _ => false
  end.

(** [/^[-_A-Z0-9]*?={0,2}$/i.test(s)]: characters of the class, then at
    most two [=], then the end. *)
Definition RE_test (s : list ascii) : bool := padding (skip url_class s).

(** Some variants allow or require omitting the padding [=] signs. *)
Definition addPaddingToBase64url (base64url : list ascii) : Exn + list ascii :=
  if (length base64url mod 4 =? 2)%nat then inr (base64url ++ ["="; "="]%char)
  else if (length base64url mod 4 =? 3)%nat then inr (base64url ++ ["="]%char)
  else if (length base64url mod 4 =? 1)%nat
       then inl (mkExn "TypeError" "Illegal base64url string!")
  else inr base64url.

Definition convertBase64urlToBase64 (b64url : list ascii) : Exn + list ascii :=
  if negb (RE_test b64url)
  then inl (mkExn "TypeError" "Failed to decode base64url: invalid character")
  else match addPaddingToBase64url b64url with
       | inl e => inl e
       | inr s => inr (replace_all "_" "/" (replace_all "-" "+" s))
       end.

Definition convertBase64ToBase64url (b64 : list ascii) : list ascii :=
  replace_all "/" "_" (replace_all "+" "-" (remove_all "=" b64)).

(** The strings of the standard alphabet, padded to a multiple of four. *)
Definition std_class (c : ascii) : bool :=
  alnum c || Ascii.eqb c "+" || Ascii.eqb c "/".

Definition is_base64 (s : list ascii) : bool :=
  (length s mod 4 =? 0)%nat && padding (skip std_class s).

End Base64url.

(** The heap after two accepted upgrades: sockets 0 and 1 form the first
    session, sockets 2 and 3 the second. *)
Definition two_sessions : World :=
  fst (handleWs scripted proxy upgrade_ok
         (fst (handleWs scripted proxy upgrade_ok empty_world))).

(** The world a run of events leads to ([w] itself when the run cannot
    occur). *)
Definition after (evs : list SockEvent) (w : World) : World :=
  default w (run evs w).

(** * Properties *)

(** ** RouteMatcher *)

Lemma route_iff (this : Proxy) (path : string) :
  route this path = true <-> path = prefix this.
Proof. unfold route. apply String.eqb_eq. Qed.

Lemma prefix_app (p s : string) :
  String.prefix p s = true <-> exists rest, s = p +:+ rest.
Proof.
  revert s. induction p as [|a p IH]; intros s; simpl.
  - split; [intros _; exists s; reflexivity | destruct s; reflexivity].
  - destruct s as [|b s]; simpl.
    + split; [discriminate | intros [r Hr]; discriminate].
    + destruct (ascii_dec a b) as [->|Hne].
      * rewrite IH. split; intros [r Hr]; exists r; [by rewrite Hr | by injection Hr].
      * split; [discriminate | intros [r Hr]; injection Hr; congruence].
Qed.

Lemma routeWs_iff (this : Proxy) (path : string) :
  routeWs this path = true <-> exists rest, path = wsPrefix this +:+ rest.
Proof. unfold routeWs, startsWith. apply prefix_app. Qed.

(** C4: with the prefixes [/fetch] and [/fetchWs] of the application,
    [route] accepts [/fetch] and rejects [/fetch/x] (exact match), and
    [routeWs] accepts both [/fetchWs] and [/fetchWs/anything] (prefix
    match). *)
Theorem route_examples :
  route proxy "/fetch" = true /\
  route proxy "/fetch/x" = false /\
  routeWs proxy "/fetchWs" = true /\
  routeWs proxy "/fetchWs/anything" = true /\
  (forall path, route proxy path = true <-> path = "/fetch") /\
  (forall path, routeWs proxy path = true <-> exists rest, path = "/fetchWs" +:+ rest).
Proof.
  do 4 (split; [reflexivity|]).
  split; intros path; [apply (route_iff proxy) | apply (routeWs_iff proxy)].
Qed.

(** C5, as stated, fails: two distinct prefixes, the relay prefix being a
    prefix of the forward prefix, and a path on which both predicates
    hold. *)
Lemma routes_overlap :
  ~ (forall (fw ws : string), fw <> ws ->
       forall path, ~ (route (new_Proxy fw ws None) path = true /\
                       routeWs (new_Proxy fw ws None) path = true)).
Proof.
  intros H. apply (H "/fetchWs/x" "/fetchWs" ltac:(discriminate) "/fetchWs/x").
  split; reflexivity.
Qed.

(** C5, amended: when the relay prefix is not a prefix of the forward
    prefix, no path satisfies both [route] and [routeWs]. *)
Theorem routes_exclusive (this : Proxy) :
  startsWith (prefix this) (wsPrefix this) = false ->
  forall path, ~ (route this path = true /\ routeWs this path = true).
Proof.
  intros Hnp path [Hr Hw]. apply route_iff in Hr. subst path.
  unfold routeWs in Hw. congruence.
Qed.

(** The condition is the weakest one: when the relay prefix is a prefix of
    the forward prefix, the forward prefix itself is a path on which both
    predicates hold. *)
Lemma routes_overlap_on_prefix (this : Proxy) :
  startsWith (prefix this) (wsPrefix this) = true ->
  route this (prefix this) = true /\ routeWs this (prefix this) = true.
Proof.
  intros H. split; [apply route_iff; reflexivity | exact H].
Qed.

Lemma routes_exclusive_witness :
  startsWith (prefix proxy) (wsPrefix proxy) = false /\
  forall path, ~ (route proxy path = true /\ routeWs proxy path = true).
Proof. split; [reflexivity | apply (routes_exclusive proxy); reflexivity]. Defined.

(** ** Header names and objects *)

Lemma byteLowerCase_ascii_idem (c : ascii) :
  byteLowerCase_ascii (byteLowerCase_ascii c) = byteLowerCase_ascii c.
Proof. destruct c as [[] [] [] [] [] [] [] []]; reflexivity. Qed.

Lemma byteLowerCase_idem (s : string) :
  byteLowerCase (byteLowerCase s) = byteLowerCase s.
Proof.
  induction s as [|c s IH]; simpl; [reflexivity|].
  by rewrite byteLowerCase_ascii_idem, IH.
Qed.

Section Keys.
Variable P : string -> Prop.

Lemma combine_entry_keys n v es :
  P n -> keys P es -> keys P (combine_entry n v es).
Proof.
  intros Hn. induction 1 as [|[n' v'] es Hx Hes IH]; simpl.
  - repeat constructor. exact Hn.
  - destruct (String.eqb n n'); constructor; auto.
Qed.

Lemma insert_entry_keys e es :
  P (fst e) -> keys P es -> keys P (insert_entry e es).
Proof.
  intros He. induction 1 as [|e' es Hx Hes IH]; simpl.
  - repeat constructor. exact He.
  - destruct (String.ltb (fst e) (fst e')); repeat constructor; auto.
Qed.

Lemma sort_entries_keys es : keys P es -> keys P (sort_entries es).
Proof.
  unfold sort_entries. intros H.
  assert (Hacc : keys P []) by constructor.
  revert Hacc. generalize (@nil (string * string)).
  induction H as [|e es He Hes IH]; intros acc Hacc; simpl; [exact Hacc|].
  apply IH. by apply insert_entry_keys.
Qed.

Lemma obj_set_keys k v o : P k -> keys P o -> keys P (obj_set k v o).
Proof.
  intros Hk. induction 1 as [|[k' v'] o Hx Ho IH]; simpl.
  - repeat constructor. exact Hk.
  - destruct (String.eqb k k'); constructor; auto.
Qed.

Lemma obj_assign_keys t src : keys P t -> keys P src -> keys P (obj_assign t src).
Proof.
  unfold obj_assign. intros Ht Hs. revert t Ht.
  induction Hs as [|e src He Hs IH]; intros t Ht; simpl; [exact Ht|].
  apply IH. by apply obj_set_keys.
Qed.

Lemma obj_delete_keys k o : keys P o -> keys P (obj_delete k o).
Proof.
  induction 1 as [|e o He Ho IH]; simpl; [constructor|].
  destruct (negb (String.eqb k (fst e))); [constructor|]; auto.
Qed.

End Keys.

Lemma combine_headers_lower h : keys lower (combine_headers h).
Proof.
  unfold combine_headers.
  set (f := fun (es : list (string * string)) (e : string * string) => _).
  assert (G : forall acc, keys lower acc -> keys lower (fold_left f h acc)).
  { induction h as [|e h IH]; intros acc Hacc; simpl; [exact Hacc|].
    apply IH. unfold f.
    destruct (String.eqb (byteLowerCase (fst e)) "set-cookie").
    - apply Forall_app. split; [exact Hacc|].
      repeat constructor. apply byteLowerCase_idem.
    - apply combine_entry_keys; [apply byteLowerCase_idem | exact Hacc]. }
  apply G. constructor.
Qed.

(** [entries()] yields lower-cased names only. *)
Lemma Headers_entries_lower h : keys lower (Headers_entries h).
Proof. apply sort_entries_keys, combine_headers_lower. Qed.

Lemma Object_fromEntries_lower es : keys lower es -> keys lower (Object_fromEntries es).
Proof. apply obj_assign_keys. constructor. Qed.

(** After [delete o[k]] the object has no property [k]. *)
Lemma obj_delete_absent k o : keys (fun n => n <> k) (obj_delete k o).
Proof.
  induction o as [|e o IH]; simpl; [constructor|].
  destruct (String.eqb k (fst e)) eqn:E; simpl; [exact IH|].
  constructor; [|exact IH]. apply String.eqb_neq in E. congruence.
Qed.

Lemma keys_and P Q es : keys P es -> keys Q es -> keys (fun n => P n /\ Q n) es.
Proof. induction 1; inversion 1; subst; constructor; auto. by apply IHForall. Qed.

(** Spreading an object whose keys all differ from [k] after the property
    [k] leaves that property first and untouched. *)
Lemma obj_assign_head k v t src :
  keys (fun n => n <> k) src ->
  exists rest, obj_assign ((k, v) :: t) src = (k, v) :: rest /\
               (forall Q, keys Q t -> keys Q src -> keys Q rest).
Proof.
  unfold obj_assign. intros Hs. revert t.
  induction Hs as [|[k' v'] src Hk Hs IH]; intros t; simpl.
  - exists t. auto.
  - simpl in Hk. destruct (String.eqb k' k) eqn:E.
    + apply String.eqb_eq in E. congruence.
    + destruct (IH (obj_set k' v' t)) as [rest [Hr Hq]].
      exists rest. split; [exact Hr|].
      intros Q Ht Hsrc. inversion Hsrc; subst.
      apply Hq; [|assumption]. by apply obj_set_keys.
Qed.

Lemma Headers_of_object_id (o : JsObject) : Headers_of_object o = o.
Proof.
  unfold Headers_of_object.
  assert (G : forall acc, fold_left (fun h p => h ++ [p]) o acc = acc ++ o).
  { induction o as [|e o IH]; intros acc; simpl; [by rewrite app_nil_r|].
    rewrite IH, <- app_assoc. reflexivity. }
  apply G.
Qed.

(** A lower-case key other than [name] does not match the lower-case
    [name], whatever the case of the comparison. *)
Lemma name_matches_other name es :
  lower name ->
  keys (fun n => lower n /\ n <> name) es ->
  List.filter (name_matches name) es = [] /\ existsb (name_matches name) es = false.
Proof.
  intros Hn. induction 1 as [|e es [Hl Hne] Hes [IH1 IH2]]; simpl; [auto|].
  assert (E : name_matches name e = false).
  { unfold name_matches. rewrite Hl, Hn. by apply String.eqb_neq. }
  rewrite E. simpl. auto.
Qed.

(** The header set [handle] gives its response, for upstream headers [h]:
    no [age], no [expires], and [cache-control] is the forced value. *)
Lemma sanitized_headers (h : Headers) :
  let respHeaders :=
    obj_delete "expires" (obj_delete "cache-control" (obj_delete "age"
      (Object_fromEntries (Headers_entries h)))) in
  let hs := Headers_of_object (obj_assign [("cache-control", "no-cache")] respHeaders) in
  Headers_has hs "age" = false /\
  Headers_has hs "expires" = false /\
  Headers_get hs "cache-control" = Some "no-cache".
Proof.
  intros respHeaders hs.
  assert (Hlow : keys lower respHeaders).
  { do 3 apply obj_delete_keys. apply Object_fromEntries_lower, Headers_entries_lower. }
  assert (Hage : keys (fun n => n <> "age") respHeaders).
  { do 2 apply obj_delete_keys. apply obj_delete_absent. }
  assert (Hcc : keys (fun n => n <> "cache-control") respHeaders).
  { apply obj_delete_keys. apply obj_delete_absent. }
  assert (Hexp : keys (fun n => n <> "expires") respHeaders)
    by apply obj_delete_absent.
  destruct (obj_assign_head "cache-control" "no-cache" [] respHeaders Hcc)
    as [rest [Hr Hq]].
  subst hs. rewrite Headers_of_object_id, Hr.
  assert (K : forall name, lower name -> keys (fun n => n <> name) respHeaders ->
              List.filter (name_matches name) rest = [] /\
              existsb (name_matches name) rest = false).
  { intros name Hn Hk. apply name_matches_other; [exact Hn|].
    apply Hq; [constructor|]. by apply keys_and. }
  unfold Headers_has, Headers_get, Headers_values. simpl.
  destruct (K "age" eq_refl Hage) as [_ ->].
  destruct (K "expires" eq_refl Hexp) as [_ ->].
  destruct (K "cache-control" eq_refl Hcc) as [-> _].
  repeat split.
Qed.

(** ** The forward handler *)

Lemma effects_of_app w t :
  effects_of w {| sockets := sockets w; trace := trace w ++ t |} = t.
Proof. unfold effects_of. simpl. apply drop_app_length. Qed.

Lemma effects_of_same w : effects_of w w = [].
Proof. unfold effects_of. apply drop_all. Qed.

Ltac unfold_M :=
  unfold try_catch, try_else, call_fetch, bind, lift, when, emit, ret, throw in *.

(** The constructor takes the status 500 with a string body, as the
    [catch] clause of [handle] gives them. *)
Lemma new_Response_500 pf m :
  new_Response pf (init_string m) (Some 500%Z) [] =
    inr {| status := 500%Z;
           headers := [("content-type", "text/plain;charset=UTF-8")];
           body := body_text m |}.
Proof. reflexivity. Qed.

(** What a response the constructor returns holds. *)
Lemma new_Response_inr pf bi st hs r :
  new_Response pf bi st hs = inr r ->
  r = Response_of bi (default 200%Z st) hs /\
  status_in_range (default 200%Z st) = true /\
  has_body bi && null_body_status (default 200%Z st) = false.
Proof.
  unfold new_Response. cbv zeta.
  destruct (status_in_range (default 200%Z st)); cbn [negb]; [|discriminate].
  destruct (has_body bi && null_body_status (default 200%Z st)); [discriminate|].
  intros [= <-]. auto.
Qed.

Lemma new_Response_body pf b st hs r :
  new_Response pf (init_body b) (Some st) hs = inr r ->
  status r = st /\ body r = b /\ headers r = Headers_of_object hs.
Proof.
  intros H. apply new_Response_inr in H. destruct H as (-> & _ & _). auto.
Qed.

Lemma status_in_range_spec s :
  (200 <= s <= 599)%Z -> status_in_range s = true.
Proof.
  intros [H1 H2]. unfold status_in_range.
  apply Z.leb_le in H1, H2. by rewrite H1, H2.
Qed.

(** The constructor takes a status from 200 to 599 with the body of a
    response, unless it is the body of a response that has none. *)
Lemma new_Response_accepts pf b s hs :
  (200 <= s <= 599)%Z ->
  (null_body_status s = true -> b = body_null) ->
  new_Response pf (init_body b) (Some s) hs = inr (Response_of (init_body b) s hs).
Proof.
  intros Hs Hb. unfold new_Response. cbv zeta.
  change (default 200%Z (Some s)) with s.
  rewrite (status_in_range_spec s Hs). cbn [negb].
  destruct (null_body_status s).
  - by rewrite (Hb eq_refl).
  - by rewrite andb_false_r.
Qed.

(** Case analysis on the platform answers [handle] depends on, in the order
    it asks for them. *)
Ltac case_fetch :=
  match goal with
  | |- context [fetch ?p ?u ?o] =>
      destruct (fetch p u o) as [?e|?up] eqn:?EF; simpl
  end;
  [ rewrite ?new_Response_500; simpl
  | match goal with
    | |- context [new_Response ?p (init_body ?b) ?st ?hs] =>
        destruct (new_Response p (init_body b) st hs) as [?refused|?made] eqn:?ER; simpl
    end;
    rewrite ?new_Response_500; simpl ].

Ltac handle_cases :=
  unfold handle; unfold_M; simpl;
  match goal with
  | |- context [JSON_parse ?p ?s] =>
      destruct (JSON_parse p s) as [?e|?hdrs] eqn:?EJ; simpl
  end;
  [| match goal with
     | |- context [debug ?t] => destruct (debug t); simpl
     end;
     match goal with
     | |- context [String.eqb (req_method ?r) "POST"] =>
         destruct (String.eqb (req_method r) "POST") eqn:?EP; simpl;
         [destruct (req_text r) as [?e|?b] eqn:?ET; simpl;
          [rewrite ?new_Response_500; simpl | case_fetch]
         | case_fetch]
     end].

Ltac normalize_trace :=
  rewrite <- ?app_assoc; rewrite ?effects_of_app, ?effects_of_same; simpl.

(** C1 on the code: [JSON.parse] runs before the [try] block, so when the
    [x-headers] header is absent (on any conforming platform) or holds a
    text that [JSON.parse] rejects with [e], [handle] completes abruptly:
    the promise is rejected with the parse error, no response is built and
    no outbound call is made. *)
Theorem handle_parse_error_escapes (pf : Platform) (this : Proxy) (req : Request) (w : World) :
  Conforming pf ->
  (Headers_get (req_headers req) "x-headers" = None \/
   exists e, JSON_parse pf (or_empty (Headers_get (req_headers req) "x-headers")) = inl e) ->
  exists e,
    JSON_parse pf (or_empty (Headers_get (req_headers req) "x-headers")) = inl e /\
    handle pf this req w = (w, Threw e).
Proof.
  intros [[e0 He0] _] Hbad.
  assert (He : exists e, JSON_parse pf (or_empty (Headers_get (req_headers req) "x-headers")) = inl e).
  { destruct Hbad as [-> | H]; [by exists e0 | exact H]. }
  destruct He as [e He]. exists e. split; [exact He|].
  unfold handle. unfold_M. rewrite He. reflexivity.
Qed.

(** C2: when the outbound call that [handle] makes is rejected with [err],
    [handle] returns (does not throw) the response of its [catch] clause,
    status 500 with [err.message] as body, after exactly one [fetch] call;
    and any response [handle] returns is either that of the [catch] clause
    or the relayed upstream response. *)
Theorem forward_failure (pf : Platform) (this : Proxy) (req : Request) (w w' : World)
    (c : Completion Response) :
  handle pf this req w = (w', c) ->
  (forall url opts err,
      In (url, opts) (fetch_calls (effects_of w w')) ->
      fetch pf url opts = inl err ->
      exists r,
        c = Returned r /\
        new_Response pf (init_string (message err)) (Some 500%Z) [] = inr r /\
        status r = 500%Z /\ body r = body_text (message err) /\
        fetch_calls (effects_of w w') = [(url, opts)]) /\
  (forall r, c = Returned r ->
      (exists err, new_Response pf (init_string (message err)) (Some 500%Z) [] = inr r) \/
      (exists url opts up,
          fetch_calls (effects_of w w') = [(url, opts)] /\
          fetch pf url opts = inr up /\
          status r = status up /\ body r = body up)).
Proof.
  intros H. revert H. handle_cases.
  all: intros H; injection H as <- <-; normalize_trace.
  all: split;
    [ intros url opts err Hin Hf;
      repeat match goal with
             | H : _ \/ False |- _ => destruct H as [H | []]
             | H : False |- _ => destruct H
             | H : (_, _) = (_, _) |- _ => injection H as <- <-
             end;
      try congruence
    | intros r Hr; try discriminate; injection Hr as <- ].
  all: try (match goal with
            | E : ?f = inl ?e, F : ?f = inl ?err |- _ =>
                assert (e = err) by congruence; subst err
            end;
            eexists; repeat split).
  all: try (left; eexists; apply new_Response_500).
  all: right; do 3 eexists; (split; [reflexivity | split; [eassumption|]]).
  all: apply new_Response_body in ER; tauto.
Qed.

(** C3, as stated, fails: the upstream of [get_odd] answers with status
    600, which the [Response] constructor refuses inside the [try]; the
    outbound call has succeeded and [handle] returns the response of its
    [catch] clause, status 500. *)
Lemma forward_success_refuted :
  ~ (forall (pf : Platform) (this : Proxy) (req : Request) (w w' : World)
       (c : Completion Response) (url : string) (opts : Opts) (up : Response),
       handle pf this req w = (w', c) ->
       In (url, opts) (fetch_calls (effects_of w w')) ->
       fetch pf url opts = inr up ->
       exists r, c = Returned r /\ status r = status up /\
         Headers_has (headers r) "age" = false /\
         Headers_has (headers r) "expires" = false /\
         Headers_get (headers r) "cache-control" = Some "no-cache").
Proof.
  intros H.
  destruct (H scripted proxy get_odd empty_world
              (fst (handle scripted proxy get_odd empty_world))
              (snd (handle scripted proxy get_odd empty_world))
              "https://odd.test/"
              {| opts_method := "GET"; opts_headers := JObject []; opts_body := None |}
              odd_response)
    as (r & Hr & Hs & _).
  - reflexivity.
  - vm_compute. left. reflexivity.
  - reflexivity.
  - vm_compute in Hr. injection Hr as <-. discriminate Hs.
Qed.

(** C3, amended: when the outbound call that [handle] makes succeeds with
    the upstream response [up] and the status of [up] is one the
    [Response] constructor takes (200 to 599, with no body on a null body
    status), [handle] returns a response with the status (and the body) of
    [up], whose headers have neither [age] nor [expires] under any
    capitalisation, and whose [cache-control] is [no-cache].  For a status
    the constructor refuses, [handle] returns the response of its [catch]
    clause: status 500, the constructor's message as body. *)
Theorem forward_success (pf : Platform) (this : Proxy) (req : Request) (w w' : World)
    (c : Completion Response) (url : string) (opts : Opts) (up : Response) :
  handle pf this req w = (w', c) ->
  In (url, opts) (fetch_calls (effects_of w w')) ->
  fetch pf url opts = inr up ->
  ((200 <= status up <= 599)%Z ->
   (null_body_status (status up) = true -> body up = body_null) ->
   exists r, c = Returned r /\ status r = status up /\ body r = body up /\
     Headers_has (headers r) "age" = false /\
     Headers_has (headers r) "expires" = false /\
     Headers_get (headers r) "cache-control" = Some "no-cache") /\
  (status_in_range (status up) = false ->
   exists r, c = Returned r /\ status r = 500%Z /\
     body r = body_text (message (Response_RangeError pf (status up)))).
Proof.
  intros H Hin Hf. revert H Hin. handle_cases.
  all: intros H; injection H as <- <-; normalize_trace.
  all: intros Hin;
    repeat match goal with
           | H : _ \/ False |- _ => destruct H as [H | []]
           | H : False |- _ => destruct H
           | H : (_, _) = (_, _) |- _ => injection H as <- <-
           end;
    try congruence.
  all: match goal with
       | E : fetch _ _ _ = inr ?u |- _ => rewrite E in Hf; injection Hf as <-
       end.
  all: split;
    [ intros Hs Hb; rewrite (new_Response_accepts _ _ _ _ Hs Hb) in ER;
      first [ discriminate ER
            | injection ER as <-; eexists; split; [reflexivity|];
              split; [reflexivity|]; split; [reflexivity|];
              apply (sanitized_headers (headers up0)) ]
    | intros Hr; unfold new_Response in ER; cbv zeta in ER;
      change (default 200%Z (Some (status up0))) with (status up0) in ER;
      rewrite Hr in ER; cbn [negb] in ER;
      first [ discriminate ER
            | injection ER as <-; eexists; repeat split ] ].
Qed.

(** C6: every outbound call [handle] makes carries the method of the
    inbound request; its body is the text read from the inbound request
    when the method is [POST] and is absent for any other method; and the
    call is made whenever the metadata parses and, for a [POST], the body
    can be read. *)
Theorem outbound_request (pf : Platform) (this : Proxy) (req : Request) (w w' : World)
    (c : Completion Response) :
  handle pf this req w = (w', c) ->
  (forall url opts, In (url, opts) (fetch_calls (effects_of w w')) ->
      url = or_empty (Headers_get (req_headers req) "x-url") /\
      opts_method opts = req_method req /\
      (req_method req = "POST" ->
         exists b, req_text req = inr b /\ opts_body opts = Some b) /\
      (req_method req <> "POST" -> opts_body opts = None)) /\
  (forall hdrs,
      JSON_parse pf (or_empty (Headers_get (req_headers req) "x-headers")) = inr hdrs ->
      (req_method req = "POST" -> exists b, req_text req = inr b) ->
      exists opts,
        fetch_calls (effects_of w w') =
          [(or_empty (Headers_get (req_headers req) "x-url"), opts)] /\
        opts_headers opts = hdrs).
Proof.
  intros H. revert H. handle_cases.
  all: intros H; injection H as <- <-; normalize_trace.
  all: match goal with
       | E : String.eqb _ _ = true |- _ => apply String.eqb_eq in E
       | E : String.eqb _ _ = false |- _ => apply String.eqb_neq in E
       | _ => idtac
       end.
  all: split;
    [ intros url opts Hin;
      repeat match goal with
             | H : _ \/ False |- _ => destruct H as [H | []]
             | H : False |- _ => destruct H
             | H : (_, _) = (_, _) |- _ => injection H as <- <-
             end;
      simpl; repeat split; try congruence; try (intros _; eauto)
    | intros hdrs' Hp Ht; try congruence ].
  all: try (destruct (Ht EP) as [b' Hb']; congruence).
  all: eexists; split; [reflexivity | simpl; congruence].
Qed.

Lemma handle_parse_error_escapes_witness :
  exists e,
    JSON_parse scripted (or_empty (Headers_get (req_headers bare_get) "x-headers")) = inl e /\
    handle scripted proxy bare_get empty_world = (empty_world, Threw e).
Proof.
  apply (handle_parse_error_escapes scripted proxy bare_get empty_world).
  - split; [eexists; reflexivity | intros proto; eexists; reflexivity].
  - left. reflexivity.
Defined.

Lemma forward_failure_witness :
  exists r,
    snd (handle scripted proxy get_unreachable empty_world) = Returned r /\
    new_Response scripted (init_string "error sending request") (Some 500%Z) [] = inr r /\
    status r = 500%Z /\ body r = body_text "error sending request" /\
    fetch_calls (effects_of empty_world
                   (fst (handle scripted proxy get_unreachable empty_world))) =
      [("https://nowhere.test/",
        {| opts_method := "GET"; opts_headers := JObject []; opts_body := None |})].
Proof.
  refine (proj1 (forward_failure scripted proxy get_unreachable empty_world
                   (fst (handle scripted proxy get_unreachable empty_world))
                   (snd (handle scripted proxy get_unreachable empty_world))
                   _)
            "https://nowhere.test/"
            {| opts_method := "GET"; opts_headers := JObject []; opts_body := None |}
            (mkExn "TypeError" "error sending request") _ _).
  - reflexivity.
  - vm_compute. left. reflexivity.
  - reflexivity.
Defined.

Lemma forward_success_witness :
  exists r,
    snd (handle scripted proxy post_ok empty_world) = Returned r /\
    status r = 203%Z /\ body r = body_stream 7 /\
    Headers_has (headers r) "age" = false /\
    Headers_has (headers r) "expires" = false /\
    Headers_get (headers r) "cache-control" = Some "no-cache".
Proof.
  refine (proj1 (forward_success scripted proxy post_ok empty_world
                   (fst (handle scripted proxy post_ok empty_world))
                   (snd (handle scripted proxy post_ok empty_world))
                   "https://upstream.test/"
                   {| opts_method := "POST"; opts_headers := JObject [];
                      opts_body := Some "a=1" |}
                   upstream_response _ _ _) _ _).
  - reflexivity.
  - vm_compute. left. reflexivity.
  - reflexivity.
  - simpl. lia.
  - vm_compute. discriminate.
Defined.

Lemma outbound_request_witness :
  exists opts,
    fetch_calls (effects_of empty_world (fst (handle scripted proxy post_ok empty_world))) =
      [(or_empty (Headers_get (req_headers post_ok) "x-url"), opts)] /\
    opts_headers opts = JObject [].
Proof.
  exact (proj2 (outbound_request scripted proxy post_ok empty_world
                  (fst (handle scripted proxy post_ok empty_world))
                  (snd (handle scripted proxy post_ok empty_world))
                  eq_refl)
           (JObject []) eq_refl
           (fun _ => ex_intro _ "a=1" eq_refl)).
Defined.

(** ** The relay handler *)

Ltac handleWs_start :=
  unfold handleWs, upgradeWebSocket, new_WebSocket; unfold_M; simpl.

(** C7: when the runtime refuses the upgrade, [handleWs] returns a plain
    response (status 200, no [upgrade] header) whose body is the text
    [Not a WS connection]; it throws nothing, creates no socket and leaves
    the world as it was. *)
Theorem relay_rejects_non_upgrade (pf : Platform) (this : Proxy) (req : Request)
    (w : World) (e : Exn) :
  Deno_upgradeWebSocket pf req
    (or_empty (Headers_get (req_headers req) "sec-websocket-protocol")) = inl e ->
  exists r,
    handleWs pf this req w = (w, Returned r) /\
    body r = body_text "Not a WS connection" /\
    status r = 200%Z /\ Headers_has (headers r) "upgrade" = false.
Proof.
  intros Hup. eexists. split.
  - handleWs_start. rewrite Hup. reflexivity.
  - repeat split.
Qed.

Lemma relay_rejects_non_upgrade_witness :
  exists r,
    handleWs scripted proxy plain_ws_get empty_world = (empty_world, Returned r) /\
    body r = body_text "Not a WS connection" /\
    status r = 200%Z /\ Headers_has (headers r) "upgrade" = false.
Proof.
  apply (relay_rejects_non_upgrade scripted proxy plain_ws_get empty_world
           (mkExn "TypeError" "Invalid Header: 'upgrade' header must contain 'websocket'")).
  reflexivity.
Defined.

(** C10: for a valid upgrade request whose URL has no [url] parameter, the
    target is the empty string, which the [WebSocket] constructor rejects;
    the constructor runs outside any [try], so [handleWs] completes
    abruptly with that error, and so does the routing code that awaits
    it: no response is returned. *)
Theorem relay_missing_target_escapes (pf : Platform) (this : Proxy) (req : Request)
    (w : World) (resp : Response) (u : URL) :
  Conforming pf ->
  Deno_upgradeWebSocket pf req
    (or_empty (Headers_get (req_headers req) "sec-websocket-protocol")) = inr resp ->
  URL_parse pf (req_url req) = inr u ->
  searchParams_get u "url" = None ->
  exists e w',
    WebSocket_rejects pf (or_empty (searchParams_get u "url"))
      (or_empty (Headers_get (req_headers req) "sec-websocket-protocol")) = Some e /\
    or_empty (searchParams_get u "url") = "" /\
    handleWs pf this req w = (w', Threw e) /\
    (route this (pathname u) = false -> routeWs this (pathname u) = true ->
     serve_route pf this req w = (w', Threw e)).
Proof.
  intros [_ Hws] Hup Hu Hq.
  destruct (Hws (or_empty (Headers_get (req_headers req) "sec-websocket-protocol")))
    as [e He].
  assert (Hrun : exists w', handleWs pf this req w = (w', Threw e)).
  { handleWs_start. rewrite Hup. simpl. rewrite Hu. simpl. rewrite Hq. simpl.
    destruct (debug this); simpl; rewrite He; simpl; eexists; reflexivity. }
  destruct Hrun as [w' Hrun]. exists e, w'. rewrite Hq. simpl.
  repeat split; [exact He | exact Hrun |].
  intros Hr Hw. unfold serve_route. unfold_M. rewrite Hu. simpl.
  rewrite Hr, Hw. rewrite Hrun. reflexivity.
Qed.

Lemma relay_missing_target_escapes_witness :
  exists e w',
    WebSocket_rejects scripted "" "" = Some e /\
    "" = "" /\
    handleWs scripted proxy upgrade_no_target empty_world = (w', Threw e) /\
    (route proxy "/fetchWs" = false -> routeWs proxy "/fetchWs" = true ->
     serve_route scripted proxy upgrade_no_target empty_world = (w', Threw e)).
Proof.
  apply (relay_missing_target_escapes scripted proxy upgrade_no_target empty_world
           switching_protocols
           {| pathname := "/fetchWs"; search := ""; searchParams := [] |}).
  - split; [eexists; reflexivity | intros proto; eexists; reflexivity].
  - reflexivity.
  - reflexivity.
  - reflexivity.
Defined.

(** ** Relay sessions *)

Lemma wired_sym w a b : wired w a b -> wired w b a.
Proof.
  intros [Hne (wa & wb & Ha & Hb & H1 & H2 & H3 & H4)].
  split; [congruence|]. exists wb, wa. auto 10.
Qed.

Ltac heap_lookups :=
  repeat first
    [ rewrite lookup_alter_eq
    | rewrite lookup_alter_ne by congruence
    | rewrite lookup_insert_eq
    | rewrite lookup_insert_ne by congruence ].

Ltac open_wired H :=
  let Hne := fresh "Hne" in
  let wa := fresh "wa" in
  let wb := fresh "wb" in
  destruct H as [Hne (wa & wb & ?Ha & ?Hb & ?Hma & ?Hca & ?Hmb & ?Hcb)].


Ltac deliver_start H :=
  unfold deliver, deliver_outcome; simpl;
  open_wired H;
  match goal with
  | Ha : sockets _ !! _ = Some ?wa |- _ =>
      rewrite Ha; destruct (readyState wa) eqn:?Hst; simpl; try discriminate
  end.

Ltac run_callback :=
  unfold dispatch, call, WebSocket_send, WebSocket_close, set_readyState,
    push_sent, update_socket, emit, throw, ret; simpl; heap_lookups.

Ltac close_session :=
  unfold wired, state_of, sent_on; simpl; heap_lookups;
  repeat match goal with
         | H : sockets _ !! _ = Some _ |- _ => rewrite H
         end;
  simpl;
  repeat split; try congruence; try (left; congruence); try (right; congruence);
  try (do 2 eexists; heap_lookups;
       repeat match goal with
              | H : sockets _ !! _ = Some _ |- _ => rewrite H
              end;
       simpl; repeat split; assumption).

(** An [open] event on one side of a wired pair. *)
Lemma deliver_open w a b w' :
  wired w a b -> deliver (ev_open a) w = Some w' ->
  wired w' a b /\
  state_of w a = Some CONNECTING /\ state_of w' a = Some OPEN /\
  state_of w' b = state_of w b /\
  sent_on w' a = sent_on w a /\ sent_on w' b = sent_on w b.
Proof.
  intros H. deliver_start H. intros [= <-]. run_callback. close_session.
Qed.

(** A [message] event on one side that the process survives: the other
    side is open, and the handler sends the payload on it. *)
Lemma deliver_message w a b d w' :
  wired w a b -> deliver (ev_message a d) w = Some w' ->
  wired w' a b /\
  state_of w a = Some OPEN /\ state_of w b = Some OPEN /\
  state_of w' a = state_of w a /\ state_of w' b = state_of w b /\
  sent_on w' a = sent_on w a /\
  sent_on w' b = sent_on w b ++ [d].
Proof.
  intros H. deliver_start H. rewrite Hma. run_callback. rewrite Hb.
  destruct (readyState wb) eqn:Hsb; simpl; intros [= <-]; close_session.
Qed.

(** A [close] event on one side: the handler calls [close()] on the other
    side, which is closing or closed afterwards. *)
Lemma deliver_close w a b w' :
  wired w a b -> deliver (ev_close a) w = Some w' ->
  wired w' a b /\
  state_of w' a = Some CLOSED /\
  (state_of w' b = Some CLOSING \/ state_of w' b = Some CLOSED) /\
  (state_of w b = Some CONNECTING \/ state_of w b = Some OPEN ->
   state_of w' b = Some CLOSING) /\
  sent_on w' a = sent_on w a /\ sent_on w' b = sent_on w b.
Proof.
  intros H. deliver_start H.
  all: rewrite Hca; run_callback; rewrite Hb; simpl.
  all: destruct (readyState wb) eqn:Hsb; simpl; intros [= <-]; close_session.
  all: rewrite Hsb; intros [|]; discriminate.
Qed.

Lemma on_session_cases c u ev :
  on_session c u ev = true -> ev_socket ev = c \/ ev_socket ev = u.
Proof.
  unfold on_session. intros H. apply orb_true_iff in H.
  destruct H as [H|H]; apply Nat.eqb_eq in H; auto.
Qed.













(** ** A session, run *)

(** The world after [handleWs] accepted [upgrade_ok]: socket 0 is the
    client side, socket 1 the upstream side. *)
Example session_sockets :
  let w := fst (handleWs scripted proxy upgrade_ok empty_world) in
  snd (handleWs scripted proxy upgrade_ok empty_world) = Returned switching_protocols /\
  (ws_url <$> sockets w !! 1) = Some "ws://echo.test/" /\
  (ws_protocol <$> sockets w !! 1) = Some "chat" /\
  state_of w 0 = Some CONNECTING /\ state_of w 1 = Some CONNECTING.
Proof. vm_compute. repeat split. Qed.

Example session_relay_and_close :
  let w := fst (handleWs scripted proxy upgrade_ok empty_world) in
  match run [ev_open 0; ev_open 1;
             ev_message 0 (data_text "ping");
             ev_message 1 (data_binary [Byte.x00; Byte.xff]);
             ev_message 0 (data_text "again");
             ev_close 0] w with
  | Some w' =>
      sent_on w' 1 = [data_text "ping"; data_text "again"] /\
      sent_on w' 0 = [data_binary [Byte.x00; Byte.xff]] /\
      state_of w' 0 = Some CLOSED /\ state_of w' 1 = Some CLOSING
  | None => False
  end.
Proof. vm_compute. repeat split. Qed.

(** A message that arrives before the other side is open: [send] throws
    inside the handler, nothing catches it, and the process exits with
    nothing sent. *)
Example message_before_open :
  let w := fst (handleWs scripted proxy upgrade_ok empty_world) in
  match run [ev_open 0] w with
  | Some w1 =>
      match deliver_outcome (ev_message 0 (data_text "early")) w1 with
      | Some (Exits w' e) =>
          e = InvalidStateError /\ sent_on w' 1 = [] /\
          trace w' = [uncaught InvalidStateError] /\
          run [ev_open 0; ev_message 0 (data_text "early")] w = None
      | _ => False
      end
  | None => False
  end.
Proof. vm_compute. repeat split. Qed.

(** ** The forward handler, run *)

(** The upstream sends [Age], [Cache-Control] and [Expires] capitalised and
    [Vary] twice; the relayed response keeps the status and the stream. *)
Example forward_run :
  handle scripted proxy post_ok empty_world =
    ({| sockets := ∅;
        trace := [console_log "POST https://upstream.test/";
                  fetched "https://upstream.test/"
                    {| opts_method := "POST"; opts_headers := JObject [];
                       opts_body := Some "a=1" |}] |},
     Returned {| status := 203%Z;
                 headers := [("cache-control", "no-cache");
                             ("content-type", "text/html");
                             ("vary", "accept, origin")];
                 body := body_stream 7 |}).
Proof. reflexivity. Qed.

Example forward_unreachable_run :
  snd (handle scripted proxy get_unreachable empty_world) =
    Returned {| status := 500%Z;
                headers := [("content-type", "text/plain;charset=UTF-8")];
                body := body_text "error sending request" |}.
Proof. reflexivity. Qed.

(** With [debug] set the handler logs the target first; the parse error
    still escapes before anything is logged. *)
Example forward_bare_get_run :
  handle scripted (new_Proxy "/fetch" "/fetchWs" (Some true)) bare_get empty_world =
    (empty_world, Threw (mkExn "SyntaxError" "Unexpected end of JSON input")).
Proof. reflexivity. Qed.

(** * More of the code *)

(** ** [handle]: what else it does and never does *)

(** X1: a [POST] whose body cannot be read is answered by the [catch]
    clause, status 500 with the read error's message, and no outbound call
    is made. *)
Theorem handle_body_read_failure (pf : Platform) (this : Proxy) (req : Request)
    (w : World) (hdrs : JsValue) (err : Exn) :
  JSON_parse pf (or_empty (Headers_get (req_headers req) "x-headers")) = inr hdrs ->
  req_method req = "POST" ->
  req_text req = inl err ->
  exists w' r,
    new_Response pf (init_string (message err)) (Some 500%Z) [] = inr r /\
    handle pf this req w = (w', Returned r) /\
    fetch_calls (effects_of w w') = [].
Proof.
  intros HJ HP HT. unfold handle. unfold_M. simpl.
  rewrite HJ, HP, HT. simpl. rewrite new_Response_500.
  destruct (debug this); simpl; do 2 eexists; (split; [reflexivity|]);
    (split; [reflexivity|]); normalize_trace; reflexivity.
Qed.

Lemma handle_body_read_failure_witness :
  exists w' r,
    new_Response scripted (init_string "Body already consumed.") (Some 500%Z) [] = inr r /\
    handle scripted proxy
      {| req_method := "POST"; req_url := "http://localhost/fetch";
         req_headers := [("x-url", "https://upstream.test/"); ("x-headers", "{}")];
         req_text := inl (mkExn "TypeError" "Body already consumed.") |}
      empty_world = (w', Returned r) /\
    fetch_calls (effects_of empty_world w') = [].
Proof.
  apply (handle_body_read_failure scripted proxy _ empty_world (JObject [])
           (mkExn "TypeError" "Body already consumed.")); reflexivity.
Defined.

(** X2: [handle] never touches the heap of sockets, and what it writes on
    the console is the target when [debug] is set and the method and
    target of a [POST] whose body was read; nothing else. *)
Theorem handle_leaves_sockets (pf : Platform) (this : Proxy) (req : Request)
    (w w' : World) (c : Completion Response) :
  handle pf this req w = (w', c) ->
  sockets w' = sockets w /\
  forall s, In (console_log s) (effects_of w w') ->
    (debug this = true /\
     s = "Handling " +:+ or_empty (Headers_get (req_headers req) "x-url")) \/
    (req_method req = "POST" /\ (exists b, req_text req = inr b) /\
     s = "POST " +:+ or_empty (Headers_get (req_headers req) "x-url")).
Proof.
  intros H. revert H. unfold handle. unfold_M. simpl.
  destruct (JSON_parse pf _) as [e|hdrs]; simpl.
  { intros [= <- <-]. rewrite effects_of_same. split; [reflexivity | intros s []]. }
  destruct (debug this) eqn:Hd; simpl.
  all: destruct (String.eqb (req_method req) "POST") eqn:EP; simpl.
  all: try (apply String.eqb_eq in EP).
  all: try (destruct (req_text req) as [e|b] eqn:ET; simpl).
  all: try (match goal with
            | |- context [fetch ?p ?u ?o] => destruct (fetch p u o); simpl
            end).
  all: try (match goal with
            | |- context [new_Response ?p (init_body ?b) ?st ?hs] =>
                destruct (new_Response p (init_body b) st hs); simpl
            end).
  all: rewrite ?new_Response_500; simpl.
  all: intros [= <- <-]; normalize_trace; (split; [reflexivity|]).
  all: intros s Hin; simpl in Hin;
    repeat match goal with
           | H : _ \/ _ |- _ => destruct H as [H|H]
           | H : False |- _ => destruct H
           | H : console_log _ = console_log _ |- _ => injection H as <-
           | H : fetched _ _ = console_log _ |- _ => discriminate H
           end.
  all: try (left; split; reflexivity).
  all: right; rewrite EP; split; [reflexivity | split; [eexists; reflexivity | reflexivity]].
Qed.

Lemma handle_leaves_sockets_witness :
  sockets (fst (handle scripted proxy post_ok empty_world)) = sockets empty_world /\
  forall s, In (console_log s)
              (effects_of empty_world (fst (handle scripted proxy post_ok empty_world))) ->
    (debug proxy = true /\
     s = "Handling " +:+ or_empty (Headers_get (req_headers post_ok) "x-url")) \/
    (req_method post_ok = "POST" /\ (exists b, req_text post_ok = inr b) /\
     s = "POST " +:+ or_empty (Headers_get (req_headers post_ok) "x-url")).
Proof.
  exact (handle_leaves_sockets scripted proxy post_ok empty_world _ _ eq_refl).
Defined.

(** *** Lookups in objects *)

Lemma obj_lookup_app k o1 o2 :
  obj_lookup k (o1 ++ o2) =
    match obj_lookup k o1 with
    | Some v => Some v
    | None => obj_lookup k o2
    end.
Proof.
  unfold obj_lookup. induction o1 as [|[k1 v1] o1 IH]; simpl; [reflexivity|].
  destruct (String.eqb k k1); simpl; [reflexivity | exact IH].
Qed.

Lemma obj_lookup_set k k' v o :
  obj_lookup k (obj_set k' v o) =
    if String.eqb k k' then Some v else obj_lookup k o.
Proof.
  unfold obj_lookup. induction o as [|[k1 v1] o IH]; simpl.
  - destruct (String.eqb k k'); reflexivity.
  - destruct (String.eqb k' k1) eqn:E1; simpl.
    + apply String.eqb_eq in E1. subst k1.
      destruct (String.eqb k k'); reflexivity.
    + destruct (String.eqb k k1) eqn:E2; simpl; [|exact IH].
      apply String.eqb_eq in E2. subst k1.
      rewrite String.eqb_sym, E1. reflexivity.
Qed.

Lemma obj_lookup_assign k src : forall t,
  obj_lookup k (obj_assign t src) =
    match last_value k src with
    | Some v => Some v
    | None => obj_lookup k t
    end.
Proof.
  unfold obj_assign, last_value.
  induction src as [|[k1 v1] src IH]; intros t; simpl; [reflexivity|].
  rewrite IH, obj_lookup_app, obj_lookup_set.
  destruct (obj_lookup k (rev src)); [reflexivity|].
  unfold obj_lookup at 2. simpl. destruct (String.eqb k k1); reflexivity.
Qed.

Lemma obj_lookup_delete k k' o :
  obj_lookup k (obj_delete k' o) =
    if String.eqb k k' then None else obj_lookup k o.
Proof.
  unfold obj_lookup, obj_delete. induction o as [|[k1 v1] o IH]; simpl.
  - destruct (String.eqb k k'); reflexivity.
  - destruct (String.eqb k' k1) eqn:E1; simpl.
    + apply String.eqb_eq in E1. subst k1. rewrite IH.
      destruct (String.eqb k k'); reflexivity.
    + destruct (String.eqb k k1) eqn:E2; simpl; [|exact IH].
      apply String.eqb_eq in E2. subst k1.
      rewrite String.eqb_sym, E1. reflexivity.
Qed.

Lemma obj_lookup_None k o :
  obj_lookup k o = None <-> keys (fun n => n <> k) o.
Proof.
  unfold obj_lookup, keys. induction o as [|[k1 v1] o IH]; simpl.
  - split; [constructor | reflexivity].
  - destruct (String.eqb k k1) eqn:E; simpl.
    + apply String.eqb_eq in E. subst k1.
      split; [discriminate | inversion 1; subst; simpl in *; congruence].
    + apply String.eqb_neq in E. rewrite IH.
      split; [constructor; simpl; [congruence | assumption] | inversion 1; assumption].
Qed.

Lemma keys_In P (o : JsObject) k v : keys P o -> In (k, v) o -> P k.
Proof.
  unfold keys. rewrite List.Forall_forall. intros H Hin. exact (H (k, v) Hin).
Qed.

Lemma keys_map_fst P (o : JsObject) : keys P o <-> List.Forall P (List.map fst o).
Proof.
  unfold keys. induction o as [|e o IH]; simpl.
  - split; constructor.
  - split; inversion 1; subst; constructor; try assumption; by apply IH.
Qed.

Lemma obj_set_keys_from k v o n :
  In n (List.map fst (obj_set k v o)) -> n = k \/ In n (List.map fst o).
Proof.
  induction o as [|[k1 v1] o IH]; simpl.
  - intros [<-|[]]. by left.
  - destruct (String.eqb k k1) eqn:E; simpl.
    + intros [<-|H]; right; [by left | by right].
    + intros [<-|H]; [right; by left|].
      destruct (IH H) as [->|H']; [by left | right; by right].
Qed.

Lemma obj_set_unique k v o : unique_keys o -> unique_keys (obj_set k v o).
Proof.
  unfold unique_keys. induction o as [|[k1 v1] o IH]; simpl; intros H.
  - constructor; [intros [] | constructor].
  - inversion H as [|? ? Hnin Hnd]; subst.
    destruct (String.eqb k k1) eqn:E; simpl.
    + constructor; assumption.
    + apply String.eqb_neq in E. constructor; [|by apply IH].
      intros Hin. destruct (obj_set_keys_from _ _ _ _ Hin) as [->|H']; contradiction.
Qed.

Lemma obj_assign_unique src : forall t, unique_keys t -> unique_keys (obj_assign t src).
Proof.
  unfold obj_assign. induction src as [|e src IH]; intros t Ht; simpl; [exact Ht|].
  apply IH. by apply obj_set_unique.
Qed.

Lemma obj_delete_unique k o : unique_keys o -> unique_keys (obj_delete k o).
Proof.
  unfold unique_keys, obj_delete. induction o as [|[k1 v1] o IH]; simpl; intros H.
  - constructor.
  - inversion H as [|? ? Hnin Hnd]; subst.
    destruct (negb (String.eqb k k1)); simpl; [|by apply IH].
    constructor; [|by apply IH].
    intros Hin. apply Hnin. apply in_map_iff in Hin.
    destruct Hin as [[k2 v2] [Hk Hin]]. simpl in Hk. subst k2.
    apply List.filter_In in Hin. destruct Hin as [Hin _].
    apply in_map_iff. by exists (k1, v2).
Qed.

(** On an object with lower-case keys, [get] of the header set built from
    it is the property named by the lower-cased name. *)
Lemma Headers_get_object (o : JsObject) name :
  unique_keys o -> keys lower o ->
  Headers_get o name = obj_lookup (byteLowerCase name) o.
Proof.
  unfold unique_keys. intros Hu Hl.
  assert (G : Headers_values o name =
              match obj_lookup (byteLowerCase name) o with
              | Some v => [v]
              | None => []
              end).
  { unfold Headers_values. induction o as [|[k v] o IH]; simpl; [reflexivity|].
    inversion Hu as [|? ? Hnin Hnd]; subst. inversion Hl as [|? ? Hk Hl']; subst.
    simpl in Hk. unfold name_matches at 1. simpl. rewrite Hk.
    unfold obj_lookup. simpl. rewrite (String.eqb_sym (byteLowerCase name) k).
    destruct (String.eqb k (byteLowerCase name)) eqn:E; simpl.
    - apply String.eqb_eq in E. f_equal.
      assert (Hnone : obj_lookup (byteLowerCase name) o = None).
      { apply obj_lookup_None. apply keys_map_fst. rewrite List.Forall_forall.
        intros n Hn ->. subst k. contradiction. }
      rewrite (IH Hnd Hl'), Hnone. reflexivity.
    - exact (IH Hnd Hl'). }
  unfold Headers_get. rewrite G.
  destruct (obj_lookup (byteLowerCase name) o); simpl; reflexivity.
Qed.

(** With one property per key, the last entry named [n] is the only one. *)
Lemma last_value_unique n (o : JsObject) :
  unique_keys o -> last_value n o = obj_lookup n o.
Proof.
  unfold unique_keys, last_value. induction o as [|[k1 v1] o IH]; simpl; [reflexivity|].
  intros H. inversion H as [|? ? Hnin Hnd]; subst.
  rewrite obj_lookup_app, (IH Hnd). clear IH.
  assert (H1 : obj_lookup n [(k1, v1)] = if String.eqb n k1 then Some v1 else None).
  { unfold obj_lookup. simpl. destruct (String.eqb n k1); reflexivity. }
  assert (H2 : obj_lookup n ((k1, v1) :: o) =
               if String.eqb n k1 then Some v1 else obj_lookup n o).
  { unfold obj_lookup. simpl. destruct (String.eqb n k1); reflexivity. }
  rewrite H1, H2.
  destruct (String.eqb n k1) eqn:E.
  - apply String.eqb_eq in E. subst k1.
    assert (Hnone : obj_lookup n o = None).
    { apply obj_lookup_None, keys_map_fst. rewrite List.Forall_forall.
      intros m Hm ->. contradiction. }
    rewrite Hnone. reflexivity.
  - destruct (obj_lookup n o); reflexivity.
Qed.

(** What [handle] does to the upstream headers [h], read on the result:
    every name outside the three stripped ones answers with the last value
    [entries()] holds for it. *)
Lemma relayed_headers (h : Headers) name :
  byteLowerCase name <> "age" ->
  byteLowerCase name <> "cache-control" ->
  byteLowerCase name <> "expires" ->
  let respHeaders :=
    obj_delete "expires" (obj_delete "cache-control" (obj_delete "age"
      (Object_fromEntries (Headers_entries h)))) in
  Headers_get (Headers_of_object (obj_assign [("cache-control", "no-cache")] respHeaders))
    name = last_value (byteLowerCase name) (Headers_entries h).
Proof.
  intros Ha Hc He respHeaders. rewrite Headers_of_object_id.
  assert (Hlow : keys lower respHeaders).
  { do 3 apply obj_delete_keys. apply Object_fromEntries_lower, Headers_entries_lower. }
  assert (Hun : unique_keys respHeaders).
  { do 3 apply obj_delete_unique. apply obj_assign_unique. constructor. }
  assert (Hlook : obj_lookup (byteLowerCase name) respHeaders =
                  last_value (byteLowerCase name) (Headers_entries h)).
  { subst respHeaders. rewrite !obj_lookup_delete.
    apply String.eqb_neq in Ha, Hc, He. rewrite Ha, Hc, He.
    unfold Object_fromEntries. rewrite obj_lookup_assign.
    destruct (last_value _ _); reflexivity. }
  rewrite Headers_get_object.
  - rewrite obj_lookup_assign, (last_value_unique _ _ Hun), Hlook.
    destruct (last_value _ (Headers_entries h)); [reflexivity|].
    unfold obj_lookup. simpl. apply String.eqb_neq in Hc. rewrite Hc. reflexivity.
  - apply obj_assign_unique. constructor; [intros [] | constructor].
  - apply obj_assign_keys; [|exact Hlow]. constructor; [reflexivity | constructor].
Qed.

(** X3: on a successful outbound call whose upstream status the
    [Response] constructor takes (200 to 599, with no body on a null body
    status), every header name other than [age], [cache-control] and
    [expires] (in any capitalisation) answers on the returned response with
    the last value the upstream's [entries()] holds for the lower-cased
    name: the other headers are relayed, and of several [set-cookie]
    entries only the last one is. *)
Theorem forward_relays_other_headers (pf : Platform) (this : Proxy) (req : Request)
    (w w' : World) (c : Completion Response) (url : string) (opts : Opts)
    (up : Response) (name : string) :
  handle pf this req w = (w', c) ->
  In (url, opts) (fetch_calls (effects_of w w')) ->
  fetch pf url opts = inr up ->
  (200 <= status up <= 599)%Z ->
  (null_body_status (status up) = true -> body up = body_null) ->
  byteLowerCase name <> "age" ->
  byteLowerCase name <> "cache-control" ->
  byteLowerCase name <> "expires" ->
  exists r, c = Returned r /\
    Headers_get (headers r) name =
      last_value (byteLowerCase name) (Headers_entries (headers up)).
Proof.
  intros H Hin Hf Hs Hb Ha Hc He. revert H Hin. handle_cases.
  all: intros H; injection H as <- <-; normalize_trace.
  all: intros Hin;
    repeat match goal with
           | H : _ \/ False |- _ => destruct H as [H | []]
           | H : False |- _ => destruct H
           | H : (_, _) = (_, _) |- _ => injection H as <- <-
           end;
    try congruence.
  all: match goal with
       | E : fetch _ _ _ = inr ?u |- _ => rewrite E in Hf; injection Hf as ->
       end.
  all: rewrite (new_Response_accepts _ _ _ _ Hs Hb) in ER;
    first [ discriminate ER
          | injection ER as <-; eexists; split; [reflexivity|];
            apply (relayed_headers (headers up) name Ha Hc He) ].
Qed.

Lemma forward_relays_other_headers_witness :
  exists r,
    snd (handle scripted proxy post_ok empty_world) = Returned r /\
    Headers_get (headers r) "Vary" =
      last_value (byteLowerCase "Vary") (Headers_entries (headers upstream_response)).
Proof.
  refine (forward_relays_other_headers scripted proxy post_ok empty_world
            (fst (handle scripted proxy post_ok empty_world))
            (snd (handle scripted proxy post_ok empty_world))
            "https://upstream.test/"
            {| opts_method := "POST"; opts_headers := JObject []; opts_body := Some "a=1" |}
            upstream_response "Vary" _ _ _ _ _ _ _ _).
  - reflexivity.
  - vm_compute. left. reflexivity.
  - reflexivity.
  - simpl. lia.
  - vm_compute. discriminate.
  - discriminate.
  - discriminate.
  - discriminate.
Defined.

(** Two [Set-Cookie] headers from the upstream: the first is lost. *)
Example set_cookie_collapses :
  let h := [("Set-Cookie", "a=1"); ("Content-Type", "text/plain"); ("Set-Cookie", "b=2")] in
  Headers_entries h =
    [("content-type", "text/plain"); ("set-cookie", "a=1"); ("set-cookie", "b=2")] /\
  Headers_of_object
    (obj_assign [("cache-control", "no-cache")]
       (obj_delete "expires" (obj_delete "cache-control" (obj_delete "age"
          (Object_fromEntries (Headers_entries h)))))) =
    [("cache-control", "no-cache"); ("content-type", "text/plain"); ("set-cookie", "b=2")].
Proof. split; reflexivity. Qed.

(** ** [handleWs] and its sessions: what else they do and never do *)

(** X4: on an accepted upgrade that [handleWs] answers, the response is the
    one the runtime built for the upgrade, the outbound socket is opened on
    the [url] query parameter with the subprotocol of the inbound request,
    both sockets are new, and no socket that was already on the heap is
    changed. *)
Theorem relay_opens_upstream (pf : Platform) (this : Proxy) (req : Request)
    (w w1 : World) (resp r : Response) :
  Deno_upgradeWebSocket pf req
    (or_empty (Headers_get (req_headers req) "sec-websocket-protocol")) = inr resp ->
  handleWs pf this req w = (w1, Returned r) ->
  r = resp /\
  exists c u target,
    c <> u /\ sockets w !! c = None /\ sockets w !! u = None /\
    URL_parse pf (req_url req) = inr target /\
    ws_url <$> sockets w1 !! u = Some (or_empty (searchParams_get target "url")) /\
    ws_protocol <$> sockets w1 !! u =
      Some (or_empty (Headers_get (req_headers req) "sec-websocket-protocol")) /\
    ws_protocol <$> sockets w1 !! c =
      Some (or_empty (Headers_get (req_headers req) "sec-websocket-protocol")) /\
    (forall s, s <> c -> s <> u -> sockets w1 !! s = sockets w !! s).
Proof.
  intros Hup. handleWs_start. rewrite Hup. simpl.
  destruct (URL_parse pf (req_url req)) as [e|u0]; simpl; [discriminate|].
  destruct (debug this); simpl.
  all: destruct (WebSocket_rejects pf _ _); simpl; [discriminate|].
  all: intros H; injection H as <- <-; split; [reflexivity|].
  all: set (m := sockets w);
    set (c := fresh (dom m));
    set (wc := fresh_socket (req_url req) _);
    set (u := fresh (dom (<[c := wc]> m)));
    assert (Hc : m !! c = None) by (apply not_elem_of_dom, is_fresh);
    assert (Hu' : <[c := wc]> m !! u = None) by (apply not_elem_of_dom, is_fresh);
    assert (Hcu : c <> u) by (intros E; rewrite <- E, lookup_insert_eq in Hu'; discriminate);
    assert (Hu : m !! u = None) by (rewrite lookup_insert_ne in Hu' by exact Hcu; exact Hu');
    exists c, u, u0; simpl;
    heap_lookups; simpl; repeat split; try assumption;
    intros s Hsc Hsu; heap_lookups; reflexivity.
Qed.

Lemma relay_opens_upstream_witness :
  switching_protocols = switching_protocols /\
  exists c u target,
    c <> u /\ sockets empty_world !! c = None /\ sockets empty_world !! u = None /\
    URL_parse scripted (req_url upgrade_ok) = inr target /\
    ws_url <$> sockets (fst (handleWs scripted proxy upgrade_ok empty_world)) !! u =
      Some (or_empty (searchParams_get target "url")) /\
    ws_protocol <$> sockets (fst (handleWs scripted proxy upgrade_ok empty_world)) !! u =
      Some (or_empty (Headers_get (req_headers upgrade_ok) "sec-websocket-protocol")) /\
    ws_protocol <$> sockets (fst (handleWs scripted proxy upgrade_ok empty_world)) !! c =
      Some (or_empty (Headers_get (req_headers upgrade_ok) "sec-websocket-protocol")) /\
    (forall s, s <> c -> s <> u ->
       sockets (fst (handleWs scripted proxy upgrade_ok empty_world)) !! s =
       sockets empty_world !! s).
Proof.
  apply (relay_opens_upstream scripted proxy upgrade_ok empty_world
           (fst (handleWs scripted proxy upgrade_ok empty_world))
           switching_protocols switching_protocols).
  - reflexivity.
  - vm_compute. reflexivity.
Defined.

Lemma deliver_frame w a b ev w' s :
  wired w a b -> ev_socket ev = a -> deliver ev w = Some w' ->
  s <> a -> s <> b -> sockets w' !! s = sockets w !! s.
Proof.
  intros H Hev Hd Hsa Hsb. revert Hd. destruct ev as [x|x d|x]; simpl in Hev; subst x.
  - deliver_start H. intros [= <-]. run_callback. reflexivity.
  - deliver_start H. rewrite Hma. run_callback. rewrite Hb.
    destruct (readyState wb); simpl; intros [= <-]; simpl; heap_lookups; reflexivity.
  - deliver_start H.
    all: rewrite Hca; run_callback; rewrite Hb; simpl.
    all: destruct (readyState wb); simpl; intros [= <-]; simpl; heap_lookups;
      reflexivity.
Qed.

(** X5: as long as the process goes on (no handler throws), the events of
    one session change no socket of any other session: along any run of
    events on the wired pair [c], [u], every other socket on the heap stays
    as it was. *)
Theorem session_isolated (evs : list SockEvent) : forall (w w' : World) (c u s : nat),
  wired w c u ->
  forallb (on_session c u) evs = true ->
  run evs w = Some w' ->
  s <> c -> s <> u ->
  sockets w' !! s = sockets w !! s.
Proof.
  induction evs as [|ev evs IH]; intros w w' c u s Hw Hon Hrun Hsc Hsu; simpl in *.
  - by injection Hrun as <-.
  - apply andb_true_iff in Hon. destruct Hon as [Hev Hon].
    destruct (deliver ev w) as [w1|] eqn:Hd; [|discriminate].
    assert (Hw1 : wired w1 c u /\ sockets w1 !! s = sockets w !! s).
    { destruct (on_session_cases _ _ _ Hev) as [E|E].
      - split; [|by eapply deliver_frame; eauto].
        destruct ev as [x|x d|x]; simpl in E; subst x.
        + by destruct (deliver_open _ _ _ _ Hw Hd).
        + by destruct (deliver_message _ _ _ _ _ Hw Hd).
        + by destruct (deliver_close _ _ _ _ Hw Hd).
      - split; [|by eapply (deliver_frame w u c); eauto using wired_sym].
        apply wired_sym. apply wired_sym in Hw.
        destruct ev as [x|x d|x]; simpl in E; subst x.
        + by destruct (deliver_open _ _ _ _ Hw Hd).
        + by destruct (deliver_message _ _ _ _ _ Hw Hd).
        + by destruct (deliver_close _ _ _ _ Hw Hd). }
    destruct Hw1 as [Hw1 Hs1]. rewrite <- Hs1. by eapply IH.
Qed.

Lemma two_sessions_wired : wired two_sessions 2 3.
Proof.
  split; [discriminate|].
  exists {| readyState := CONNECTING;
            ws_url := "http://localhost/fetchWs?url=ws://echo.test/";
            ws_protocol := "chat"; onmessage := Some (send_to 3);
            onclose := Some (close_of 3); sent := [] |},
         {| readyState := CONNECTING; ws_url := "ws://echo.test/";
            ws_protocol := "chat"; onmessage := Some (send_to 2);
            onclose := Some (close_of 2); sent := [] |}.
  repeat split; vm_compute; reflexivity.
Qed.

Lemma session_isolated_witness :
  sockets (after [ev_open 2; ev_open 3; ev_message 2 (data_text "x"); ev_close 3]
             two_sessions) !! 0
  = sockets two_sessions !! 0.
Proof.
  apply (session_isolated
           [ev_open 2; ev_open 3; ev_message 2 (data_text "x"); ev_close 3]
           two_sessions _ 2 3 0 two_sessions_wired eq_refl).
  - vm_compute. reflexivity.
  - discriminate.
  - discriminate.
Defined.

(** X6: a message received on one side while the other side is still
    connecting (a client that sends before the upstream connection is
    open) makes the handler's [send] throw [InvalidStateError]; nothing
    catches it: nothing is sent, no socket changes, the error is reported
    and the process exits, so the session, and every other one, goes no
    further. *)
Theorem message_unless_open_ends_process (w : World) (a b : nat) (d : Data) :
  wired w a b ->
  state_of w a = Some OPEN ->
  state_of w b = Some CONNECTING ->
  exists w',
    deliver_outcome (ev_message a d) w = Some (Exits w' InvalidStateError) /\
    sockets w' = sockets w /\
    trace w' = trace w ++ [uncaught InvalidStateError] /\
    forall evs, run (ev_message a d :: evs) w = None.
Proof.
  intros H Hsa Hsb. unfold state_of in Hsa, Hsb. open_wired H.
  rewrite Ha in Hsa. rewrite Hb in Hsb. simpl in Hsa, Hsb.
  injection Hsa as Hsa. injection Hsb as Hsb.
  assert (Hout : deliver_outcome (ev_message a d) w =
                 Some (Exits {| sockets := sockets w;
                                trace := trace w ++ [uncaught InvalidStateError] |}
                         InvalidStateError)).
  { unfold deliver_outcome. simpl. rewrite Ha, Hsa, Hma.
    run_callback. rewrite Hb, Hsb. reflexivity. }
  eexists. split; [exact Hout|]. split; [reflexivity|]. split; [reflexivity|].
  intros evs. simpl. unfold deliver. by rewrite Hout.
Qed.

Lemma message_unless_open_ends_process_witness :
  exists w',
    deliver_outcome (ev_message 2 (data_text "early")) (after [ev_open 2] two_sessions) =
      Some (Exits w' InvalidStateError) /\
    sockets w' = sockets (after [ev_open 2] two_sessions) /\
    trace w' = trace (after [ev_open 2] two_sessions) ++ [uncaught InvalidStateError] /\
    forall evs,
      run (ev_message 2 (data_text "early") :: evs) (after [ev_open 2] two_sessions) = None.
Proof.
  assert (H1 : deliver (ev_open 2) two_sessions = Some (after [ev_open 2] two_sessions))
    by (vm_compute; reflexivity).
  destruct (deliver_open _ _ _ _ two_sessions_wired H1) as (Hw1 & _ & _ & Hb & _).
  apply (message_unless_open_ends_process _ 2 3 (data_text "early") Hw1).
  - vm_compute. reflexivity.
  - rewrite Hb. vm_compute. reflexivity.
Defined.

(** ** [getCookies] *)

Lemma split_on_nonempty sep s : split_on sep s <> [].
Proof.
  destruct s as [|c s]; simpl; [discriminate|].
  destruct (Ascii.eqb c sep); [discriminate|].
  destruct (split_on sep s); discriminate.
Qed.

Lemma split_on_absent sep s : occurs sep s = false -> split_on sep s = [s].
Proof.
  induction s as [|c s IH]; simpl; [reflexivity|].
  destruct (Ascii.eqb c sep); simpl; [discriminate|].
  intros H. rewrite (IH H). reflexivity.
Qed.

Lemma split_on_app sep a b :
  occurs sep a = false ->
  split_on sep (a +:+ String sep b) = a :: split_on sep b.
Proof.
  induction a as [|c a IH]; simpl.
  - intros _. rewrite Ascii.eqb_refl. reflexivity.
  - destruct (Ascii.eqb c sep); simpl; [discriminate|].
    intros H. rewrite (IH H). reflexivity.
Qed.

(** [s.split(c).join(c)] is [s]. *)
Lemma join_split_on sep s :
  String.concat (String sep EmptyString) (split_on sep s) = s.
Proof.
  induction s as [|c s IH]; simpl; [reflexivity|].
  destruct (Ascii.eqb_spec c sep) as [->|Hne].
  - destruct (split_on sep s) as [|p ps] eqn:E; [by destruct (split_on_nonempty sep s)|].
    change (String.concat (String sep "") ("" :: p :: ps))
      with (String sep (String.concat (String sep "") (p :: ps))).
    by rewrite IH.
  - destruct (split_on sep s) as [|p ps] eqn:E; [by destruct (split_on_nonempty sep s)|].
    destruct ps as [|q qs]; simpl in IH |- *; rewrite <- IH; reflexivity.
Qed.

(** The assertion of [getCookies] cannot fail: it never throws. *)
Lemma getCookies_loop_total c : forall out, exists o, getCookies_loop c out = inr o.
Proof.
  induction c as [|kv c IH]; intros out; simpl; [by exists out|].
  destruct (split_on "=" kv) as [|k vs] eqn:E; [by destruct (split_on_nonempty "=" kv)|].
  apply IH.
Qed.

Lemma getCookies_total h : exists o, getCookies h = inr o.
Proof.
  unfold getCookies. destruct (Headers_get h "Cookie"); [apply getCookies_loop_total|].
  by exists [].
Qed.

Lemma occurs_app c a b : occurs c (a +:+ b) = occurs c a || occurs c b.
Proof.
  induction a as [|x a IH]; simpl; [reflexivity|].
  rewrite IH. by rewrite orb_assoc.
Qed.

Lemma cookie_pair_no_semicolon p :
  cookie_pair_ok p -> occurs ";" (cookie_pair p) = false.
Proof.
  intros (Hk & _ & _ & Hv). unfold cookie_pair.
  rewrite !occurs_app, Hk, Hv. reflexivity.
Qed.

(** The pieces of the header between semicolons: the first pair, then each
    other pair after a space. *)
Lemma cookie_header_pieces ps : forall p,
  List.Forall cookie_pair_ok (p :: ps) ->
  split_on ";" (cookie_header (p :: ps)) =
    cookie_pair p :: List.map (fun q => " " +:+ cookie_pair q) ps.
Proof.
  induction ps as [|q ps IH]; intros p Hok.
  - inversion Hok; subst. unfold cookie_header. simpl.
    apply split_on_absent. by apply cookie_pair_no_semicolon.
  - inversion Hok as [|? ? Hp Hrest]; subst.
    change (cookie_header (p :: q :: ps))
      with (cookie_pair p +:+ String ";" (String " " (cookie_header (q :: ps)))).
    rewrite split_on_app by (by apply cookie_pair_no_semicolon).
    f_equal. simpl. rewrite (IH q Hrest). reflexivity.
Qed.

Lemma trim_after_space s : trim (String " " s) = trim s.
Proof. reflexivity. Qed.

(** One piece, with or without the leading space, puts its pair. *)
Lemma getCookies_loop_pairs ps : forall out (lead : list bool),
  List.Forall cookie_pair_ok ps ->
  length lead = length ps ->
  getCookies_loop
    (List.map (fun x : bool * (string * string) =>
                 (if fst x then " " else "") +:+ cookie_pair (snd x))
       (List.combine lead ps)) out
  = inr (obj_assign out ps).
Proof.
  induction ps as [|[k v] ps IH]; intros out lead Hok Hlen.
  - destruct lead; reflexivity.
  - destruct lead as [|b lead]; [discriminate|].
    inversion Hok as [|? ? (Hk1 & Hk2 & Hk3 & Hv) Hrest]; subst.
    simpl in Hk1, Hk2, Hk3, Hv. simpl List.combine. simpl List.map.
    unfold getCookies_loop; fold getCookies_loop.
    assert (Hsplit : split_on "=" ((if b then " " else "") +:+ cookie_pair (k, v)) =
                     ((if b then " " else "") +:+ k) :: split_on "=" v).
    { unfold cookie_pair. simpl fst. simpl snd.
      change (k +:+ "=" +:+ v) with (k +:+ String "=" v).
      destruct b.
      - change (" " +:+ k +:+ String "=" v) with (String " " (k +:+ String "=" v)).
        unfold split_on; fold split_on.
        change (Ascii.eqb " " "=") with false. cbv iota.
        rewrite (split_on_app "=" k v Hk2). reflexivity.
      - apply (split_on_app "=" k v Hk2). }
    rewrite Hsplit. simpl assert. cbv iota.
    assert (Htrim : trim ((if b then " " else "") +:+ k) = k).
    { destruct b; [change (" " +:+ k) with (String " " k); rewrite trim_after_space|];
        exact Hk3. }
    rewrite Htrim, (join_split_on "=" v).
    rewrite (IH _ lead Hrest) by (simpl in Hlen; congruence).
    reflexivity.
Qed.

(** The header of a list of cookies, read: the object holds, for every
    name, the value of the last cookie of that name. *)
Lemma getCookies_of_pairs (h : Headers) (p : string * string)
    (ps : list (string * string)) :
  List.Forall cookie_pair_ok (p :: ps) ->
  Headers_get h "Cookie" = Some (cookie_header (p :: ps)) ->
  exists o, getCookies h = inr o /\
    forall k, obj_lookup k o = last_value k (p :: ps).
Proof.
  intros Hok Hget. unfold getCookies. rewrite Hget.
  rewrite (cookie_header_pieces ps p Hok).
  assert (Hpieces :
            cookie_pair p :: List.map (fun q => " " +:+ cookie_pair q) ps =
            List.map (fun x : bool * (string * string) =>
                        (if fst x then " " else "") +:+ cookie_pair (snd x))
              (List.combine (false :: List.map (fun _ => true) ps) (p :: ps))).
  { change (List.combine (false :: List.map (fun _ => true) ps) (p :: ps))
      with ((false, p) :: List.combine (List.map (fun _ => true) ps) ps).
    rewrite List.map_cons. f_equal.
    clear. induction ps as [|q ps IH]; simpl; [reflexivity|]. by rewrite IH. }
  rewrite Hpieces, (getCookies_loop_pairs (p :: ps) [] _ Hok)
    by (simpl; by rewrite length_map).
  eexists. split; [reflexivity|].
  intros k. rewrite obj_lookup_assign.
  destruct (last_value k (p :: ps)); reflexivity.
Qed.

(** X7: [getCookies] never throws; on the header a client sends for a list
    of cookies it returns, for every name, the value of the last cookie of
    that name, a value with equals signs included. *)
Theorem getCookies_round_trip (h : Headers) (p : string * string)
    (ps : list (string * string)) :
  List.Forall cookie_pair_ok (p :: ps) ->
  Headers_get h "Cookie" = Some (cookie_header (p :: ps)) ->
  exists o, getCookies h = inr o /\
    forall k, obj_lookup k o = last_value k (p :: ps).
Proof. apply getCookies_of_pairs. Qed.

Lemma getCookies_round_trip_witness :
  exists o,
    getCookies [("accept", "*/*"); ("cookie", "key=unlock; token=YWJj=; key=again")]
      = inr o /\
    forall k, obj_lookup k o =
      last_value k [("key", "unlock"); ("token", "YWJj="); ("key", "again")].
Proof.
  apply (getCookies_round_trip _ ("key", "unlock") [("token", "YWJj="); ("key", "again")]).
  - repeat constructor; discriminate.
  - reflexivity.
Defined.

(** X8: a piece of the [Cookie] header without an equals sign is a cookie
    of that (trimmed) name with the empty value; so an empty [Cookie]
    header gives one cookie, with the empty name and the empty value. *)
Theorem getCookies_piece_without_equals (h : Headers) (s : string) :
  Headers_get h "Cookie" = Some s ->
  occurs ";" s = false -> occurs "=" s = false ->
  getCookies h = inr [(trim s, "")].
Proof.
  intros Hget Hs He. unfold getCookies. rewrite Hget.
  rewrite (split_on_absent ";" s Hs). simpl.
  rewrite (split_on_absent "=" s He). reflexivity.
Qed.

Lemma getCookies_piece_without_equals_witness :
  getCookies [("Cookie", "")] = inr [(trim "", "")].
Proof.
  apply (getCookies_piece_without_equals [("Cookie", "")] ""); reflexivity.
Defined.

(** ** The request handler of [app.ts] *)

Ltac serve_start :=
  unfold serve_handler; unfold_M; simpl.

(** X9: the gate.  With unlocking required, a request that carries neither
    the configured key cookie, nor the [?unlock] query, nor a CrOS user
    agent, and for which the blocked directory answers with an HTML
    response, gets that response; the proxy is not reached: the world is as
    it was. *)
Theorem gate_blocks_html (site : Site) (pf : Platform) (req : Request) (w : World)
    (cookies : JsObject) (url : URL) (resp : Response) :
  getCookies (req_headers req) = inr cookies ->
  URL_parse pf (req_url req) = inr url ->
  requireUnlock (config site) = true ->
  unlocked site cookies = false ->
  startsWith (search url) "?unlock" = false ->
  header_includes (req_headers req) "user-agent" "CrOS" = false ->
  serveDir site req
    {| fsRoot := blockedDir (config site); showDirListing := None;
       showIndex := Some true; quiet := Some true |} = inr resp ->
  header_includes (headers resp) "content-type" "text/html" = true ->
  serve_handler site pf req w = (w, Returned resp).
Proof.
  intros Hc Hu Hr Hk Hq Hua Hs Hh. serve_start.
  rewrite Hc. simpl. rewrite Hu. simpl. rewrite Hr, Hk, Hq, Hua. simpl.
  rewrite Hs. simpl. rewrite Hh. reflexivity.
Qed.

Lemma gate_blocks_html_witness :
  serve_handler scripted_site scripted plain_ws_get empty_world =
    (empty_world, Returned blocked_page).
Proof.
  apply (gate_blocks_html scripted_site scripted plain_ws_get empty_world []
           {| pathname := "/fetchWs"; search := ""; searchParams := [] |} blocked_page);
    reflexivity.
Defined.

(** X10: the gate blocks HTML only.  When the request is allowed, or when
    the blocked directory's answer is not HTML, a request on the forward
    path is handled by [handle] and a request under the relay prefix by
    [handleWs], exactly as if there were no gate. *)
Theorem gate_passes_to_proxy (site : Site) (pf : Platform) (req : Request) (w : World)
    (cookies : JsObject) (url : URL) :
  getCookies (req_headers req) = inr cookies ->
  URL_parse pf (req_url req) = inr url ->
  (negb (requireUnlock (config site)) || unlocked site cookies ||
   startsWith (search url) "?unlock" ||
   header_includes (req_headers req) "user-agent" "CrOS" = true \/
   exists resp,
     serveDir site req
       {| fsRoot := blockedDir (config site); showDirListing := None;
          showIndex := Some true; quiet := Some true |} = inr resp /\
     header_includes (headers resp) "content-type" "text/html" = false) ->
  (route proxy (pathname url) = true ->
   serve_handler site pf req w = handle pf proxy req w) /\
  (route proxy (pathname url) = false -> routeWs proxy (pathname url) = true ->
   serve_handler site pf req w = handleWs pf proxy req w).
Proof.
  intros Hc Hu Hpass.
  assert (Hrun : serve_handler site pf req w =
                 (if route proxy (pathname url) then handle pf proxy req
                  else if routeWs proxy (pathname url) then handleWs pf proxy req
                  else if startsWith (pathname url) (aero_prefix site)
                  then lift (new_Response pf
                               (init_string "Failed to start the service worker")
                               (Some 404%Z) [])
                  else bind (lift (serveDir site req
                                     {| fsRoot := dir (config site);
                                        showDirListing := Some true;
                                        showIndex := Some true; quiet := Some true |}))
                         (fun resp1 =>
                            ret (if startsWith (search url) "?unlock"
                                 then with_header resp1 "set-cookie"
                                        "key=unlock; SameSite=None; Secure"
                                 else resp1))) w).
  { unfold serve_handler. unfold bind at 1. unfold lift at 1. rewrite Hc.
    unfold ret at 1. cbv iota beta.
    unfold bind at 1. unfold lift at 1. rewrite Hu. unfold ret at 1. cbv iota beta.
    unfold bind at 1.
    destruct Hpass as [Hallow | (resp & Hs & Hh)].
    - rewrite Hallow. reflexivity.
    - destruct (negb _ || _ || _ || _); simpl; [reflexivity|].
      unfold bind, lift, ret. rewrite Hs. cbv iota beta. rewrite Hh. reflexivity. }
  rewrite Hrun. split.
  - intros ->. reflexivity.
  - intros -> ->. reflexivity.
Qed.

Lemma gate_passes_to_proxy_witness :
  (route proxy "/fetch" = true ->
   serve_handler scripted_site scripted post_ok empty_world =
     handle scripted proxy post_ok empty_world) /\
  (route proxy "/fetch" = false -> routeWs proxy "/fetch" = true ->
   serve_handler scripted_site scripted post_ok empty_world =
     handleWs scripted proxy post_ok empty_world).
Proof.
  apply (gate_passes_to_proxy scripted_site scripted post_ok empty_world []
           {| pathname := "/fetch"; search := ""; searchParams := [] |}).
  - reflexivity.
  - reflexivity.
  - right. exists not_found_page. split; reflexivity.
Defined.

Lemma Headers_values_set_from h : forall seen n v n',
  Headers_values (Headers_set_from seen n v h) n' =
    if String.eqb (byteLowerCase n) (byteLowerCase n')
    then (if seen then [] else [v])
    else Headers_values h n'.
Proof.
  unfold Headers_values, name_matches.
  induction h as [|e h IH]; intros seen n v n'.
  - destruct seen; cbn [Headers_set_from List.filter List.map fst snd].
    + destruct (String.eqb _ _); reflexivity.
    + destruct (String.eqb (byteLowerCase n) (byteLowerCase n')); reflexivity.
  - cbn [Headers_set_from]. unfold name_matches.
    destruct (String.eqb_spec (byteLowerCase (fst e)) (byteLowerCase n)) as [Em|Em].
    + destruct seen; cbn [List.filter List.map fst snd]; rewrite ?Em.
      * rewrite IH.
        destruct (String.eqb (byteLowerCase n) (byteLowerCase n')); reflexivity.
      * destruct (String.eqb (byteLowerCase n) (byteLowerCase n')) eqn:E;
          cbn [List.map snd]; rewrite IH, E; reflexivity.
    + cbn [List.filter List.map fst snd]. 
      destruct (String.eqb_spec (byteLowerCase n) (byteLowerCase n')) as [E|E].
      * rewrite <- E. apply String.eqb_neq in Em. rewrite Em.
        rewrite IH, E, String.eqb_refl. reflexivity.
      * destruct (String.eqb (byteLowerCase (fst e)) (byteLowerCase n'));
          cbn [List.map snd]; rewrite IH; apply String.eqb_neq in E; rewrite E;
          reflexivity.
Qed.

(** [get] after [set]: the name set answers with the new value alone, any
    other name as before. *)
Lemma Headers_get_set h n v n' :
  Headers_get (Headers_set h n v) n' =
    if String.eqb (byteLowerCase n) (byteLowerCase n') then Some v
    else Headers_get h n'.
Proof.
  unfold Headers_get, Headers_set. rewrite Headers_values_set_from.
  destruct (String.eqb (byteLowerCase n) (byteLowerCase n')); reflexivity.
Qed.

(** X11: a request with the [?unlock] query for a static file gets the
    file server's response with its [set-cookie] header replaced by the
    unlock cookie; status, body and every other header are the file
    server's. *)
Theorem unlock_sets_cookie (site : Site) (pf : Platform) (req : Request) (w : World)
    (cookies : JsObject) (url : URL) (resp1 : Response) :
  getCookies (req_headers req) = inr cookies ->
  URL_parse pf (req_url req) = inr url ->
  startsWith (search url) "?unlock" = true ->
  route proxy (pathname url) = false ->
  routeWs proxy (pathname url) = false ->
  startsWith (pathname url) (aero_prefix site) = false ->
  serveDir site req
    {| fsRoot := dir (config site); showDirListing := Some true;
       showIndex := Some true; quiet := Some true |} = inr resp1 ->
  exists r,
    serve_handler site pf req w = (w, Returned r) /\
    status r = status resp1 /\ body r = body resp1 /\
    Headers_get (headers r) "set-cookie" = Some "key=unlock; SameSite=None; Secure" /\
    forall name, byteLowerCase name <> "set-cookie" ->
      Headers_get (headers r) name = Headers_get (headers resp1) name.
Proof.
  intros Hc Hu Hq Hr Hw Hp Hs.
  exists (with_header resp1 "set-cookie" "key=unlock; SameSite=None; Secure").
  split.
  - serve_start. rewrite Hc. simpl. rewrite Hu. simpl. rewrite Hq.
    rewrite !orb_true_r. simpl. rewrite Hr, Hw, Hp. simpl. rewrite Hs. reflexivity.
  - unfold with_header. simpl. repeat split.
    + rewrite Headers_get_set. reflexivity.
    + intros name Hn. rewrite Headers_get_set.
      destruct (String.eqb_spec (byteLowerCase "set-cookie") (byteLowerCase name)) as [E|E];
        [|reflexivity].
      exfalso. apply Hn. rewrite <- E. reflexivity.
Qed.

(** X12: a request whose [Cookie] header is [key=v] counts as unlocked
    exactly when [v] is the configured key; so the cookie the handler hands
    out, [key=unlock], unlocks only a site whose configured key is
    [unlock]. *)
Theorem key_cookie_unlocks (site : Site) (h : Headers) (v : string) :
  Headers_get h "Cookie" = Some ("key=" +:+ v) ->
  occurs ";" v = false ->
  exists cookies,
    getCookies h = inr cookies /\
    unlocked site cookies = String.eqb v (cfg_key (config site)).
Proof.
  intros Hget Hv. unfold getCookies. rewrite Hget.
  change ("key=" +:+ v) with (cookie_pair ("key", v)).
  rewrite (split_on_absent ";" (cookie_pair ("key", v))).
  - pose proof (getCookies_loop_pairs [("key", v)] [] [false]) as Hloop.
    simpl in Hloop. simpl. rewrite Hloop.
    + eexists. split; [reflexivity|]. reflexivity.
    + repeat constructor; try reflexivity; try discriminate. exact Hv.
    + reflexivity.
  - unfold cookie_pair. simpl. exact Hv.
Qed.

Lemma unlock_sets_cookie_witness :
  exists r,
    serve_handler scripted_site site_platform unlock_request empty_world =
      (empty_world, Returned r) /\
    status r = status public_page /\ body r = body public_page /\
    Headers_get (headers r) "set-cookie" = Some "key=unlock; SameSite=None; Secure" /\
    forall name, byteLowerCase name <> "set-cookie" ->
      Headers_get (headers r) name = Headers_get (headers public_page) name.
Proof.
  apply (unlock_sets_cookie scripted_site site_platform unlock_request empty_world []
           {| pathname := "/"; search := "?unlock"; searchParams := [("unlock", "")] |}
           public_page); reflexivity.
Defined.

Lemma key_cookie_unlocks_witness :
  exists cookies,
    getCookies [("Cookie", "key=unlock")] = inr cookies /\
    unlocked scripted_site cookies = String.eqb "unlock" (cfg_key (config scripted_site)).
Proof.
  apply (key_cookie_unlocks scripted_site [("Cookie", "key=unlock")] "unlock");
    reflexivity.
Defined.

(** ** [encoding/hex.ts] *)

Lemma hexTable_entry k :
  (0 <= Hex.to_int32 (Hex.hexTable !! k) < 256)%Z.
Proof.
  do 16 (destruct k as [|k]; [vm_compute; split; [discriminate | reflexivity]|]).
  vm_compute. split; [discriminate | reflexivity].
Qed.

Lemma store_table dst j k :
  Hex.store dst j (Hex.hexTable !! k) = <[j := Hex.to_int32 (Hex.hexTable !! k)]> dst.
Proof.
  unfold Hex.store. f_equal. apply Z.mod_small, hexTable_entry.
Qed.

Lemma length_digits src : length (flat_map Hex.digits src) = length src * 2.
Proof. induction src as [|b src IH]; simpl; [reflexivity|]. rewrite IH. lia. Qed.

Lemma flat_map_digits_app a b :
  flat_map Hex.digits (a ++ b) = flat_map Hex.digits a ++ flat_map Hex.digits b.
Proof. apply flat_map_app. Qed.

(** The turns of [encode] that find a byte write its two digits. *)
Lemma encode_fills rest : forall pre,
  fold_left (Hex.encode_step (pre ++ rest)) (seq (length pre) (length rest))
    (flat_map Hex.digits pre ++ replicate (length rest * 2) 0%Z)
  = flat_map Hex.digits (pre ++ rest).
Proof.
  induction rest as [|b rest IH]; intros pre.
  - simpl. by rewrite !app_nil_r.
  - change (seq (length pre) (length (b :: rest)))
      with (length pre :: seq (S (length pre)) (length rest)).
    cbn [fold_left].
    assert (Hstep : Hex.encode_step (pre ++ b :: rest)
                      (flat_map Hex.digits pre ++ replicate (length (b :: rest) * 2) 0%Z)
                      (length pre)
                    = flat_map Hex.digits (pre ++ [b]) ++ replicate (length rest * 2) 0%Z).
    { unfold Hex.encode_step.
      rewrite lookup_app_r by lia. rewrite Nat.sub_diag. simpl lookup.
      rewrite !store_table.
      replace (length pre * 2) with (length (flat_map Hex.digits pre) + 0)
        by (rewrite length_digits; lia).
      rewrite insert_app_r.
      replace (length (flat_map Hex.digits pre) + 0 + 1)
        with (length (flat_map Hex.digits pre) + 1) by lia.
      rewrite insert_app_r.
      rewrite flat_map_digits_app, <- app_assoc. f_equal. }
    rewrite Hstep.
    replace (pre ++ b :: rest) with ((pre ++ [b]) ++ rest) by (by rewrite <- app_assoc).
    replace (S (length pre)) with (length (pre ++ [b])) by (rewrite length_app; simpl; lia).
    apply IH.
Qed.

(** The other turns write past the end: they change nothing. *)
Lemma encode_overrun src idxs : forall dst,
  List.Forall (fun i => length dst <= i * 2) idxs ->
  fold_left (Hex.encode_step src) idxs dst = dst.
Proof.
  induction idxs as [|i idxs IH]; intros dst Hi; simpl; [reflexivity|].
  inversion Hi as [|? ? H1 H2]; subst.
  assert (Hstep : Hex.encode_step src dst i = dst).
  { unfold Hex.encode_step, Hex.store.
    rewrite (list_insert_ge dst (i * 2)) by lia.
    apply list_insert_ge. lia. }
  rewrite Hstep. by apply IH.
Qed.

(** The loop of [encode] as a whole: the turns over the input write its
    digits, the surplus turns change nothing. *)
Lemma encode_flat_map src : Hex.encode src = flat_map Hex.digits src.
Proof.
  unfold Hex.encode. rewrite length_replicate.
  replace (length src * 2) with (length src + length src) by lia.
  rewrite seq_app, fold_left_app. simpl.
  pose proof (encode_fills src []) as Hfill. simpl in Hfill.
  replace (length src + length src) with (length src * 2) by lia.
  rewrite Hfill. apply encode_overrun.
  rewrite List.Forall_forall. intros i Hin. apply in_seq in Hin.
  rewrite length_digits. lia.
Qed.

(** X13: [encode] writes, for each byte of its input in turn, the two
    lower-case hex digits of the byte, high half first, and nothing else:
    the result is twice as long as the input (the loop's surplus turns,
    which read and write past the ends, leave no trace). *)
Theorem hex_encode_digits (src : list Z) :
  Hex.encode src = flat_map Hex.digits src /\
  length (Hex.encode src) = length src * 2.
Proof.
  split; [apply encode_flat_map|]. rewrite encode_flat_map. apply length_digits.
Qed.

(** Every byte is recovered from its two digits (checked on all 256). *)
Lemma digits_recover_all :
  forallb (fun k =>
             let b := Z.of_nat k in
             match Hex.fromHexChar (Hex.to_int32 (Hex.hexTable !! Z.to_nat (Z.shiftr b 4))),
                   Hex.fromHexChar (Hex.to_int32 (Hex.hexTable !! Z.to_nat (Z.land b 15)))
             with
             | inr a, inr c => Z.eqb (Z.lor (Z.shiftl a 4) c mod 256) b
             | _, _ => false
             end) (seq 0 256) = true.
Proof. vm_compute. reflexivity. Qed.

Lemma digits_recover b :
  (0 <= b < 256)%Z ->
  exists a c,
    Hex.fromHexChar (Hex.to_int32 (Hex.hexTable !! Z.to_nat (Z.shiftr b 4))) = inr a /\
    Hex.fromHexChar (Hex.to_int32 (Hex.hexTable !! Z.to_nat (Z.land b 15))) = inr c /\
    (Z.lor (Z.shiftl a 4) c mod 256)%Z = b.
Proof.
  intros Hb. pose proof digits_recover_all as H.
  rewrite forallb_forall in H. specialize (H (Z.to_nat b)).
  rewrite Z2Nat.id in H by lia.
  assert (Hin : In (Z.to_nat b) (seq 0 256)) by (apply in_seq; lia).
  specialize (H Hin). cbv zeta in H.
  destruct (Hex.fromHexChar _) as [|a]; [discriminate|].
  destruct (Hex.fromHexChar _) as [|c]; [discriminate|].
  exists a, c. repeat split. by apply Z.eqb_eq.
Qed.

(** The turns of [decode] over digits written by [encode]. *)
Lemma decode_fills rest : forall pre,
  Hex.is_bytes rest ->
  fold_left (Hex.decode_step (flat_map Hex.digits (pre ++ rest)))
    (seq (length pre) (length rest)) (inr (pre ++ replicate (length rest) 0%Z))
  = inr (pre ++ rest).
Proof.
  induction rest as [|b rest IH]; intros pre Hbytes.
  - simpl. reflexivity.
  - inversion Hbytes as [|? ? Hb Hrest]; subst.
    change (seq (length pre) (length (b :: rest)))
      with (length pre :: seq (S (length pre)) (length rest)).
    cbn [fold_left].
    assert (Hstep : Hex.decode_step (flat_map Hex.digits (pre ++ b :: rest))
                      (inr (pre ++ replicate (length (b :: rest)) 0%Z)) (length pre)
                    = inr ((pre ++ [b]) ++ replicate (length rest) 0%Z)).
    { unfold Hex.decode_step.
      rewrite flat_map_digits_app.
      rewrite !lookup_app_r by (rewrite length_digits; lia).
      rewrite length_digits.
      replace (length pre * 2 - length pre * 2) with 0 by lia.
      replace (length pre * 2 + 1 - length pre * 2) with 1 by lia.
      cbn [flat_map Hex.digits app lookup list_lookup Hex.to_int32 default].
      destruct (digits_recover b Hb) as (a & c & Ha & Hc & Hlor).
      unfold id. rewrite Ha, Hc.
      unfold Hex.store. cbn [Hex.to_int32 default id]. unfold id. rewrite Hlor.
      rewrite insert_app_r_alt by lia. rewrite Nat.sub_diag.
      cbn [replicate length]. rewrite <- app_assoc. reflexivity. }
    rewrite Hstep.
    replace (pre ++ b :: rest) with ((pre ++ [b]) ++ rest) by (by rewrite <- app_assoc).
    replace (S (length pre)) with (length (pre ++ [b])) by (rewrite length_app; simpl; lia).
    by apply IH.
Qed.

(** X14: [decode] undoes [encode]: for every array of bytes,
    [decode(encode(src))] returns [src]. *)
Theorem hex_decode_encode (src : list Z) :
  Hex.is_bytes src -> Hex.decode (Hex.encode src) = inr src.
Proof.
  intros Hb.
  rewrite encode_flat_map. unfold Hex.decode. rewrite length_digits, length_replicate.
  replace (length src * 2 / 2) with (length src) by (symmetry; apply Nat.div_mul; lia).
  pose proof (decode_fills src [] Hb) as Hfill. simpl in Hfill. rewrite Hfill.
  replace (length src * 2 mod 2) with 0 by (symmetry; apply Nat.Div0.mod_mul).
  reflexivity.
Qed.

Lemma hex_decode_encode_witness :
  Hex.decode (Hex.encode [0; 15; 16; 171; 255]%Z) = inr [0; 15; 16; 171; 255]%Z.
Proof.
  apply (hex_decode_encode [0; 15; 16; 171; 255]%Z).
  repeat constructor; discriminate.
Defined.

Example hex_encode_example :
  Hex.encode [97; 98; 99]%Z = [54; 49; 54; 50; 54; 51]%Z.
Proof. reflexivity. Qed.

Lemma fromHexChar_ok c :
  Hex.is_hex c = true -> exists a, Hex.fromHexChar c = inr a.
Proof.
  unfold Hex.is_hex, Hex.fromHexChar. intros H.
  destruct ((48 <=? c)%Z && (c <=? 57)%Z); [eauto|].
  destruct ((97 <=? c)%Z && (c <=? 102)%Z); [eauto|].
  destruct ((65 <=? c)%Z && (c <=? 70)%Z); [eauto|discriminate].
Qed.

Lemma fromHexChar_err c e :
  Hex.fromHexChar c = inl e -> Hex.is_hex c = false /\ e = Hex.errInvalidByte c.
Proof.
  unfold Hex.is_hex, Hex.fromHexChar.
  destruct ((48 <=? c)%Z && (c <=? 57)%Z); [discriminate|].
  destruct ((97 <=? c)%Z && (c <=? 102)%Z); [discriminate|].
  destruct ((65 <=? c)%Z && (c <=? 70)%Z); [discriminate|].
  intros [= <-]. split; reflexivity.
Qed.

Lemma fromHexChar_inr c a : Hex.fromHexChar c = inr a -> Hex.is_hex c = true.
Proof.
  intros H. destruct (Hex.is_hex c) eqn:E; [reflexivity|].
  unfold Hex.is_hex, Hex.fromHexChar in *.
  destruct ((48 <=? c)%Z && (c <=? 57)%Z); [discriminate|].
  destruct ((97 <=? c)%Z && (c <=? 102)%Z); [discriminate|].
  destruct ((65 <=? c)%Z && (c <=? 70)%Z); discriminate.
Qed.

Lemma decode_fold_inl src idxs e :
  fold_left (Hex.decode_step src) idxs (inl e) = inl e.
Proof. induction idxs as [|i idxs IH]; simpl; [reflexivity | exact IH]. Qed.

(** What the loop of [decode] does on a list of turns: it ends normally,
    with an array of the same length, exactly when both characters of each
    turn are hex digits; otherwise it throws for a character of some turn
    that is none. *)
Lemma decode_fold_cases src idxs : forall dst,
  (exists dst',
      fold_left (Hex.decode_step src) idxs (inr dst) = inr dst' /\
      length dst' = length dst /\
      forall i, In i idxs ->
        Hex.is_hex (Hex.to_int32 (src !! (i * 2))) = true /\
        Hex.is_hex (Hex.to_int32 (src !! (i * 2 + 1))) = true) \/
  (exists i c,
      fold_left (Hex.decode_step src) idxs (inr dst) = inl (Hex.errInvalidByte c) /\
      In i idxs /\ Hex.is_hex c = false /\
      (c = Hex.to_int32 (src !! (i * 2)) \/ c = Hex.to_int32 (src !! (i * 2 + 1)))).
Proof.
  induction idxs as [|i idxs IH]; intros dst.
  - left. exists dst. split; [reflexivity|]. split; [reflexivity|]. intros j [].
  - cbn [fold_left].
    set (r := Hex.decode_step src (inr dst) i).
    assert (Hr : r = Hex.decode_step src (inr dst) i) by reflexivity.
    clearbody r. unfold Hex.decode_step in Hr.
    destruct (Hex.fromHexChar (Hex.to_int32 (src !! (i * 2)))) as [e|a] eqn:Ea.
    { right. subst r. rewrite decode_fold_inl.
      apply fromHexChar_err in Ea. destruct Ea as [Hn ->].
      exists i, (Hex.to_int32 (src !! (i * 2))).
      split; [reflexivity|]. split; [by left|]. split; [exact Hn|by left]. }
    destruct (Hex.fromHexChar (Hex.to_int32 (src !! (i * 2 + 1)))) as [e|b] eqn:Eb.
    { right. subst r. rewrite decode_fold_inl.
      apply fromHexChar_err in Eb. destruct Eb as [Hn ->].
      exists i, (Hex.to_int32 (src !! (i * 2 + 1))).
      split; [reflexivity|]. split; [by left|]. split; [exact Hn|by right]. }
    subst r.
    destruct (IH (Hex.store dst i (Some (Z.lor (Z.shiftl a 4) b))))
      as [(dst' & Hf & Hl & Hall) | (j & c & Hf & Hin & Hn & Hc)].
    + left. exists dst'. split; [exact Hf|]. split.
      * rewrite Hl. unfold Hex.store. apply length_insert.
      * intros j [<-|Hin]; [|by apply Hall].
        split; eapply fromHexChar_inr; eassumption.
    + right. exists j, c. repeat split; auto. by right.
Qed.

Lemma hex_chars_lookup src :
  forallb Hex.is_hex src = true <->
  forall j, j < length src -> Hex.is_hex (Hex.to_int32 (src !! j)) = true.
Proof.
  rewrite forallb_forall. split.
  - intros H j Hj. destruct (lookup_lt_is_Some_2 src j Hj) as [c Hc].
    rewrite Hc. simpl. apply H. apply list_elem_of_In. eapply list_elem_of_lookup_2.
    exact Hc.
  - intros H c Hin. apply list_elem_of_In, list_elem_of_lookup_1 in Hin.
    destruct Hin as [j Hj]. specialize (H j (lookup_lt_Some _ _ _ Hj)).
    by rewrite Hj in H.
Qed.

Lemma pair_index n j : j < n / 2 * 2 -> j = j / 2 * 2 \/ j = j / 2 * 2 + 1.
Proof.
  intros _. pose proof (Nat.div_mod_eq j 2) as H.
  pose proof (Nat.mod_upper_bound j 2) as Hu. lia.
Qed.

Lemma decode_fold_ok src idxs dst :
  (forall i, In i idxs ->
     Hex.is_hex (Hex.to_int32 (src !! (i * 2))) = true /\
     Hex.is_hex (Hex.to_int32 (src !! (i * 2 + 1))) = true) ->
  exists dst', fold_left (Hex.decode_step src) idxs (inr dst) = inr dst' /\
               length dst' = length dst.
Proof.
  intros Hall.
  destruct (decode_fold_cases src idxs dst)
    as [(dst' & Hf & Hl & _) | (i & c & _ & Hin & Hn & Hc)]; [eauto|].
  exfalso. destruct (Hall i Hin) as [H1 H2].
  destruct Hc as [-> | ->]; congruence.
Qed.

Lemma find_first {A} (p : A -> bool) (l : list A) (c : A) :
  find p l = Some c ->
  exists k, l !! k = Some c /\ p c = true /\
            forall j x, j < k -> l !! j = Some x -> p x = false.
Proof.
  induction l as [|a l IH]; [discriminate|]. simpl.
  destruct (p a) eqn:Ea.
  - intros [= ->]. exists 0. split; [reflexivity|]. split; [exact Ea|]. intros; lia.
  - intros H. destruct (IH H) as (k & Hk & Hp & Hbefore).
    exists (S k). split; [exact Hk|]. split; [exact Hp|].
    intros [|j] x Hj Hx; [by injection Hx as <-|].
    apply (Hbefore j x); [lia | exact Hx].
Qed.

(** What a normal return of [decode] tells about its input. *)
Lemma decode_inr_inv src dst :
  Hex.decode src = inr dst ->
  length src mod 2 = 0 /\ forallb Hex.is_hex src = true /\
  length dst = length src / 2.
Proof.
  unfold Hex.decode. rewrite length_replicate.
  pose proof (Nat.mod_upper_bound (length src) 2 ltac:(lia)) as Hm.
  pose proof (Nat.div_mod_eq (length src) 2) as Hdm.
  destruct (decode_fold_cases src (seq 0 (length src / 2))
              (replicate (length src / 2) 0%Z))
    as [(dst' & Hf & Hl & Hall) | (i & c & Hf & Hin & Hn & Hc)]; rewrite Hf;
    [|discriminate].
  rewrite length_replicate in Hl.
  destruct (Nat.eqb_spec (length src mod 2) 1) as [Hodd|Heven].
  { destruct (Hex.fromHexChar _); discriminate. }
  intros [= <-]. split; [lia|]. split; [|exact Hl].
  apply hex_chars_lookup. intros j Hj.
  assert (Hj' : j / 2 < length src / 2) by (apply Nat.Div0.div_lt_upper_bound; lia).
  destruct (Hall (j / 2) ltac:(apply in_seq; lia)) as [H1 H2].
  destruct (pair_index (length src) j ltac:(lia)) as [E|E]; rewrite E; assumption.
Qed.

(** X15: [decode] returns exactly on inputs of even length made of hex
    digits of either case, and the array it returns has half the length of
    the input. *)
Theorem hex_decode_success (src : list Z) :
  ((exists dst, Hex.decode src = inr dst) <->
   length src mod 2 = 0 /\ forallb Hex.is_hex src = true) /\
  (forall dst, Hex.decode src = inr dst -> length dst = length src / 2).
Proof.
  split; [split|].
  - intros [dst Hd]. apply decode_inr_inv in Hd. tauto.
  - intros [He Hhex]. rewrite hex_chars_lookup in Hhex.
    pose proof (Nat.div_mod_eq (length src) 2) as Hdm.
    unfold Hex.decode. rewrite length_replicate.
    destruct (decode_fold_ok src (seq 0 (length src / 2))
                (replicate (length src / 2) 0%Z)) as (dst' & -> & _).
    { intros i Hi. apply in_seq in Hi. split; apply Hhex; lia. }
    rewrite He. cbn [Nat.eqb]. eauto.
  - intros dst Hd. apply decode_inr_inv in Hd. tauto.
Qed.

Lemma hex_decode_success_witness :
  exists dst, Hex.decode [52; 49; 54; 70]%Z = inr dst /\ length dst = 2.
Proof.
  destruct (hex_decode_success [52; 49; 54; 70]%Z) as [[_ H] Hl].
  destruct H as [dst Hd]; [split; reflexivity|].
  exists dst. split; [exact Hd | exact (Hl dst Hd)].
Defined.

Lemma seq_middle i n :
  i < n -> seq 0 n = seq 0 i ++ i :: seq (S i) (n - S i).
Proof.
  intros H. replace n with (i + S (n - S i)) at 1 by lia.
  rewrite seq_app. reflexivity.
Qed.

(** X16: a character that is no hex digit makes [decode] throw the
    [TypeError] that names the first such character of the input, also when
    the length of the input is odd. *)
Theorem hex_decode_invalid_byte (src : list Z) (c : Z)
  (Hbad : find (fun c => negb (Hex.is_hex c)) src = Some c) :
  Hex.decode src = inl (Hex.errInvalidByte c).
Proof.
  apply find_first in Hbad. destruct Hbad as (k & Hk & Hc & Hbefore).
  apply negb_true_iff in Hc.
  assert (Hhex : forall j, j < k -> Hex.is_hex (Hex.to_int32 (src !! j)) = true).
  { intros j Hj. pose proof (lookup_lt_Some _ _ _ Hk) as Hlen.
    destruct (lookup_lt_is_Some_2 src j ltac:(lia)) as [x Hx].
    rewrite Hx. simpl. specialize (Hbefore j x Hj Hx).
    by apply negb_false_iff in Hbefore. }
  pose proof (lookup_lt_Some _ _ _ Hk) as Hlen.
  pose proof (Nat.div_mod_eq (length src) 2) as Hdm.
  pose proof (Nat.mod_upper_bound (length src) 2 ltac:(lia)) as Hm.
  pose proof (Nat.div_mod_eq k 2) as Hkdm.
  pose proof (Nat.mod_upper_bound k 2 ltac:(lia)) as Hkm.
  assert (Hrd : Hex.to_int32 (src !! k) = c) by (by rewrite Hk).
  unfold Hex.decode. rewrite length_replicate.
  destruct (Nat.lt_ge_cases (k / 2) (length src / 2)) as [Hin|Hlast].
  - replace (seq 0 (length src / 2))
      with (seq 0 (k / 2) ++ k / 2 :: seq (S (k / 2)) (length src / 2 - S (k / 2))).
    2:{ symmetry. apply seq_middle. exact Hin. }
    rewrite fold_left_app.
    destruct (decode_fold_ok src (seq 0 (k / 2)) (replicate (length src / 2) 0%Z))
      as (dst' & -> & _).
    { intros i Hi. apply in_seq in Hi. split; apply Hhex; lia. }
    cbn [fold_left].
    set (r := Hex.decode_step src (inr dst') (k / 2)).
    assert (Hr : r = Hex.decode_step src (inr dst') (k / 2)) by reflexivity.
    clearbody r. unfold Hex.decode_step in Hr.
    destruct (Nat.eq_dec (k mod 2) 0) as [Heven|Hodd].
    + replace (k / 2 * 2) with k in Hr by lia. rewrite Hrd in Hr.
      destruct (Hex.fromHexChar c) as [e|a] eqn:Ea.
      * apply fromHexChar_err in Ea. destruct Ea as [_ ->].
        subst r. by rewrite decode_fold_inl.
      * apply fromHexChar_inr in Ea. congruence.
    + destruct (fromHexChar_ok (Hex.to_int32 (src !! (k / 2 * 2)))) as [a Ea].
      { apply Hhex. lia. }
      rewrite Ea in Hr. replace (k / 2 * 2 + 1) with k in Hr by lia.
      rewrite Hrd in Hr.
      destruct (Hex.fromHexChar c) as [e|b] eqn:Eb.
      * apply fromHexChar_err in Eb. destruct Eb as [_ ->].
        subst r. by rewrite decode_fold_inl.
      * apply fromHexChar_inr in Eb. congruence.
  - assert (Hk2 : k = length src / 2 * 2 /\ length src mod 2 = 1) by lia.
    destruct Hk2 as [Hk2 Hodd].
    destruct (decode_fold_ok src (seq 0 (length src / 2))
                (replicate (length src / 2) 0%Z)) as (dst' & -> & Hl).
    { intros i Hi. apply in_seq in Hi. split; apply Hhex; lia. }
    rewrite Hodd. cbn [Nat.eqb]. rewrite Hl, length_replicate, <- Hk2, Hrd.
    destruct (Hex.fromHexChar c) as [e|a] eqn:Ea.
    + apply fromHexChar_err in Ea. by destruct Ea as [_ ->].
    + apply fromHexChar_inr in Ea. congruence.
Qed.

Lemma hex_decode_invalid_byte_witness :
  Hex.decode [52; 49; 120; 70; 122]%Z = inl (Hex.errInvalidByte 120).
Proof. apply hex_decode_invalid_byte. reflexivity. Defined.

(** X17: an input of hex digits of odd length makes [decode] throw the
    [RangeError] "Odd length hex string". *)
Theorem hex_decode_odd_length (src : list Z)
  (Hhex : forallb Hex.is_hex src = true)
  (Hodd : length src mod 2 = 1) :
  Hex.decode src = inl Hex.errLength.
Proof.
  rewrite hex_chars_lookup in Hhex.
  pose proof (Nat.div_mod_eq (length src) 2) as Hdm.
  unfold Hex.decode. rewrite length_replicate.
  destruct (decode_fold_ok src (seq 0 (length src / 2))
              (replicate (length src / 2) 0%Z)) as (dst' & -> & Hl).
  { intros i Hi. apply in_seq in Hi. split; apply Hhex; lia. }
  rewrite Hodd. cbn [Nat.eqb]. rewrite Hl, length_replicate.
  destruct (fromHexChar_ok (Hex.to_int32 (src !! (length src / 2 * 2)))) as [a ->];
    [apply Hhex; lia | reflexivity].
Qed.

Lemma hex_decode_odd_length_witness :
  Hex.decode [52; 49; 54]%Z = inl Hex.errLength.
Proof. apply hex_decode_odd_length; reflexivity. Defined.

Lemma decode_step_inr src dst i r :
  Hex.decode_step src (inr dst) i = inr r ->
  exists a b,
    Hex.fromHexChar (Hex.to_int32 (src !! (i * 2))) = inr a /\
    Hex.fromHexChar (Hex.to_int32 (src !! (i * 2 + 1))) = inr b /\
    r = Hex.store dst i (Some (Z.lor (Z.shiftl a 4) b)).
Proof.
  unfold Hex.decode_step.
  destruct (Hex.fromHexChar (Hex.to_int32 (src !! (i * 2)))) as [|a]; [discriminate|].
  destruct (Hex.fromHexChar (Hex.to_int32 (src !! (i * 2 + 1)))) as [|b]; [discriminate|].
  intros [= <-]. eauto.
Qed.

(** The loop of [decode] writes only at the indices of its turns. *)
Lemma decode_fold_frame src idxs : forall dst dst',
  fold_left (Hex.decode_step src) idxs (inr dst) = inr dst' ->
  forall j, ~ In j idxs -> dst' !! j = dst !! j.
Proof.
  induction idxs as [|i idxs IH]; intros dst dst' H j Hj.
  - by injection H as <-.
  - cbn [fold_left] in H.
    destruct (Hex.decode_step src (inr dst) i) as [e|r] eqn:Es;
      [rewrite decode_fold_inl in H; discriminate|].
    apply decode_step_inr in Es. destruct Es as (a & b & _ & _ & ->).
    rewrite (IH _ _ H j) by (intros Hin; apply Hj; by right).
    unfold Hex.store. apply list_lookup_insert_ne. intros ->. apply Hj. by left.
Qed.

(** What each turn of [decode] leaves in the array. *)
Lemma decode_fold_lookup src idxs : forall dst dst',
  List.NoDup idxs ->
  (forall i, In i idxs -> i < length dst) ->
  fold_left (Hex.decode_step src) idxs (inr dst) = inr dst' ->
  forall i, In i idxs ->
    exists a b,
      Hex.fromHexChar (Hex.to_int32 (src !! (i * 2))) = inr a /\
      Hex.fromHexChar (Hex.to_int32 (src !! (i * 2 + 1))) = inr b /\
      dst' !! i = Some (Z.lor (Z.shiftl a 4) b mod 256)%Z.
Proof.
  induction idxs as [|i idxs IH]; intros dst dst' Hnd Hlt H j Hj; [destruct Hj|].
  inversion Hnd as [|? ? Hni Hnd']; subst.
  cbn [fold_left] in H.
  destruct (Hex.decode_step src (inr dst) i) as [e|r] eqn:Es;
    [rewrite decode_fold_inl in H; discriminate|].
  apply decode_step_inr in Es. destruct Es as (a & b & Ha & Hb & ->).
  destruct (Nat.eq_dec i j) as [<-|Hne].
  - exists a, b. split; [exact Ha|]. split; [exact Hb|].
    rewrite (decode_fold_frame _ _ _ _ H i Hni).
    unfold Hex.store. apply list_lookup_insert_eq. apply Hlt. by left.
  - destruct Hj as [->|Hj]; [congruence|].
    apply (IH _ _ Hnd') with (i := j) in H; [exact H | | exact Hj].
    intros k Hk. unfold Hex.store. rewrite length_insert. apply Hlt. by right.
Qed.

Lemma lookup_flat_map_digits l : forall j,
  flat_map Hex.digits l !! j = b ← l !! (j / 2); Hex.digits b !! (j mod 2).
Proof.
  induction l as [|b l IH]; intros j; [reflexivity|].
  destruct j as [|[|j]]; [reflexivity | reflexivity |].
  change (flat_map Hex.digits (b :: l) !! S (S j)) with (flat_map Hex.digits l !! j).
  rewrite IH.
  replace (S (S j)) with (j + 1 * 2) by lia.
  rewrite Nat.div_add, Nat.Div0.mod_add by lia.
  replace (j / 2 + 1) with (S (j / 2)) by lia. reflexivity.
Qed.

(** The digits written for the byte of two hex digits are these digits in
    lower case (checked on all pairs of characters below 128). *)
Lemma digits_of_pair_all :
  forallb (fun x =>
    forallb (fun y =>
      match Hex.fromHexChar (Z.of_nat x), Hex.fromHexChar (Z.of_nat y) with
      | inr a, inr b =>
          match Hex.digits (Z.lor (Z.shiftl a 4) b mod 256) with
          | [p; q] => Z.eqb p (Hex.lower_digit (Z.of_nat x)) &&
                      Z.eqb q (Hex.lower_digit (Z.of_nat y))
          | _ => false
          end
      | _, _ => true
      end) (seq 0 128)) (seq 0 128) = true.
Proof. vm_compute. reflexivity. Qed.

Lemma fromHexChar_range c a : Hex.fromHexChar c = inr a -> (0 <= c < 128)%Z.
Proof.
  unfold Hex.fromHexChar.
  destruct ((48 <=? c)%Z && (c <=? 57)%Z) eqn:E1;
    [rewrite andb_true_iff, !Z.leb_le in E1; lia|].
  destruct ((97 <=? c)%Z && (c <=? 102)%Z) eqn:E2;
    [rewrite andb_true_iff, !Z.leb_le in E2; lia|].
  destruct ((65 <=? c)%Z && (c <=? 70)%Z) eqn:E3;
    [rewrite andb_true_iff, !Z.leb_le in E3; lia|discriminate].
Qed.

Lemma digits_of_pair x y a b :
  Hex.fromHexChar x = inr a -> Hex.fromHexChar y = inr b ->
  Hex.digits (Z.lor (Z.shiftl a 4) b mod 256) = [Hex.lower_digit x; Hex.lower_digit y].
Proof.
  intros Ha Hb.
  pose proof (fromHexChar_range _ _ Ha) as Hx.
  pose proof (fromHexChar_range _ _ Hb) as Hy.
  pose proof digits_of_pair_all as H.
  rewrite forallb_forall in H. specialize (H (Z.to_nat x) ltac:(apply in_seq; lia)).
  rewrite forallb_forall in H. specialize (H (Z.to_nat y) ltac:(apply in_seq; lia)).
  rewrite !Z2Nat.id in H by lia. rewrite Ha, Hb in H.
  destruct (Hex.digits _) as [|p [|q [|]]]; try discriminate.
  apply andb_true_iff in H. destruct H as [Hp Hq].
  apply Z.eqb_eq in Hp, Hq. by subst.
Qed.

(** X18: [encode] undoes [decode] up to the case of the letters: when
    [decode(src)] returns [dst], [encode(dst)] is [src] with its upper-case
    hex letters made lower-case. *)
Theorem hex_encode_decode (src dst : list Z)
  (Hdec : Hex.decode src = inr dst) :
  Hex.encode dst = map Hex.lower_digit src.
Proof.
  destruct (decode_inr_inv _ _ Hdec) as (Heven & _ & Hlen).
  pose proof (Nat.div_mod_eq (length src) 2) as Hdm.
  unfold Hex.decode in Hdec. rewrite length_replicate in Hdec.
  destruct (fold_left _ _ _) as [e|dst'] eqn:Hfold; [discriminate|].
  rewrite Heven in Hdec. cbn [Nat.eqb] in Hdec. injection Hdec as ->.
  rewrite encode_flat_map.
  apply (list_eq_same_length _ _ (length src)).
  { by rewrite length_map. }
  { rewrite length_digits. lia. }
  intros j p q Hj Hp Hq.
  rewrite lookup_flat_map_digits in Hp.
  assert (Hj2 : j / 2 < length src / 2) by (apply Nat.Div0.div_lt_upper_bound; lia).
  assert (Hbound : forall i, In i (seq 0 (length src / 2)) ->
                   i < length (replicate (length src / 2) 0%Z)).
  { intros i Hi. apply in_seq in Hi. rewrite length_replicate. lia. }
  assert (Hturn : In (j / 2) (seq 0 (length src / 2))) by (apply in_seq; lia).
  destruct (decode_fold_lookup _ _ _ _ (seq_NoDup _ _) Hbound Hfold (j / 2) Hturn)
    as (a & b & Ha & Hb & Hd).
  rewrite Hd in Hp. cbn [mbind option_bind] in Hp.
  rewrite (digits_of_pair _ _ _ _ Ha Hb) in Hp.
  rewrite list_lookup_fmap in Hq.
  pose proof (Nat.div_mod_eq j 2) as Hjdm.
  pose proof (Nat.mod_upper_bound j 2 ltac:(lia)) as Hjm.
  destruct (lookup_lt_is_Some_2 src j Hj) as [c Hc].
  rewrite Hc in Hq. injection Hq as <-.
  destruct (Nat.eq_dec (j mod 2) 0) as [E|E].
  - rewrite E in Hp.
    change (Some (Hex.lower_digit (Hex.to_int32 (src !! (j / 2 * 2)))) = Some p) in Hp.
    replace (j / 2 * 2) with j in Hp by lia. rewrite Hc in Hp. by injection Hp.
  - replace (j mod 2) with 1 in Hp by lia.
    change (Some (Hex.lower_digit (Hex.to_int32 (src !! (j / 2 * 2 + 1)))) = Some p) in Hp.
    replace (j / 2 * 2 + 1) with j in Hp by lia. rewrite Hc in Hp. by injection Hp.
Qed.

Lemma hex_encode_decode_witness :
  Hex.encode [171; 205]%Z = map Hex.lower_digit [65; 98; 67; 68]%Z.
Proof. apply (hex_encode_decode [65; 98; 67; 68]%Z). reflexivity. Defined.

(** ** [http/util.ts] *)

Lemma weak_tag a : startsWith a "W/" = true -> a = "W/" +:+ slice 2 a.
Proof.
  unfold startsWith. destruct a as [|c1 [|c2 r]]; cbn [String.prefix slice];
    try discriminate.
  - destruct (ascii_dec "W" c1); discriminate.
  - destruct (ascii_dec "W" c1) as [<-|]; [|discriminate].
    destruct (ascii_dec "/" c2) as [<-|]; [|discriminate].
    reflexivity.
Qed.

(** [compareEtag] compares the tags with the weak mark taken off. *)
Lemma compareEtag_opaque a b :
  compareEtag a b = true <-> opaque_tag a = opaque_tag b.
Proof.
  unfold compareEtag, opaque_tag.
  destruct (String.eqb_spec a b) as [->|Hne]; [tauto|].
  destruct (startsWith a "W/") eqn:Ea, (startsWith b "W/") eqn:Eb; cbn [andb negb].
  - split; [discriminate|]. intros H. exfalso. apply Hne.
    rewrite (weak_tag a Ea), (weak_tag b Eb). by rewrite H.
  - apply String.eqb_eq.
  - apply String.eqb_eq.
  - split; [discriminate | intros H; contradiction].
Qed.

(** X19: [compareEtag] is an equivalence on entity tags: every tag matches
    itself, the order of the two arguments does not matter, and two tags
    that match a third match each other. *)
Theorem compareEtag_equivalence :
  (forall a, compareEtag a a = true) /\
  (forall a b, compareEtag a b = compareEtag b a) /\
  (forall a b c, compareEtag a b = true -> compareEtag b c = true ->
                 compareEtag a c = true).
Proof.
  split; [|split].
  - intros a. by apply compareEtag_opaque.
  - intros a b. apply eq_true_iff_eq. rewrite !compareEtag_opaque. split; congruence.
  - intros a b c. rewrite !compareEtag_opaque. congruence.
Qed.

Lemma compareEtag_equivalence_witness : compareEtag "W/a" "W/a" = true.
Proof.
  destruct compareEtag_equivalence as (_ & _ & Htrans).
  apply (Htrans "W/a" "a" "W/a"); reflexivity.
Defined.

(** X20: a weak tag matches the strong tag it marks, in either order, and
    two tags of the same kind match only when they are equal. *)
Theorem compareEtag_weak (a b : string) :
  compareEtag ("W/" +:+ a) a = negb (startsWith a "W/") /\
  (startsWith a "W/" = startsWith b "W/" ->
   compareEtag a b = String.eqb a b).
Proof.
  split.
  - unfold compareEtag.
    destruct (String.eqb_spec ("W/" +:+ a) a) as [E|_].
    + exfalso. change ("W/" +:+ a) with (String "W" (String "/" a)) in E.
      apply (f_equal String.length) in E. simpl in E. lia.
    + assert (Hw : startsWith ("W/" +:+ a) "W/" = true) by (by destruct a).
      rewrite Hw. change (slice 2 ("W/" +:+ a)) with a.
      destruct (startsWith a "W/"); cbn [andb negb]; [reflexivity|].
      apply String.eqb_refl.
  - intros Hk. unfold compareEtag.
    destruct (String.eqb_spec a b); [reflexivity|].
    rewrite Hk. by destruct (startsWith b "W/").
Qed.

Lemma compareEtag_weak_witness :
  compareEtag ("W/" +:+ "abc") "abc" = negb (startsWith "abc" "W/") /\
  compareEtag "abc" "abd" = String.eqb "abc" "abd".
Proof.
  destruct (compareEtag_weak "abc" "abd") as [H1 H2].
  split; [exact H1 | apply H2; reflexivity].
Defined.

(** ** [collections] and [dotenv/mod.ts] *)

Lemma filterValues_assign p record :
  filterValues record p = obj_assign [] (List.filter (fun e => p (snd e)) record).
Proof.
  unfold filterValues, obj_assign.
  assert (H : forall acc : JsObject,
             fold_left (fun ret e => if p (snd e) then obj_set (fst e) (snd e) ret else ret)
               record acc =
             fold_left (fun o e => obj_set (fst e) (snd e) o)
               (List.filter (fun e => p (snd e)) record) acc); [|apply H].
  induction record as [|[k v] r IH]; intros acc; [reflexivity|].
  cbn [fold_left List.filter snd fst]. destruct (p v); cbn [fold_left fst snd]; apply IH.
Qed.

Lemma filter_unique f (o : JsObject) : unique_keys o -> unique_keys (List.filter f o).
Proof.
  unfold unique_keys. induction o as [|[k v] o IH]; simpl; [auto|].
  intros H. inversion H as [|? ? Hnin Hnd]; subst.
  destruct (f (k, v)); simpl; [|auto].
  constructor; [|auto]. intros Hin. apply Hnin.
  apply in_map_iff in Hin. destruct Hin as ([k' v'] & <- & Hin).
  apply filter_In in Hin. apply in_map_iff. exists (k', v'). tauto.
Qed.

Lemma obj_lookup_filter f (o : JsObject) k :
  unique_keys o ->
  obj_lookup k (List.filter f o) =
    match obj_lookup k o with
    | Some v => if f (k, v) then Some v else None
    | None => None
    end.
Proof.
  unfold unique_keys, obj_lookup. induction o as [|[k1 v1] o IH]; simpl; [reflexivity|].
  intros H. inversion H as [|? ? Hnin Hnd]; subst.
  destruct (String.eqb k k1) eqn:E; simpl.
  - apply String.eqb_eq in E. subst k1.
    destruct (f (k, v1)) eqn:Ef; simpl.
    + by rewrite String.eqb_refl.
    + rewrite (IH Hnd).
      assert (Hnone : obj_lookup k o = None).
      { apply obj_lookup_None, keys_map_fst. rewrite List.Forall_forall.
        intros m Hm ->. contradiction. }
      unfold obj_lookup in Hnone. destruct (find _ o); [discriminate|reflexivity].
  - destruct (f (k1, v1)); simpl; [rewrite E|]; apply (IH Hnd).
Qed.

Lemma existsb_eqb k (l : list string) :
  existsb (String.eqb k) l = true <-> In k l.
Proof.
  rewrite existsb_exists. split.
  - intros (x & Hin & E). apply String.eqb_eq in E. by subst.
  - intros Hin. exists k. split; [exact Hin | apply String.eqb_refl].
Qed.

Lemma existsb_keys k (o : JsObject) :
  existsb (String.eqb k) (Object_keys o) =
    match obj_lookup k o with Some _ => true | None => false end.
Proof.
  unfold Object_keys, obj_lookup. induction o as [|[k1 v1] o IH]; simpl; [reflexivity|].
  destruct (String.eqb k k1); simpl; [reflexivity | exact IH].
Qed.

(** The merged object of [assertSafe], read by key. *)
Lemma confWithEnv_lookup conf cur k :
  unique_keys conf -> unique_keys cur ->
  obj_lookup k (obj_assign (obj_assign [] cur) conf) =
    match obj_lookup k conf with
    | Some v => Some v
    | None => obj_lookup k cur
    end.
Proof.
  intros Hconf Hcur.
  rewrite !obj_lookup_assign.
  rewrite !last_value_unique by assumption.
  destruct (obj_lookup k conf); [reflexivity|].
  destruct (obj_lookup k cur); reflexivity.
Qed.

Lemma confWithEnv_unique conf cur :
  unique_keys (obj_assign (obj_assign [] cur) conf).
Proof. apply obj_assign_unique, obj_assign_unique. constructor. Qed.

Lemma available_supplied conf cur (allow : bool) k :
  unique_keys conf -> unique_keys cur ->
  existsb (String.eqb k)
    (Object_keys (if allow then obj_assign (obj_assign [] cur) conf
                  else filterValues (obj_assign (obj_assign [] cur) conf) truthy))
  = supplied conf cur allow k.
Proof.
  intros Hconf Hcur. rewrite existsb_keys. unfold supplied.
  pose proof (confWithEnv_lookup conf cur k Hconf Hcur) as Hl.
  pose proof (confWithEnv_unique conf cur) as Hu.
  destruct allow.
  - rewrite Hl. cbn [orb].
    destruct (obj_lookup k conf); [reflexivity|]. by destruct (obj_lookup k cur).
  - rewrite filterValues_assign, obj_lookup_assign.
    rewrite last_value_unique by (by apply filter_unique).
    rewrite obj_lookup_filter by assumption.
    rewrite Hl. cbn [fst snd orb].
    destruct (obj_lookup k conf) as [v|]; [by destruct (truthy v)|].
    destruct (obj_lookup k cur) as [v|]; [by destruct (truthy v)|reflexivity].
Qed.

(** X21: [assertSafe] passes exactly when every variable of the example
    file is supplied by the configuration or, for a variable the
    configuration lacks, by the environment read; unless empty values are
    allowed, an empty value supplies nothing, and an empty value in the
    configuration hides a value of the environment.  Otherwise it throws
    [MissingEnvVarsError] whose [missing] lists the variables not supplied
    in the order of the example file. *)
Theorem assertSafe_supplied (deno : Dotenv.Deno) (conf confExample : JsObject)
    (allowEmpty : bool) (restrict : list string) (currentEnv : JsObject)
  (Hread : Dotenv.readEnv deno restrict = inr currentEnv)
  (Hconf : unique_keys conf)
  (Henv : unique_keys currentEnv) :
  Dotenv.assertSafe deno conf confExample allowEmpty restrict =
    match List.filter (fun k => negb (supplied conf currentEnv allowEmpty k))
            (Object_keys confExample) with
    | [] => inr tt
    | missing =>
        inl (Dotenv.MissingEnvVarsError (Dotenv.missing_message missing allowEmpty) missing)
    end.
Proof.
  unfold Dotenv.assertSafe. rewrite Hread. unfold withoutAll.
  rewrite (List.filter_ext _ (fun k => negb (supplied conf currentEnv allowEmpty k))).
  2:{ intros k. f_equal. by apply available_supplied. }
  by destruct (List.filter _ (Object_keys confExample)).
Qed.

Lemma assertSafe_supplied_witness :
  Dotenv.assertSafe Dotenv.scripted_deno [("PORT", ""); ("HOST", "h")]
    [("HOME", ""); ("PORT", ""); ("HOST", ""); ("USER", "")] false [] =
  inl (Dotenv.MissingEnvVarsError
         (Dotenv.missing_message ["PORT"; "USER"] false) ["PORT"; "USER"]).
Proof.
  apply (assertSafe_supplied Dotenv.scripted_deno [("PORT", ""); ("HOST", "h")]
           [("HOME", ""); ("PORT", ""); ("HOST", ""); ("USER", "")] false []
           [("HOME", "/root"); ("EMPTY", "")]).
  - reflexivity.
  - unfold unique_keys. simpl. repeat constructor; simpl; intuition discriminate.
  - unfold unique_keys. simpl. repeat constructor; simpl; intuition discriminate.
Defined.

Section ReadEnv.
Variable deno : Dotenv.Deno.

Lemma readEnv_fold_inl names e :
  fold_left (Dotenv.readEnv_step deno) names (inl e) = inl e.
Proof. induction names as [|n names IH]; simpl; [reflexivity | exact IH]. Qed.

Lemma truthy_spec v : truthy v = true <-> v <> "".
Proof.
  unfold truthy. destruct (String.eqb_spec v ""); simpl; split; congruence.
Qed.

Lemma readEnv_step_inr acc name acc' :
  Dotenv.readEnv_step deno (inr acc) name = inr acc' ->
  (exists v, Dotenv.kept deno name v /\ acc' = obj_set name v acc) \/
  (acc' = acc /\ forall v, ~ Dotenv.kept deno name v).
Proof.
  unfold Dotenv.readEnv_step, Dotenv.kept.
  destruct (Dotenv.env_get deno name) as [e|[v|]] eqn:Eg; [discriminate| |].
  - destruct (truthy v) eqn:Et; intros [= <-].
    + left. exists v. repeat split; auto. by apply truthy_spec.
    + right. split; [reflexivity|]. intros v' ([= <-] & Hv).
      apply truthy_spec in Hv. congruence.
  - intros [= <-]. right. split; [reflexivity|]. intros v' ([=] & _).
Qed.

Lemma readEnv_fold_sound names : forall acc cur k v,
  fold_left (Dotenv.readEnv_step deno) names (inr acc) = inr cur ->
  obj_lookup k cur = Some v ->
  (In k names /\ Dotenv.kept deno k v) \/ obj_lookup k acc = Some v.
Proof.
  induction names as [|n names IH]; intros acc cur k v Hf Hl.
  - injection Hf as <-. by right.
  - cbn [fold_left] in Hf.
    destruct (Dotenv.readEnv_step deno (inr acc) n) as [e|acc'] eqn:Es;
      [rewrite readEnv_fold_inl in Hf; discriminate|].
    destruct (IH _ _ _ _ Hf Hl) as [[Hin Hk]|Hacc]; [left; split; [by right|exact Hk]|].
    apply readEnv_step_inr in Es.
    destruct Es as [(v0 & Hk0 & ->)|[-> _]]; [|by right].
    rewrite obj_lookup_set in Hacc.
    destruct (String.eqb_spec k n) as [->|Hne]; [|by right].
    injection Hacc as <-. left. split; [by left | exact Hk0].
Qed.

Lemma readEnv_fold_keeps names : forall acc cur k v,
  fold_left (Dotenv.readEnv_step deno) names (inr acc) = inr cur ->
  Dotenv.kept deno k v -> obj_lookup k acc = Some v -> obj_lookup k cur = Some v.
Proof.
  induction names as [|n names IH]; intros acc cur k v Hf Hk Hl.
  - by injection Hf as <-.
  - cbn [fold_left] in Hf.
    destruct (Dotenv.readEnv_step deno (inr acc) n) as [e|acc'] eqn:Es;
      [rewrite readEnv_fold_inl in Hf; discriminate|].
    apply (IH _ _ _ _ Hf Hk).
    apply readEnv_step_inr in Es.
    destruct Es as [(v0 & Hk0 & ->)|[-> _]]; [|exact Hl].
    rewrite obj_lookup_set.
    destruct (String.eqb_spec k n) as [->|Hne]; [|exact Hl].
    destruct Hk as (Hg & _), Hk0 as (Hg0 & _). congruence.
Qed.

Lemma readEnv_fold_complete names : forall acc cur k v,
  fold_left (Dotenv.readEnv_step deno) names (inr acc) = inr cur ->
  In k names -> Dotenv.kept deno k v -> obj_lookup k cur = Some v.
Proof.
  induction names as [|n names IH]; intros acc cur k v Hf Hin Hk; [destruct Hin|].
  cbn [fold_left] in Hf.
  destruct (Dotenv.readEnv_step deno (inr acc) n) as [e|acc'] eqn:Es;
    [rewrite readEnv_fold_inl in Hf; discriminate|].
  destruct (in_dec string_dec k names) as [Hin'|Hnin]; [by eapply IH|].
  destruct Hin as [->|Hin]; [|contradiction].
  apply (readEnv_fold_keeps _ _ _ _ _ Hf Hk).
  apply readEnv_step_inr in Es.
  destruct Es as [(v0 & Hk0 & ->)|[_ Hno]]; [|by destruct (Hno v)].
  rewrite obj_lookup_set, String.eqb_refl.
  destruct Hk as (Hg & _), Hk0 as (Hg0 & _). congruence.
Qed.

(** X22: with a list of names, [readEnv] returns the listed variables that
    are set and not empty and nothing else: no variable outside the list
    reaches the object it returns. *)
Theorem readEnv_restricted (restrict : list string) (currentEnv : JsObject)
    (k v : string)
  (Hlist : restrict <> [])
  (Hread : Dotenv.readEnv deno restrict = inr currentEnv) :
  obj_lookup k currentEnv = Some v <->
  In k restrict /\ Dotenv.env_get deno k = inr (Some v) /\ v <> "".
Proof.
  unfold Dotenv.readEnv in Hread.
  destruct restrict as [|n names]; [contradiction|].
  change (fold_left (Dotenv.readEnv_step deno) (n :: names) (inr []) = inr currentEnv) in Hread.
  split.
  - intros Hl. destruct (readEnv_fold_sound _ _ _ _ _ Hread Hl) as [[Hin Hk]|Hnil].
    + split; [exact Hin | exact Hk].
    + discriminate.
  - intros [Hin Hk]. by apply (readEnv_fold_complete _ _ _ _ _ Hread Hin).
Qed.

End ReadEnv.

Lemma readEnv_restricted_witness :
  obj_lookup "HOME" [("HOME", "/root")] = Some "/root" <->
  In "HOME" ["EMPTY"; "HOME"; "USER"] /\
  Dotenv.env_get Dotenv.scripted_deno "HOME" = inr (Some "/root") /\ "/root" <> "".
Proof.
  apply (readEnv_restricted Dotenv.scripted_deno ["EMPTY"; "HOME"; "USER"]
           [("HOME", "/root")] "HOME" "/root"); [discriminate | reflexivity].
Defined.

Section LoadSync.
Variable deno : Dotenv.Deno.
Variable parse : string -> list string -> Exn + JsObject.

Lemma fill_defaults_lookup defs : forall conf k,
  obj_lookup k (Dotenv.fill_defaults conf defs) =
    match obj_lookup k conf with
    | Some v => Some v
    | None =>
        if existsb (String.eqb k) Object_prototype_names then None
        else obj_lookup k defs
    end.
Proof.
  unfold Dotenv.fill_defaults.
  induction defs as [|[k1 v1] defs IH]; intros conf k.
  - cbn [fold_left]. destruct (obj_lookup k conf); [reflexivity|].
    by destruct (existsb _ _).
  - cbn [fold_left fst snd]. rewrite IH.
    assert (Hcons : obj_lookup k ((k1, v1) :: defs) =
                    if String.eqb k k1 then Some v1 else obj_lookup k defs).
    { unfold obj_lookup. simpl. by destruct (String.eqb k k1). }
    rewrite Hcons. clear Hcons. unfold obj_in. rewrite existsb_keys.
    destruct (String.eqb_spec k k1) as [E|Hne]; [subst k|].
    + destruct (obj_lookup k1 conf) as [v|] eqn:El; cbn [orb]; [by rewrite El|].
      destruct (existsb (String.eqb k1) Object_prototype_names) eqn:Ep.
      * by rewrite El.
      * by rewrite obj_lookup_set, String.eqb_refl.
    + destruct (match obj_lookup k1 conf with Some _ => true | None => false end
                || existsb (String.eqb k1) Object_prototype_names); [reflexivity|].
      rewrite obj_lookup_set. apply String.eqb_neq in Hne. by rewrite Hne.
Qed.

(** X23: [loadSync] takes a variable from the defaults file only when the
    env file does not define it, and never under a name every object
    inherits ([toString], [constructor], ...): for such a name the [in]
    test of the loop answers true although the configuration lacks it. *)
Theorem loadSync_defaults (o : Dotenv.LoadOptions) (conf confDefaults conf' : JsObject)
    (sets : list (string * string))
  (Henv : Dotenv.parseFileSync deno parse (default ".env" (Dotenv.envPath o))
            (default [] (Dotenv.restrictEnvAccessTo o)) = inr conf)
  (Hpath : truthy (default ".env.defaults" (Dotenv.defaultsPath o)) = true)
  (Hdef : Dotenv.parseFileSync deno parse
            (default ".env.defaults" (Dotenv.defaultsPath o))
            (default [] (Dotenv.restrictEnvAccessTo o)) = inr confDefaults)
  (Hload : Dotenv.loadSync deno parse o = (sets, inr conf')) :
  forall k,
    obj_lookup k conf' =
      match obj_lookup k conf with
      | Some v => Some v
      | None =>
          if existsb (String.eqb k) Object_prototype_names then None
          else obj_lookup k confDefaults
      end.
Proof.
  intros k. rewrite <- fill_defaults_lookup. f_equal.
  unfold Dotenv.loadSync in Hload. cbv zeta in Hload.
  rewrite Henv, Hpath, Hdef in Hload.
  destruct (if truthy _ then _ else _) as [e|[]]; [by injection Hload|].
  destruct (default false (Dotenv.export o)).
  - destruct (Dotenv.export_loop _ _ _) as [sets' [e|]]; [discriminate|].
    by injection Hload as _ <-.
  - by injection Hload as _ <-.
Qed.

Lemma last_value_snoc k k1 v1 (l : list (string * string)) :
  last_value k (l ++ [(k1, v1)]) =
    if String.eqb k k1 then Some v1 else last_value k l.
Proof.
  unfold last_value. rewrite rev_app_distr. unfold obj_lookup. simpl.
  by destruct (String.eqb k k1).
Qed.

Lemma env_get_after_snoc sets k k1 v1 :
  Dotenv.env_get_after deno (sets ++ [(k1, v1)]) k =
    if String.eqb k k1 then inr (Some v1) else Dotenv.env_get_after deno sets k.
Proof.
  unfold Dotenv.env_get_after. rewrite last_value_snoc. by destruct (String.eqb k k1).
Qed.

Lemma env_get_after_None sets k :
  Dotenv.env_get_after deno sets k = inr None -> Dotenv.env_get deno k = inr None.
Proof.
  unfold Dotenv.env_get_after. by destruct (last_value k sets).
Qed.

(** The loop sets only variables of its entries that were not defined. *)
Lemma export_loop_sets entries : forall sets0 sets r k v,
  Dotenv.export_loop deno entries sets0 = (sets, r) ->
  In (k, v) sets ->
  In (k, v) sets0 \/ (In (k, v) entries /\ Dotenv.env_get deno k = inr None).
Proof.
  induction entries as [|[k1 v1] rest IH]; intros sets0 sets r k v Hl Hin.
  - injection Hl as <- _. by left.
  - cbn [Dotenv.export_loop] in Hl.
    destruct (Dotenv.env_get_after deno sets0 k1) as [e|[x|]] eqn:Eg.
    + injection Hl as <- _. by left.
    + destruct (IH _ _ _ _ _ Hl Hin) as [H|[H1 H2]]; [by left|].
      right. split; [by right | exact H2].
    + destruct (Dotenv.env_set deno k1 v1) as [e|].
      * injection Hl as <- _. by left.
      * destruct (IH _ _ _ _ _ Hl Hin) as [H|[H1 H2]].
        -- apply in_app_or in H. destruct H as [H|[H|[]]]; [by left|].
           injection H as <- <-. right. split; [by left|].
           by apply (env_get_after_None sets0).
        -- right. split; [by right | exact H2].
Qed.

(** A variable that is defined stays defined through the loop. *)
Lemma export_loop_mono entries : forall sets0 sets k v,
  Dotenv.export_loop deno entries sets0 = (sets, None) ->
  Dotenv.env_get_after deno sets0 k = inr (Some v) ->
  exists v', Dotenv.env_get_after deno sets k = inr (Some v').
Proof.
  induction entries as [|[k1 v1] rest IH]; intros sets0 sets k v Hl Hg.
  - injection Hl as <-. eauto.
  - cbn [Dotenv.export_loop] in Hl.
    destruct (Dotenv.env_get_after deno sets0 k1) as [e|[x|]] eqn:Eg; [discriminate| |].
    + by eapply IH.
    + destruct (Dotenv.env_set deno k1 v1) as [e|]; [discriminate|].
      apply (IH _ _ k (if String.eqb k k1 then v1 else v) Hl).
      rewrite env_get_after_snoc. destruct (String.eqb k k1); [reflexivity | exact Hg].
Qed.

(** After the loop every variable of its entries is defined. *)
Lemma export_loop_defined entries : forall sets0 sets k,
  Dotenv.export_loop deno entries sets0 = (sets, None) ->
  In k (Object_keys entries) ->
  exists v, Dotenv.env_get_after deno sets k = inr (Some v).
Proof.
  induction entries as [|[k1 v1] rest IH]; intros sets0 sets k Hl Hin; [destruct Hin|].
  cbn [Dotenv.export_loop] in Hl.
  destruct (Dotenv.env_get_after deno sets0 k1) as [e|[x|]] eqn:Eg; [discriminate| |].
  - destruct Hin as [<-|Hin]; [|by eapply IH].
    by apply (export_loop_mono _ _ _ _ _ Hl Eg).
  - destruct (Dotenv.env_set deno k1 v1) as [e|]; [discriminate|].
    destruct Hin as [<-|Hin]; [|by eapply IH].
    apply (export_loop_mono _ _ _ k1 v1 Hl).
    by rewrite env_get_after_snoc, String.eqb_refl.
Qed.

(** X24: with [export], [loadSync] sets only variables of the object it
    returns that were not defined before, each to its value there, so that
    it overwrites no variable of the environment; and when it returns, every
    variable of that object is defined. *)
Theorem loadSync_export (o : Dotenv.LoadOptions) (conf' : JsObject)
    (sets : list (string * string))
  (Hexport : Dotenv.export o = Some true)
  (Hload : Dotenv.loadSync deno parse o = (sets, inr conf')) :
  (forall k v, In (k, v) sets ->
     In (k, v) conf' /\ Dotenv.env_get deno k = inr None) /\
  (forall k, In k (Object_keys conf') ->
     exists v, Dotenv.env_get_after deno sets k = inr (Some v)).
Proof.
  unfold Dotenv.loadSync in Hload. cbv zeta in Hload. rewrite Hexport in Hload.
  cbn [default] in Hload.
  destruct (Dotenv.parseFileSync _ _ _ _) as [e|conf]; [discriminate|].
  destruct (if truthy (default ".env.defaults" _) then _ else _) as [e|conf1];
    [discriminate|].
  destruct (if truthy (default ".env.example" _) then _ else _) as [e|[]];
    [discriminate|].
  destruct (Dotenv.export_loop deno conf1 []) as [sets' [e|]] eqn:El; [discriminate|].
  injection Hload as -> ->. split.
  - intros k v Hin.
    destruct (export_loop_sets _ _ _ _ _ _ El Hin) as [[]|H]. exact H.
  - intros k Hin. by apply (export_loop_defined _ _ _ _ El).
Qed.

(** X25: [loadSync] sets no variable without [export], and none when it
    throws [MissingEnvVarsError]: the check against the example file comes
    before the export. *)
Theorem loadSync_sets_nothing (o : Dotenv.LoadOptions)
  (H : Dotenv.export o <> Some true \/
       exists msg missing,
         snd (Dotenv.loadSync deno parse o) = inl (Dotenv.MissingEnvVarsError msg missing)) :
  fst (Dotenv.loadSync deno parse o) = [].
Proof.
  unfold Dotenv.loadSync in *. cbv zeta in *.
  destruct (Dotenv.parseFileSync _ _ _ _) as [e|conf]; [reflexivity|].
  destruct (if truthy (default ".env.defaults" _) then _ else _) as [e|conf1];
    [reflexivity|].
  destruct (if truthy (default ".env.example" _) then _ else _) as [e|[]];
    [reflexivity|].
  destruct (Dotenv.export o) as [[|]|]; cbn [default] in *; try reflexivity.
  destruct H as [H|(msg & missing & H)]; [congruence|].
  destruct (Dotenv.export_loop deno conf1 []) as [sets' [e|]]; discriminate.
Qed.

End LoadSync.

Lemma loadSync_defaults_witness :
  obj_lookup "toString" [("PORT", "8080"); ("HOME", "/srv"); ("HOST", "localhost")] =
    match obj_lookup "toString" [("PORT", "8080"); ("HOME", "/srv")] with
    | Some v => Some v
    | None =>
        if existsb (String.eqb "toString") Object_prototype_names then None
        else obj_lookup "toString"
               [("PORT", "80"); ("HOST", "localhost"); ("toString", "x")]
    end.
Proof.
  apply (loadSync_defaults Dotenv.scripted_deno Dotenv.scripted_parse
           (Dotenv.mkLoadOptions None (Some "") None (Some true) None None)
           _ _ _ [("PORT", "8080"); ("HOST", "localhost")]); reflexivity.
Defined.

Lemma loadSync_export_witness :
  (forall k v, In (k, v) [("PORT", "8080"); ("HOST", "localhost")] ->
     In (k, v) [("PORT", "8080"); ("HOME", "/srv"); ("HOST", "localhost")] /\
     Dotenv.env_get Dotenv.scripted_deno k = inr None) /\
  (forall k, In k (Object_keys [("PORT", "8080"); ("HOME", "/srv"); ("HOST", "localhost")]) ->
     exists v, Dotenv.env_get_after Dotenv.scripted_deno
                 [("PORT", "8080"); ("HOST", "localhost")] k = inr (Some v)).
Proof.
  apply (loadSync_export Dotenv.scripted_deno Dotenv.scripted_parse
           (Dotenv.mkLoadOptions None (Some "") None (Some true) None None));
    reflexivity.
Defined.

Lemma loadSync_sets_nothing_witness :
  fst (Dotenv.loadSync Dotenv.scripted_deno Dotenv.scripted_parse
         (Dotenv.mkLoadOptions None None None (Some true) None None)) = [].
Proof.
  apply loadSync_sets_nothing. right. eexists _, _. vm_compute. reflexivity.
Defined.

(** ** [encoding/base64url.ts] *)

Lemma skip_split p s :
  exists body, s = body ++ Base64url.skip p s /\ forallb p body = true.
Proof.
  induction s as [|c r (body & E & Hb)]; [by exists []|].
  simpl. destruct (p c) eqn:Ep.
  - exists (c :: body). split; [simpl; by rewrite <- E | simpl; by rewrite Ep].
  - by exists [].
Qed.

Lemma skip_all p s : forallb p s = true -> Base64url.skip p s = [].
Proof.
  induction s as [|c r IH]; [reflexivity|]. simpl.
  destruct (p c); [exact IH | discriminate].
Qed.

Lemma padding_cases s :
  Base64url.padding s = true ->
  s = [] \/ s = ["="]%char \/ s = ["="; "="]%char.
Proof.
  destruct s as [|c [|d [|e r]]]; simpl; try discriminate; auto.
  - intros H. apply Ascii.eqb_eq in H. subst. auto.
  - intros H. apply andb_true_iff in H. destruct H as [H1 H2].
    apply Ascii.eqb_eq in H1, H2. subst. auto.
Qed.

Lemma ascii_all (P : ascii -> bool) :
  forallb (fun n => P (ascii_of_nat n)) (seq 0 256) = true -> forall c, P c = true.
Proof.
  intros H c. rewrite forallb_forall in H.
  rewrite <- (ascii_nat_embedding c). apply H, in_seq.
  pose proof (nat_ascii_bounded c). lia.
Qed.

(** A character of the standard alphabet is not [=], is taken into the
    class of the URL alphabet by the two replacements, and comes back. *)
Lemma std_class_there_and_back c :
  Base64url.std_class c = true ->
  Ascii.eqb c "=" = false /\
  Base64url.url_class
    (if Ascii.eqb (if Ascii.eqb c "+" then "-" else c) "/" then "_"
     else if Ascii.eqb c "+" then "-" else c)%char = true /\
  (let u := (if Ascii.eqb (if Ascii.eqb c "+" then "-" else c) "/" then "_"
             else if Ascii.eqb c "+" then "-" else c)%char in
   (if Ascii.eqb (if Ascii.eqb u "-" then "+" else u) "_" then "/"
    else if Ascii.eqb u "-" then "+" else u)%char = c).
Proof.
  pose proof (ascii_all (fun c =>
    implb (Base64url.std_class c)
      (negb (Ascii.eqb c "=") &&
       Base64url.url_class
         (if Ascii.eqb (if Ascii.eqb c "+" then "-" else c) "/" then "_"
          else if Ascii.eqb c "+" then "-" else c)%char &&
       (let u := (if Ascii.eqb (if Ascii.eqb c "+" then "-" else c) "/" then "_"
                  else if Ascii.eqb c "+" then "-" else c)%char in
        Ascii.eqb (if Ascii.eqb (if Ascii.eqb u "-" then "+" else u) "_" then "/"
                   else if Ascii.eqb u "-" then "+" else u)%char c)))
    ltac:(vm_compute; reflexivity) c) as H.
  cbv beta in H. intros Hc. rewrite Hc in H. cbn [implb] in H.
  apply andb_true_iff in H. destruct H as [H H3].
  apply andb_true_iff in H. destruct H as [H1 H2].
  apply negb_true_iff in H1. apply Ascii.eqb_eq in H3. auto.
Qed.

Lemma to_url_body body :
  forallb Base64url.std_class body = true ->
  Base64url.remove_all "=" body = body /\
  forallb Base64url.url_class
    (Base64url.replace_all "/" "_" (Base64url.replace_all "+" "-" body)) = true /\
  Base64url.replace_all "_" "/"
    (Base64url.replace_all "-" "+"
       (Base64url.replace_all "/" "_" (Base64url.replace_all "+" "-" body))) = body.
Proof.
  unfold Base64url.remove_all, Base64url.replace_all.
  induction body as [|c r IH]; [auto|].
  cbn [forallb List.filter List.map]. intros H.
  apply andb_true_iff in H. destruct H as [Hc Hr].
  destruct (IH Hr) as (I1 & I2 & I3).
  destruct (std_class_there_and_back c Hc) as (C1 & C2 & C3).
  rewrite C1. cbn [negb]. rewrite I1, C2, I2. cbv zeta in C3. rewrite C3, I3. auto.
Qed.

(** X26: the two conversions of [base64url.ts] are inverse on the output of
    a base64 encoder: a padded string of the standard alphabet, made URL
    safe by [convertBase64ToBase64url], is given back unchanged, padding
    included, by [convertBase64urlToBase64]. *)
Theorem base64url_round_trip (b64 : list ascii)
  (Hb64 : Base64url.is_base64 b64 = true) :
  Base64url.convertBase64urlToBase64 (Base64url.convertBase64ToBase64url b64) = inr b64.
Proof.
  unfold Base64url.is_base64 in Hb64. apply andb_true_iff in Hb64.
  destruct Hb64 as [Hlen Hpad]. apply Nat.eqb_eq in Hlen.
  destruct (skip_split Base64url.std_class b64) as (body & E & Hbody).
  destruct (to_url_body body Hbody) as (Hrm & Hurl & Hback).
  set (u := Base64url.replace_all "/" "_" (Base64url.replace_all "+" "-" body)) in *.
  assert (Hu : length u = length body).
  { unfold u, Base64url.replace_all. by rewrite !length_map. }
  assert (Hconv : Base64url.convertBase64ToBase64url b64 = u).
  { unfold Base64url.convertBase64ToBase64url. rewrite E.
    unfold Base64url.remove_all. rewrite List.filter_app.
    fold (Base64url.remove_all "=" body). rewrite Hrm.
    destruct (padding_cases _ Hpad) as [-> | [-> | ->]]; cbn [List.filter];
      rewrite ?app_nil_r; reflexivity. }
  rewrite Hconv. unfold Base64url.convertBase64urlToBase64, Base64url.RE_test.
  rewrite (skip_all _ _ Hurl). cbn [Base64url.padding negb].
  unfold Base64url.addPaddingToBase64url. rewrite Hu.
  rewrite E, length_app in Hlen.
  pose proof (Nat.div_mod_eq (length body) 4) as Hdm.
  pose proof (Nat.mod_upper_bound (length body) 4 ltac:(lia)) as Hm.
  destruct (padding_cases _ Hpad) as [Ep | [Ep | Ep]]; rewrite Ep in Hlen, E;
    cbn [length] in Hlen.
  - assert (Hr : length body mod 4 = 0).
    { rewrite Nat.add_0_r in Hlen. exact Hlen. }
    rewrite Hr. cbn [Nat.eqb]. rewrite Hback, E at 1. by rewrite app_nil_r.
  - assert (Hr : length body mod 4 = 3).
    { pose proof (Nat.div_mod_eq (length body + 1) 4). lia. }
    rewrite Hr. cbn [Nat.eqb].
    unfold Base64url.replace_all in *. rewrite !List.map_app, Hback.
    by rewrite E.
  - assert (Hr : length body mod 4 = 2).
    { pose proof (Nat.div_mod_eq (length body + 2) 4). lia. }
    rewrite Hr. cbn [Nat.eqb].
    unfold Base64url.replace_all in *. rewrite !List.map_app, Hback.
    by rewrite E.
Qed.

Lemma base64url_round_trip_witness :
  Base64url.convertBase64urlToBase64
    (Base64url.convertBase64ToBase64url ["+"; "/"; "8"; "="]%char)
  = inr ["+"; "/"; "8"; "="]%char.
Proof. apply base64url_round_trip. reflexivity. Defined.

(** ** [http/cookie.ts]: what [toString] accepts *)

Lemma all_chars_occurs p s c :
  all_chars p s = true -> p c = false -> occurs c s = false.
Proof.
  intros Hs Hc. induction s as [|d r IH]; [reflexivity|].
  simpl in Hs. apply andb_true_iff in Hs. destruct Hs as [Hd Hr].
  simpl. rewrite (IH Hr).
  destruct (Ascii.eqb_spec d c) as [->|]; [congruence | reflexivity].
Qed.

Lemma FIELD_CONTENT_char_no_space c :
  FIELD_CONTENT_char c = true -> is_space c = false.
Proof.
  unfold FIELD_CONTENT_char. intros H.
  apply andb_true_iff in H. destruct H as [_ H]. by apply negb_true_iff in H.
Qed.

Lemma all_chars_trim s :
  all_chars FIELD_CONTENT_char s = true -> trim s = s.
Proof.
  intros Hs. unfold trim.
  assert (Hstart : trimStart s = s).
  { destruct s as [|c r]; [reflexivity|]. simpl in *.
    apply andb_true_iff in Hs. destruct Hs as [Hc _].
    by rewrite (FIELD_CONTENT_char_no_space c Hc). }
  rewrite Hstart. induction s as [|c r IH]; [reflexivity|].
  simpl in Hs. apply andb_true_iff in Hs. destruct Hs as [Hc Hr].
  cbn [trimEnd]. rewrite IH.
  - destruct r; [by rewrite (FIELD_CONTENT_char_no_space c Hc) | reflexivity].
  - exact Hr.
  - destruct r as [|d r']; [reflexivity|]. simpl in *.
    apply andb_true_iff in Hr. destruct Hr as [Hd _].
    by rewrite (FIELD_CONTENT_char_no_space d Hd).
Qed.

Lemma validateValue_no_semicolon name value :
  validateValue_loop name value = inr tt -> occurs ";" value = false.
Proof.
  induction value as [|c r IH]; [reflexivity|]. cbn [validateValue_loop]. cbv zeta.
  destruct (Ascii.eqb_spec c ";") as [->|Hne].
  - discriminate.
  - destruct (_ || _)%bool; [discriminate|].
    destruct (128 <? _)%nat; [discriminate|].
    intros H. simpl. rewrite (IH H).
    destruct (Ascii.eqb_spec c ";"); [contradiction | reflexivity].
Qed.

Lemma accepted_cookie_ok (q : string * string) :
  fst q <> "" ->
  validateName (Some (fst q)) = inr tt ->
  validateValue (Some (fst q)) (Some (snd q)) = inr tt ->
  cookie_pair_ok q.
Proof.
  intros Hne Hname Hvalue. unfold validateName in Hname.
  assert (Ht : truthy (fst q) = true).
  { unfold truthy. apply String.eqb_neq in Hne. by rewrite Hne. }
  rewrite Ht in Hname. cbn [andb] in Hname.
  destruct (FIELD_CONTENT_REGEXP_test (fst q)) eqn:Et; [|discriminate].
  unfold FIELD_CONTENT_REGEXP_test in Et.
  apply andb_true_iff in Et. destruct Et as [_ Hall].
  repeat split.
  - by apply (all_chars_occurs _ _ _ Hall).
  - by apply (all_chars_occurs _ _ _ Hall).
  - by apply all_chars_trim.
  - by apply (validateValue_no_semicolon (fst q)).
Qed.

(** X27: the cookies [toString] accepts are the cookies [getCookies] reads
    back: when every name, [__proto__] left aside, passes [validateName]
    and every value [validateValue], the header that carries the list
    gives, for every name, the value of the last cookie of that name. *)
Theorem accepted_cookies_read_back (h : Headers) (p : string * string)
    (ps : list (string * string))
  (Hok : List.Forall
           (fun q => fst q <> "" /\ fst q <> "__proto__" /\
                     validateName (Some (fst q)) = inr tt /\
                     validateValue (Some (fst q)) (Some (snd q)) = inr tt)
           (p :: ps))
  (Hget : Headers_get h "Cookie" = Some (cookie_header (p :: ps))) :
  exists o, getCookies h = inr o /\
    forall k, obj_lookup k o = last_value k (p :: ps).
Proof.
  apply getCookies_of_pairs; [|exact Hget].
  eapply List.Forall_impl; [|exact Hok].
  intros q (H1 & H2 & H3 & H4). by apply accepted_cookie_ok.
Qed.

Lemma accepted_cookies_read_back_witness :
  exists o,
    getCookies [("cookie", "sid=a=b; theme=dark")] = inr o /\
    forall k, obj_lookup k o = last_value k [("sid", "a=b"); ("theme", "dark")].
Proof.
  apply (accepted_cookies_read_back _ ("sid", "a=b") [("theme", "dark")]).
  - repeat constructor; simpl; discriminate.
  - reflexivity.
Defined.

(** On Deno, whose [Object.prototype] has no [__proto__], a cookie of that
    name is an own property like any other. *)
Example proto_cookie_kept :
  validateName (Some "__proto__") = inr tt /\
  getCookies [("cookie", "__proto__=1")] = inr [("__proto__", "1")].
Proof. split; reflexivity. Qed.

(** ** [dotenv/mod.ts]: [configSync] *)

(** X28: without [safe], [configSync] still checks the configuration
    against an example file: the option [example] is dropped and the
    default [.env.example] takes its place. *)
Theorem configSync_without_safe (deno : Dotenv.Deno)
    (parse : string -> list string -> Exn + JsObject) (options : Dotenv.ConfigOptions)
  (Hsafe : default false (Dotenv.cfg_safe options) = false) :
  Dotenv.configSync deno parse options =
  Dotenv.loadSync deno parse
    {| Dotenv.envPath := Dotenv.cfg_path options;
       Dotenv.examplePath := Some ".env.example";
       Dotenv.defaultsPath := Dotenv.cfg_defaults options;
       Dotenv.export := Dotenv.cfg_export options;
       Dotenv.allowEmptyValues := Dotenv.cfg_allowEmptyValues options;
       Dotenv.restrictEnvAccessTo := Dotenv.cfg_restrictEnvAccessTo options |}.
Proof.
  unfold Dotenv.configSync. rewrite Hsafe. reflexivity.
Qed.

Lemma configSync_without_safe_witness :
  Dotenv.configSync Dotenv.scripted_deno Dotenv.scripted_parse
    (Dotenv.mkConfigOptions None None (Some false) (Some "none") None None None) =
  Dotenv.loadSync Dotenv.scripted_deno Dotenv.scripted_parse
    (Dotenv.mkLoadOptions None (Some ".env.example") None None None None).
Proof.
  apply (configSync_without_safe Dotenv.scripted_deno Dotenv.scripted_parse
           (Dotenv.mkConfigOptions None None (Some false) (Some "none") None None None)).
  reflexivity.
Defined.
